(** * Graph_PathFinder: the search algorithms of [algorithms.py] and the
    reference graphs of [graphs.py], embedded and verified.

    Conventions of the embedding.

    - A Python [dict] is a [gmap]: the algorithms only look keys up, test
      membership and assign, so insertion order is never observed.
    - A Python function either returns a value or raises; the [while]
      loops of the module (those of the three searches and the one of
      [reconstruct_path]) are run with a fuel, one unit per iteration.
      [OutOfFuel] is not a behaviour of the program: theorems that say the
      program returns give a fuel above which the outcome is reached and no
      longer changes.
    - Python [int]s are [Z].  The [float]s of [astar] that are keys of the
      heap are IEEE binary64 numbers ([PrimFloat]); the g-scores, which are
      the floats [0.0], [0.0 + 1.0], [0.0 + 1.0 + 1.0], ... are carried as
      the number of [1.0] added (a [nat]), converted by [float_of_count]
      where the program adds them to the heuristic.  Below [2^53] that
      count and the float are the same number and [<] on them agree.
    - [x ** 2] on a float is [float.__pow__], which calls the C library's
      [pow] and raises [OverflowError] when the result overflows.  [pow]
      is not the rounded product [x * x] (it differs from it in the last
      bit on some arguments), so the algorithms take the operation as a
      parameter [pow2] and the theorems hold for every [pow2];
      [float_pow2] is the operation on the arguments that occur in the
      reference graphs.
    - [heapq] is modelled as a priority queue.  Where Python's [<] orders
      the heap entries totally (nodes that can be compared, no NaN among
      the priorities) the nodes come out in the order of [heapq]; the
      theorems that say that [astar] returns carry that condition. *)

From Stdlib Require Import ZArith Floats Uint63.
From stdpp Require Import base gmap list strings.

#[local] Set Warnings "-clear-no-such-hyp".

Local Open Scope Z_scope.

(** ** Outcomes of a call *)

Inductive exn : Type := KeyError | OverflowError | ValueError.

Inductive outcome (A : Type) : Type :=
| Returns (a : A)
| Raises (e : exn)
| OutOfFuel.

Arguments Returns {A} a.
Arguments Raises {A} e.
Arguments OutOfFuel {A}.

(** Sequencing of calls: the first exception (or lack of fuel) ends the
    computation. *)
#[export] Instance outcome_ret : MRet outcome := @Returns.
#[export] Instance outcome_bind : MBind outcome := λ A B k m,
  match m with
  | Returns a => k a
  | Raises e => Raises e
  | OutOfFuel => OutOfFuel
  end.

(** A [for] loop whose body may raise. *)
Fixpoint for_each {A B : Type} (body : A → B → outcome A) (acc : A)
    (items : list B) : outcome A :=
  match items with
  | [] => Returns acc
  | x :: rest => acc' ← body acc x; for_each body acc' rest
  end.

Definition float_of_count (n : nat) : float :=
  PrimFloat.of_uint63 (Uint63.of_Z (Z.of_nat n)).

(** [math.sqrt(x)]: [ValueError] below zero ([-0.0] is not below zero),
    the IEEE square root otherwise (a NaN for a NaN). *)
Definition math_sqrt (x : float) : outcome float :=
  if PrimFloat.ltb x 0%float then Raises ValueError
  else Returns (PrimFloat.sqrt x).

Section Algorithms.

Context {Node : Type} `{Countable Node}.

(** [x ** 2] on floats: the value of the C library's [pow(x, 2.0)], or
    [None] when [float.__pow__] raises [OverflowError]. *)
Variable pow2 : float → option float.

(** Python's [<] on nodes, which [heapq] falls back on when two heap
    entries carry the same priority. *)
Variable node_ltb : Node → Node → bool.

Definition float_pow (x : float) : outcome float :=
  match pow2 x with
  | Some y => Returns y
  | None => Raises OverflowError
  end.

(** [euclidean(a, b) = sqrt((a[0] - b[0]) ** 2 + (a[1] - b[1]) ** 2)] *)
Definition euclidean (a b : float * float) : outcome float :=
  dx2 ← float_pow (PrimFloat.sub a.1 b.1);
  dy2 ← float_pow (PrimFloat.sub a.2 b.2);
  math_sqrt (PrimFloat.add dx2 dy2).

(** [@dataclass class SearchResult] *)
Record SearchResult : Type := mkResult {
  path : list Node;
  distance : Z;
  visited_count : Z;
  visited_order : option (list Node)
}.

(** [adjacency.get(current, [])] *)
Definition neighbors (adjacency : gmap Node (list Node)) (current : Node)
  : list Node :=
  default [] (adjacency !! current).

(** *** reconstruct_path *)

(** The loop [while current is not None: path.append(current);
    current = came_from[current]]. *)
Fixpoint walk_back (fuel : nat) (came_from : gmap Node (option Node))
    (current : option Node) (path : list Node) : outcome (list Node) :=
  match current with
  | None => Returns path
  | Some c =>
      match fuel with
      | O => OutOfFuel
      | S fuel' =>
          match came_from !! c with
          | None => Raises KeyError
          | Some next => walk_back fuel' came_from next (path ++ [c])
          end
      end
  end.

Definition reconstruct_path (fuel : nat)
    (came_from : gmap Node (option Node)) (start goal : Node)
  : outcome (list Node) :=
  match walk_back fuel came_from (Some goal) [] with
  | Returns path =>
      let path := reverse path in
      match path with
      | [] => Returns []
      | first :: _ =>
          if decide (first = start) then Returns path else Returns []
      end
  | Raises e => Raises e
  | OutOfFuel => OutOfFuel
  end.

(** [max(0, len(path) - 1)] *)
Definition path_distance (path : list Node) : Z :=
  Z.max 0 (Z.of_nat (length path) - 1).

(** *** bfs and dfs *)

(** The working state of [bfs] and [dfs].  [frontier] is the deque of
    [bfs], leftmost first, and the stack of [dfs], top first. *)
Record search_state : Type := mkState {
  frontier : list Node;
  came_from : gmap Node (option Node);
  count : Z;
  order : list Node
}.

(** One turn of [for neighbor in adjacency.get(current, [])]:
    [if neighbor not in came_from: came_from[neighbor] = current;
    frontier.append(neighbor)]. *)
Definition discover (push : Node → list Node → list Node) (current : Node)
    (acc : gmap Node (option Node) * list Node) (neighbor : Node)
  : gmap Node (option Node) * list Node :=
  match acc.1 !! neighbor with
  | None => (<[neighbor := Some current]> acc.1, push neighbor acc.2)
  | Some _ => acc
  end.

(** [deque.append] and [list.append] on a stack held top first. *)
Definition enqueue (n : Node) (q : list Node) : list Node := q ++ [n].
Definition push_top (n : Node) (s : list Node) : list Node := n :: s.

Inductive control : Type := Running | Finished.

(** One iteration of the [while] loop of [bfs] ([push := enqueue]) and of
    [dfs] ([push := push_top]); [Finished] when the loop is left, by its
    condition or by [break]. *)
Definition search_step (push : Node → list Node → list Node)
    (adjacency : gmap Node (list Node)) (goal : Node) (st : search_state)
  : control * search_state :=
  match frontier st with
  | [] => (Finished, st)
  | current :: rest =>
      let count' := count st + 1 in
      let order' := order st ++ [current] in
      if decide (current = goal) then
        (Finished, mkState rest (came_from st) count' order')
      else
        let acc := foldl (discover push current) (came_from st, rest)
                         (neighbors adjacency current) in
        (Running, mkState acc.2 acc.1 count' order')
  end.

Fixpoint search_loop (push : Node → list Node → list Node) (fuel : nat)
    (adjacency : gmap Node (list Node)) (goal : Node) (st : search_state)
  : option search_state :=
  match fuel with
  | O => None
  | S fuel' =>
      match search_step push adjacency goal st with
      | (Finished, st') => Some st'
      | (Running, st') => search_loop push fuel' adjacency goal st'
      end
  end.

Definition initial_state (start : Node) : search_state :=
  mkState [start] {[start := None]} 0 [].

Definition frontier_search (push : Node → list Node → list Node)
    (fuel : nat) (adjacency : gmap Node (list Node)) (start goal : Node)
  : outcome SearchResult :=
  match search_loop push fuel adjacency goal (initial_state start) with
  | None => OutOfFuel
  | Some st =>
      match reconstruct_path fuel (came_from st) start goal with
      | Returns path =>
          Returns (mkResult path (path_distance path) (count st)
                            (Some (order st)))
      | Raises e => Raises e
      | OutOfFuel => OutOfFuel
      end
  end.

Definition bfs := frontier_search enqueue.
Definition dfs := frontier_search push_top.

(** *** astar *)

(** An entry [(f, node)] of [open_heap]. *)
Definition entry : Type := float * Node.

(** Python's [<] on the tuples [(f, node)]: the first components decide
    unless they are [==]; then the nodes do, unless they are [==] too. *)
Definition entry_ltb (a b : entry) : bool :=
  if PrimFloat.eqb a.1 b.1
  then (if decide (a.2 = b.2) then false else node_ltb a.2 b.2)
  else PrimFloat.ltb a.1 b.1.

(** [heapq] as a priority queue: [heappush] adds an entry and [heappop]
    removes a least one (the earliest pushed among equal ones).  For
    entries that [<] orders totally this is the sequence of nodes that the
    binary heap of [heapq] pops; where it does not ([<] raises [TypeError]
    on two nodes, or a priority is a NaN) [heapq] behaves otherwise. *)
Definition heappush (heap : list entry) (e : entry) : list entry :=
  heap ++ [e].

Fixpoint heappop (heap : list entry) : option (entry * list entry) :=
  match heap with
  | [] => None
  | x :: rest =>
      match heappop rest with
      | None => Some (x, [])
      | Some (m, rest') =>
          if entry_ltb m x then Some (m, x :: rest') else Some (x, rest)
      end
  end.

Record astar_state : Type := mkAstar {
  open_heap : list entry;
  a_came_from : gmap Node (option Node);
  g_score : gmap Node nat;
  a_count : Z;
  a_order : list Node
}.

(** [h = euclidean(positions[neighbor], positions[goal])
       if (neighbor in positions and goal in positions) else 0.0] *)
Definition heuristic (positions : gmap Node (float * float))
    (neighbor goal : Node) : outcome float :=
  match positions !! neighbor, positions !! goal with
  | Some pn, Some pg => euclidean pn pg
  | _, _ => Returns 0%float
  end.

(** [neighbor not in g_score or tentative_g < g_score[neighbor]] *)
Definition improves (g_score : gmap Node nat) (neighbor : Node)
    (tentative_g : nat) : bool :=
  match g_score !! neighbor with
  | None => true
  | Some g => Nat.ltb tentative_g g
  end.

(** One turn of [for neighbor in adjacency.get(current, [])] in [astar];
    [g_score[current]] raises when [current] has no g-score, and an
    exception of [euclidean] ends the search. *)
Definition relax (positions : gmap Node (float * float)) (goal : Node)
    (current : Node) (st : astar_state) (neighbor : Node)
  : outcome astar_state :=
  match g_score st !! current with
  | None => Raises KeyError
  | Some g_current =>
      let tentative_g := (g_current + 1)%nat in
      if improves (g_score st) neighbor tentative_g then
        h ← heuristic positions neighbor goal;
        let f := PrimFloat.add (float_of_count tentative_g) h in
        Returns (mkAstar (heappush (open_heap st) (f, neighbor))
                         (<[neighbor := Some current]> (a_came_from st))
                         (<[neighbor := tentative_g]> (g_score st))
                         (a_count st) (a_order st))
      else Returns st
  end.

(** The [while open_heap] loop of [astar] with both of its exits: the
    [return] when the goal is popped and the one after the loop.
    [rfuel] is the fuel of the call of [reconstruct_path]. *)
Fixpoint astar_loop (fuel rfuel : nat) (adjacency : gmap Node (list Node))
    (positions : gmap Node (float * float)) (start goal : Node)
    (st : astar_state) : outcome SearchResult :=
  match fuel with
  | O => OutOfFuel
  | S fuel' =>
      match heappop (open_heap st) with
      | None =>
          Returns (mkResult [] 0 (a_count st) (Some (a_order st)))
      | Some ((_, current), heap') =>
          let count' := a_count st + 1 in
          let order' := a_order st ++ [current] in
          if decide (current = goal) then
            path ← reconstruct_path rfuel (a_came_from st) start goal;
            Returns (mkResult path (path_distance path) count'
                              (Some order'))
          else
            st' ← for_each (relax positions goal current)
                  (mkAstar heap' (a_came_from st) (g_score st) count' order')
                  (neighbors adjacency current);
            astar_loop fuel' rfuel adjacency positions start goal st'
      end
  end.

Definition astar_initial (start : Node) : astar_state :=
  mkAstar (heappush [] (0%float, start)) {[start := None]} {[start := 0%nat]}
          0 [].

Definition astar (fuel : nat) (adjacency : gmap Node (list Node))
    (positions : gmap Node (float * float)) (start goal : Node)
  : outcome SearchResult :=
  astar_loop fuel fuel adjacency positions start goal (astar_initial start).

End Algorithms.

(** ** [x ** 2] on the coordinates of the reference graphs *)

(** The arguments among the coordinate differences of the reference
    graphs at which the C library's [pow(x, 2.0)] is not the rounded
    product [x * x] (two differences of the hex ring), with its value. *)
Definition pow2_table : list (float * float) :=
  [ (0x1.8000000000003p+1, 0x1.2000000000004p+3);
    (-0x1.8000000000003p+1, 0x1.2000000000004p+3) ]%float.

(** [x ** 2] where the searches on the reference graphs and on the small
    graphs below evaluate it: the tabulated value, or the rounded product;
    [OverflowError] when the square of a finite number is not finite. *)
Definition float_pow2 (x : float) : option float :=
  match List.find (λ e, PrimFloat.Leibniz.eqb e.1 x) pow2_table with
  | Some e => Some e.2
  | None =>
      let y := PrimFloat.mul x x in
      if PrimFloat.is_finite x && PrimFloat.is_infinity y then None
      else Some y
  end.

(** ** The reference graphs of [graphs.py] *)

(** The nodes of the reference graphs: coordinate pairs [(r, c)], strings
    and integers. *)
Inductive node : Type :=
| Coord (r c : Z)
| Name (s : string)
| Num (i : Z).

#[export] Instance node_eq_dec : EqDecision node.
Proof. solve_decision. Defined.

#[export] Instance node_countable : Countable node.
Proof.
  refine (inj_countable'
    (λ n, match n with
          | Coord r c => inl (r, c)
          | Name s => inr (inl s)
          | Num i => inr (inr i)
          end)
    (λ x, match x with
          | inl (r, c) => Coord r c
          | inr (inl s) => Name s
          | inr (inr i) => Num i
          end) _).
  by intros [].
Defined.

(** Python's [<] on two nodes of the same kind: tuples and strings
    lexicographically, integers by value.  (Nodes of different kinds do
    not occur in one graph.) *)
Definition node_ltb (a b : node) : bool :=
  match a, b with
  | Coord r1 c1, Coord r2 c2 => if r1 =? r2 then c1 <? c2 else r1 <? r2
  | Name s1, Name s2 => String.ltb s1 s2
  | Num i, Num j => i <? j
  | _, _ => false
  end.

(** [float(z)] for an [int] of small magnitude. *)
Definition float_of_Z (z : Z) : float :=
  if z <? 0 then PrimFloat.opp (PrimFloat.of_uint63 (Uint63.of_Z (- z)))
  else PrimFloat.of_uint63 (Uint63.of_Z z).

Definition Position : Type := float * float.

(** [class Graph] *)
Record Graph : Type := mkGraph {
  adjacency : gmap node (list node);
  positions : gmap node Position
}.

(** [adj.setdefault(a, []).append(b)] *)
Definition append_neighbor (adj : gmap node (list node)) (a b : node)
  : gmap node (list node) :=
  <[a := default [] (adj !! a) ++ [b]]> adj.

Definition add_undirected_edge (adj : gmap node (list node)) (a b : node)
  : gmap node (list node) :=
  append_neighbor (append_neighbor adj a b) b a.

(** [list.remove(x)]: the first occurrence goes. *)
Fixpoint list_remove (x : node) (l : list node) : list node :=
  match l with
  | [] => []
  | y :: t => if decide (y = x) then t else y :: list_remove x t
  end.

(** [if a in adjacency and b in adjacency[a]: adjacency[a].remove(b)] *)
Definition remove_neighbor (adj : gmap node (list node)) (a b : node)
  : gmap node (list node) :=
  match adj !! a with
  | Some l => if decide (b ∈ l) then <[a := list_remove b l]> adj else adj
  | None => adj
  end.

Definition add_edges (adj : gmap node (list node)) (edges : list (node * node))
  : gmap node (list node) :=
  foldl (λ adj e, add_undirected_edge adj e.1 e.2) adj edges.

Definition urban_grid_6x6 : Graph :=
  let size := 6 in
  let cells := r ← seqZ 0 size; c ← seqZ 0 size; [(r, c)] in
  let positions : gmap node Position :=
    foldl (λ pos rc, <[Coord rc.1 rc.2 := (float_of_Z rc.2, float_of_Z rc.1)]> pos)
          ∅ cells in
  let adjacency : gmap node (list node) :=
    foldl (λ adj rc,
             let '(r, c) := rc in
             let adj := if r + 1 <? size
                        then add_undirected_edge adj (Coord r c) (Coord (r + 1) c)
                        else adj in
             if c + 1 <? size
             then add_undirected_edge adj (Coord r c) (Coord r (c + 1))
             else adj)
          ∅ cells in
  let blocked := [(Coord 1 1, Coord 1 2); (Coord 2 3, Coord 3 3)] in
  let adjacency :=
    foldl (λ adj ab, remove_neighbor (remove_neighbor adj ab.1 ab.2) ab.2 ab.1)
          adjacency blocked in
  let adjacency := add_edges adjacency [(Coord 0 0, Coord 2 2)] in
  mkGraph adjacency positions.

(** [f"L{i}"] for a digit [i]. *)
Definition digit (i : Z) : string :=
  String (Ascii.ascii_of_nat (48 + Z.to_nat i)) EmptyString.

Definition ladder_10 : Graph :=
  let step (acc : gmap node (list node) * gmap node Position) (i : Z) :=
    let '(adjacency, positions) := acc in
    let L := Name ("L" +:+ digit i) in
    let R := Name ("R" +:+ digit i) in
    let positions := <[L := (0%float, float_of_Z i)]> positions in
    let positions := <[R := (2%float, float_of_Z i)]> positions in
    let adjacency :=
      if 0 <? i then
        add_undirected_edge
          (add_undirected_edge adjacency (Name ("L" +:+ digit (i - 1))) L)
          (Name ("R" +:+ digit (i - 1))) R
      else adjacency in
    (add_undirected_edge adjacency L R, positions) in
  let acc := foldl step (∅, ∅) (seqZ 0 5) in
  mkGraph acc.1 acc.2.

Definition binary_tree_15 : Graph :=
  let step (acc : gmap node (list node) * gmap node Position) (i : Z) :=
    let '(adjacency, positions) := acc in
    let level := Z.log2 i in
    let index_in_level := i - Z.shiftl 1 level in
    let nodes_in_level := Z.shiftl 1 level in
    let x := PrimFloat.mul
               (PrimFloat.div (float_of_Z (index_in_level + 1))
                              (float_of_Z (nodes_in_level + 1)))
               10%float in
    let y := PrimFloat.mul (float_of_Z level) 2%float in
    let positions := <[Num i := (x, PrimFloat.opp y)]> positions in
    let left := 2 * i in
    let right := 2 * i + 1 in
    let adjacency := if left <=? 15
                     then add_undirected_edge adjacency (Num i) (Num left)
                     else adjacency in
    let adjacency := if right <=? 15
                     then add_undirected_edge adjacency (Num i) (Num right)
                     else adjacency in
    (adjacency, positions) in
  let acc := foldl step (∅, ∅) (seqZ 1 15) in
  mkGraph acc.1 acc.2.

(** [math.cos] and [math.sin] belong to the C library, not to the
    repository: their values at the angles [2 * math.pi * i / 6] and
    [2 * math.pi * (i + 0.5) / 6], [i = 0 .. 5], are tabulated here as
    binary64 numbers. *)
Definition outer_cos_sin : list (float * float) :=
  [ (0x1.0000000000000p+0, 0x0.0p+0);
    (0x1.0000000000001p-1, 0x1.bb67ae8584caap-1);
    (-0x1.ffffffffffffcp-2, 0x1.bb67ae8584cabp-1);
    (-0x1.0000000000000p+0, 0x1.1a62633145c07p-53);
    (-0x1.0000000000004p-1, -0x1.bb67ae8584ca8p-1);
    (0x1.0000000000001p-1, -0x1.bb67ae8584caap-1) ]%float.

Definition inner_cos_sin : list (float * float) :=
  [ (0x1.bb67ae8584cabp-1, 0x1.fffffffffffffp-2);
    (0x1.1a62633145c07p-54, 0x1.0000000000000p+0);
    (-0x1.bb67ae8584cabp-1, 0x1.fffffffffffffp-2);
    (-0x1.bb67ae8584cacp-1, -0x1.ffffffffffffbp-2);
    (-0x1.a79394c9e8a0ap-53, -0x1.0000000000000p+0);
    (0x1.bb67ae8584ca8p-1, -0x1.0000000000004p-1) ]%float.

Definition hex_ring_12 : Graph :=
  let outer := (λ i, Name ("O" +:+ digit i)) <$> seqZ 0 6 in
  let inner := (λ i, Name ("I" +:+ digit i)) <$> seqZ 0 6 in
  let at_ (names : list node) (i : Z) : node :=
    default (Name "") (names !! Z.to_nat i) in
  let place (radius : float) (positions : gmap node Position)
            (item : node * (float * float)) :=
    <[item.1 := (PrimFloat.mul item.2.1 radius, PrimFloat.mul item.2.2 radius)]>
      positions in
  let positions := foldl (place 6%float) ∅ (zip outer outer_cos_sin) in
  let positions := foldl (place 3.5%float) positions (zip inner inner_cos_sin) in
  let adjacency :=
    foldl (λ adj i,
             add_undirected_edge
               (add_undirected_edge adj (at_ outer i) (at_ outer ((i + 1) `mod` 6)))
               (at_ inner i) (at_ inner ((i + 1) `mod` 6)))
          ∅ (seqZ 0 6) in
  let adjacency :=
    foldl (λ adj i, add_undirected_edge adj (at_ outer i) (at_ inner i))
          adjacency (seqZ 0 6) in
  let adjacency :=
    foldl (λ adj i, add_undirected_edge adj (at_ outer i)
                                        (at_ inner ((i + 3) `mod` 6)))
          adjacency [0; 4] in
  mkGraph adjacency positions.

Definition campus_map : Graph :=
  let positions : gmap node Position :=
    list_to_map
      [ (Name "Gate", (-5, -1)); (Name "Parking", (-6, -3));
        (Name "Admin", (-2, 0)); (Name "Library", (0, 2.5));
        (Name "Cafeteria", (1, -1.5)); (Name "LabA", (3, 1.5));
        (Name "LabB", (4.5, -0.5)); (Name "Sports", (6, -2.5));
        (Name "Auditorium", (2, 3.5)); (Name "Hostel", (5.5, 2.5)) ]%float in
  let adjacency :=
    add_edges ∅
      [ (Name "Gate", Name "Admin"); (Name "Gate", Name "Parking");
        (Name "Admin", Name "Library"); (Name "Admin", Name "Cafeteria");
        (Name "Library", Name "Auditorium"); (Name "Library", Name "LabA");
        (Name "Cafeteria", Name "LabB"); (Name "LabA", Name "LabB");
        (Name "LabB", Name "Sports"); (Name "Auditorium", Name "Hostel");
        (Name "LabA", Name "Hostel") ] in
  mkGraph adjacency positions.

(** The dict literal of [get_all_graphs], in its order. *)
Definition get_all_graphs : list (string * Graph) :=
  [ ("UrbanGrid-6x6", urban_grid_6x6);
    ("Ladder-10", ladder_10);
    ("BinaryTree-15", binary_tree_15);
    ("HexRing-12", hex_ring_12);
    ("CampusMap", campus_map) ].

(** ** Small graphs *)

Module Examples.

(** The path graph A - B - C. *)
Definition path_graph : gmap node (list node) :=
  add_edges ∅ [(Name "A", Name "B"); (Name "B", Name "C")].

(** Two triangles with no edge between them. *)
Definition two_triangles : gmap node (list node) :=
  add_edges ∅
    [ (Name "A", Name "B"); (Name "B", Name "C"); (Name "C", Name "A");
      (Name "D", Name "E"); (Name "E", Name "F"); (Name "F", Name "D") ].

(** A directed graph in which node 4 is two edges from 0 through 3 and
    three edges through 1 and 2; node 5 has no edge. *)
Definition detour : gmap node (list node) :=
  list_to_map
    [ (Num 0, [Num 1; Num 3]); (Num 1, [Num 2]); (Num 2, [Num 4]);
      (Num 3, [Num 4]); (Num 4, []); (Num 5, []) ].

(** Node 3 lies far from the others. *)
Definition detour_positions : gmap node Position :=
  list_to_map
    [ (Num 0, (0, 0)); (Num 1, (0, 0)); (Num 2, (0, 0)); (Num 3, (10, 0));
      (Num 4, (0, 0)); (Num 5, (0, 0)) ]%float.

(** The same with the goal 5 behind node 4, through node 6. *)
Definition detour_through : gmap node (list node) :=
  list_to_map
    [ (Num 0, [Num 1; Num 3]); (Num 1, [Num 2]); (Num 2, [Num 4]);
      (Num 3, [Num 4]); (Num 4, [Num 6]); (Num 6, [Num 5]); (Num 5, []) ].

Definition detour_through_positions : gmap node Position :=
  list_to_map
    [ (Num 0, (0, 0)); (Num 1, (0, 0)); (Num 2, (0, 0)); (Num 3, (10, 0));
      (Num 4, (0, 0)); (Num 5, (0, 0)); (Num 6, (20, 0)) ]%float.

End Examples.

(** * Specification vocabulary *)

(** ** Paths of a graph, chains of the came-from map, loop invariants *)

Section Paths.

Context {Node : Type} `{Countable Node}.
Implicit Types (adjacency : gmap Node (list Node)) (p : list Node).

(** [v] is listed among the neighbours of [u]. *)
Definition edge adjacency (u v : Node) : Prop := v ∈ neighbors adjacency u.

(** Every consecutive pair of [p] is an edge. *)
Fixpoint linked adjacency p : Prop :=
  match p with
  | u :: (v :: _) as rest => edge adjacency u v ∧ linked adjacency rest
  | _ => True
  end.

(** [p] is a path of the graph from [s] to [g]. *)
Definition is_path adjacency (s g : Node) p : Prop :=
  head p = Some s ∧ last p = Some g ∧ linked adjacency p.

Definition reachable adjacency (s g : Node) : Prop :=
  ∃ p, is_path adjacency s g p.

(** The number of edges of a path. *)
Definition edges_of p : Z := Z.of_nat (length p) - 1.

(** The chain that [reconstruct_path] follows: from [current], each node
    to its entry in [came_from], down to an entry [None]. *)
Inductive back_chain (came_from : gmap Node (option Node))
  : option Node → list Node → Prop :=
| back_chain_end : back_chain came_from None []
| back_chain_step c next l :
    came_from !! c = Some next →
    back_chain came_from next l →
    back_chain came_from (Some c) (c :: l).

(** An outcome other than [OutOfFuel] is a behaviour of the program. *)
Definition settled {A : Type} (o : outcome A) : Prop := o ≠ OutOfFuel.

(** Every node listed as a neighbour of some key. *)
Definition targets adjacency : list Node :=
  map_to_list adjacency ≫= snd.

(** The nodes a search from [start] can meet. *)
Definition universe adjacency (start : Node) : gset Node :=
  list_to_set (start :: targets adjacency).

(** Enough fuel for the [while] loop of [bfs] and [dfs] on [adjacency]. *)
Definition loop_fuel adjacency : nat := S (S (length (targets adjacency))).

Implicit Types (cf : gmap Node (option Node)) (ord fr : list Node).

(** What holds of the came-from map [cf], the nodes popped so far [ord]
    and the frontier [fr] of [bfs] and [dfs], also in the middle of a
    [for] loop. *)
Record discovered adjacency (start : Node) cf ord fr : Prop := {
  d_start : cf !! start = Some None;
  d_root : ∀ v, cf !! v = Some None → v = start;
  d_edge : ∀ v u, cf !! v = Some (Some u) → edge adjacency u v;
  d_chain : ∀ v, is_Some (cf !! v) → ∃ l, back_chain cf (Some v) l;
  d_nodup : NoDup (ord ++ fr);
  d_dom : ∀ v, is_Some (cf !! v) ↔ v ∈ ord ++ fr
}.

(** The invariant of the [while] loop of [bfs] and [dfs], at its head. *)
Record search_inv adjacency (start goal : Node)
    (st : @search_state Node _ _) : Prop := {
  inv_discovered :
    discovered adjacency start (came_from st) (order st) (frontier st);
  inv_closed : ∀ u v, u ∈ order st → edge adjacency u v →
                      is_Some (came_from st !! v);
  inv_goal : goal ∉ order st;
  inv_count : count st = Z.of_nat (length (order st))
}.

(** The states at the head of the [while] loop of [bfs] and [dfs] that a
    search goes through from [st]. *)
Inductive search_reaches (push : Node → list Node → list Node) adjacency
    (goal : Node) (st : @search_state Node _ _)
  : @search_state Node _ _ → Prop :=
| reaches_here : search_reaches push adjacency goal st st
| reaches_step st1 st2 :
    search_reaches push adjacency goal st st1 →
    search_step push adjacency goal st1 = (Running, st2) →
    search_reaches push adjacency goal st st2.

(** The depth of [v] in the came-from forest: the number of links of its
    chain. *)
Definition level cf (v : Node) (k : nat) : Prop :=
  ∃ l, back_chain cf (Some v) l ∧ length l = S k.

(** The frontier of [bfs] holds nodes of depth [k] followed by nodes of
    depth [k + 1], and no popped node is deeper than [k]. *)
Record layered cf ord fr (k : nat) : Prop := {
  lay_front : ∃ A B, fr = A ++ B
                     ∧ (∀ a, a ∈ A → level cf a k)
                     ∧ (∀ b, b ∈ B → level cf b (S k));
  lay_order : ∀ u, u ∈ ord → ∃ j, level cf u j ∧ (j ≤ k)%nat
}.

(** An edge out of an expanded node goes down by one level at most. *)
Definition level_closed adjacency cf (expanded : list Node) : Prop :=
  ∀ u v j, u ∈ expanded → edge adjacency u v → level cf u j →
           ∃ i, level cf v i ∧ (i ≤ S j)%nat.

(** The invariant of the [while] loop of [bfs]. *)
Definition bfs_inv adjacency (start goal : Node)
    (st : @search_state Node _ _) : Prop :=
  search_inv adjacency start goal st
  ∧ (∃ k, layered (came_from st) (order st) (frontier st) k)
  ∧ level_closed adjacency (came_from st) (order st).

(** The sum of the g-scores. *)
Definition score_sum (g : gmap Node nat) : nat :=
  map_fold (λ _ x acc, (x + acc)%nat) 0%nat g.

(** The invariant of the [while] loop of [astar]; in the middle of the
    [for] loop [expanding] is the node that was popped. *)
Record astar_inv adjacency (start : Node) (expanding : option Node)
    (st : @astar_state Node _ _) : Prop := {
  ai_edge : ∀ v u, a_came_from st !! v = Some (Some u) → edge adjacency u v;
  ai_start : is_Some (g_score st !! start);
  ai_reach : ∀ v, is_Some (g_score st !! v) → reachable adjacency start v;
  ai_heap : ∀ e, e ∈ open_heap st → is_Some (g_score st !! e.2);
  ai_order : ∀ u, u ∈ a_order st → is_Some (g_score st !! u);
  ai_pending : ∀ u, is_Some (g_score st !! u) →
      Some u = expanding
      ∨ (∃ e, e ∈ open_heap st ∧ e.2 = u)
      ∨ (u ∈ a_order st
         ∧ ∀ v, edge adjacency u v → is_Some (g_score st !! v));
  ai_count : a_count st = Z.of_nat (length (a_order st))
}.

(** [st'] has more g-scores than [st], or as many with a smaller sum. *)
Definition improved (st' st : @astar_state Node _ _) : Prop :=
  (size (g_score st) < size (g_score st'))%nat
  ∨ (size (g_score st) = size (g_score st')
     ∧ (score_sum (g_score st') < score_sum (g_score st))%nat).

(** Uniform-cost search, which the spec says [astar] degrades to without
    positions: the search of [astar] with the frontier ordered by the
    accumulated cost [g] alone. *)
Definition ucs_relax (current : Node) (st : @astar_state Node _ _)
    (neighbor : Node) : outcome (@astar_state Node _ _) :=
  match g_score st !! current with
  | None => Raises KeyError
  | Some g_current =>
      let tentative_g := (g_current + 1)%nat in
      if improves (g_score st) neighbor tentative_g then
        Returns (mkAstar (heappush (open_heap st)
                                   (float_of_count tentative_g, neighbor))
                         (<[neighbor := Some current]> (a_came_from st))
                         (<[neighbor := tentative_g]> (g_score st))
                         (a_count st) (a_order st))
      else Returns st
  end.

Fixpoint ucs_loop (node_ltb : Node → Node → bool) (fuel rfuel : nat)
    adjacency (start goal : Node) (st : @astar_state Node _ _)
  : outcome (@SearchResult Node) :=
  match fuel with
  | O => OutOfFuel
  | S fuel' =>
      match heappop node_ltb (open_heap st) with
      | None => Returns (mkResult [] 0 (a_count st) (Some (a_order st)))
      | Some ((_, current), heap') =>
          let count' := a_count st + 1 in
          let order' := a_order st ++ [current] in
          if decide (current = goal) then
            path ← reconstruct_path rfuel (a_came_from st) start goal;
            Returns (mkResult path (path_distance path) count' (Some order'))
          else
            st' ← for_each (ucs_relax current)
                  (mkAstar heap' (a_came_from st) (g_score st) count' order')
                  (neighbors adjacency current);
            ucs_loop node_ltb fuel' rfuel adjacency start goal st'
      end
  end.

Definition uniform_cost_search (node_ltb : Node → Node → bool) (fuel : nat)
    adjacency (start goal : Node) : outcome (@SearchResult Node) :=
  ucs_loop node_ltb fuel fuel adjacency start goal (astar_initial start).

(** Over a whole search with the frontier discipline [push], no node is
    held twice by the popped nodes and the frontier, and an iteration
    drops none of them: a node enters the frontier at most once. *)
Definition discovers_once (push : Node → list Node → list Node) adjacency
    (start goal : Node) : Prop :=
  ∀ st, search_reaches push adjacency goal (initial_state start) st →
    NoDup (order st ++ frontier st)
    ∧ ∀ st', search_step push adjacency goal st = (Running, st') →
             order st ++ frontier st ⊆+ order st' ++ frontier st'.

End Paths.

(** ** Checks on the reference graphs *)

(** The Euclidean heuristic towards the goal [g] is consistent with the
    unit edge costs of [G]: [h(u) <= 1.0 + h(v)] along every edge from
    [u] to [v], with [h(n) = euclidean(positions[n], positions[g])]. *)
Definition consistent_towards (G : Graph) (g : node) : bool :=
  forallb
    (λ entry : node * list node,
       forallb
         (λ v, match heuristic float_pow2 (positions G) entry.1 g,
                     heuristic float_pow2 (positions G) v g with
               | Returns hu, Returns hv =>
                   PrimFloat.leb hu (PrimFloat.add 1%float hv)
               | _, _ => false
               end)
         entry.2)
    (map_to_list (adjacency G)).

(** The goals of [G] towards which the heuristic is consistent. *)
Definition consistent_goals (G : Graph) : list node :=
  List.filter (consistent_towards G) (map_to_list (adjacency G)).*1.

(** The fuel at which the searches on the reference graphs are run. *)
Definition reference_fuel : nat := 80.

(** On [G], from [s] to [g]: [astar] and [bfs] return, with the same
    distance. *)
Definition agree_on (G : Graph) (s g : node) : bool :=
  match astar float_pow2 node_ltb reference_fuel (adjacency G) (positions G)
              s g,
        bfs reference_fuel (adjacency G) s g with
  | Returns ra, Returns rb => distance ra =? distance rb
  | _, _ => false
  end.

(** [astar] and [bfs] agree from every start towards every goal of [G]
    that has a consistent heuristic. *)
Definition agree_where_consistent (entry : string * Graph) : bool :=
  let keys := (map_to_list (adjacency entry.2)).*1 in
  forallb (λ g, forallb (λ s, agree_on entry.2 s g) keys)
          (consistent_goals entry.2).

(** ** The Euclidean distance on integer coordinates *)

(** The integers from [- bound] to [bound]. *)
Definition integers_upto (bound : Z) : list Z :=
  seqZ (- bound) (2 * bound + 1).

(** [** 2] is exact on the integers up to [bound] in absolute value: the
    square of such an integer is a binary64 number, and [pow] returns
    it. *)
Definition exact_on_integers (pow2 : float → option float) (bound : Z)
  : Prop :=
  ∀ k, - bound ≤ k ≤ bound → pow2 (float_of_Z k) = Some (float_of_Z (k * k)).

Definition square_exact (pow2 : float → option float) (k : Z) : bool :=
  match pow2 (float_of_Z k) with
  | Some y => PrimFloat.Leibniz.eqb y (float_of_Z (k * k))
  | None => false
  end.

Definition exact_on_integers_check (pow2 : float → option float)
    (bound : Z) : bool :=
  forallb (square_exact pow2) (integers_upto bound).

(** The difference of the floats of two integers is the float of their
    difference. *)
Definition difference_exact (a b : Z) : bool :=
  PrimFloat.Leibniz.eqb (PrimFloat.sub (float_of_Z a) (float_of_Z b))
                        (float_of_Z (a - b)).

Definition integer_differences_check (bound : Z) : bool :=
  forallb (λ a, forallb (difference_exact a) (integers_upto bound))
          (integers_upto bound).

(** For integers [dx] and [dy], the square root of the sum of their
    squares lies between the integer square roots (rounded down and up)
    of [dx * dx + dy * dy], and is the root where that is a square. *)
Definition distance_bracketed (dx dy : Z) : bool :=
  let d2 := dx * dx + dy * dy in
  let s := PrimFloat.add (float_of_Z (dx * dx)) (float_of_Z (dy * dy)) in
  let h := PrimFloat.sqrt s in
  negb (PrimFloat.ltb s 0%float)
  && PrimFloat.leb (float_of_Z (Z.sqrt d2)) h
  && PrimFloat.leb h (float_of_Z (Z.sqrt_up d2))
  && (if Z.sqrt d2 * Z.sqrt d2 =? d2
      then PrimFloat.Leibniz.eqb h (float_of_Z (Z.sqrt d2))
      else true).

Definition integer_distance_check (bound : Z) : bool :=
  forallb (λ dx, forallb (distance_bracketed dx) (integers_upto bound))
          (integers_upto bound).

(** ** Further invariants of the searches *)

Section MoreVocabulary.

Context {Node : Type} `{Countable Node}.

(** Every predecessor recorded in [cf] is among the popped nodes [ord]. *)
Definition parents_popped (cf : gmap Node (option Node)) (ord : list Node)
  : Prop :=
  ∀ v u, cf !! v = Some (Some u) → u ∈ ord.

(** The came-from map of [astar] is a tree rooted at [start] along which
    the g-scores go down; [goal] has not been popped. *)
Record astar_tree (start goal : Node) (st : @astar_state Node _ _)
  : Prop := {
  at_start_cf : a_came_from st !! start = Some None;
  at_start_g : g_score st !! start = Some 0%nat;
  at_root : ∀ v, a_came_from st !! v = Some None → v = start;
  at_dom : ∀ v, is_Some (a_came_from st !! v) ↔ is_Some (g_score st !! v);
  at_down : ∀ v u, a_came_from st !! v = Some (Some u) →
                   ∃ gv gu, g_score st !! v = Some gv
                            ∧ g_score st !! u = Some gu ∧ (gu < gv)%nat;
  at_parents : parents_popped (a_came_from st) (a_order st);
  at_goal : goal ∉ a_order st
}.

(** The nodes of [ord] come in the order of their depth in the came-from
    forest [cf]. *)
Definition by_level (cf : gmap Node (option Node)) (ord : list Node) : Prop :=
  ∀ i j u v a b,
    (i ≤ j)%nat → ord !! i = Some u → ord !! j = Some v →
    level cf u a → level cf v b → (a ≤ b)%nat.

(** Python's [<] orders the nodes that [P] holds of totally: it is
    defined on every two of them (no [TypeError]) and is a strict total
    order. *)
Definition orders_totally (ltb : Node → Node → bool) (P : Node → Prop)
  : Prop :=
  (∀ a, P a → ltb a a = false)
  ∧ (∀ a b c, P a → P b → P c →
       ltb a b = true → ltb b c = true → ltb a c = true)
  ∧ (∀ a b, P a → P b → a ≠ b → ltb a b = true ∨ ltb b a = true).

(** Towards [goal], the heuristic of every node that [P] holds of is a
    number: [euclidean] returns (no [OverflowError]) and its value is not a
    NaN. *)
Definition heuristic_defined (pow2 : float → option float)
    (positions : gmap Node (float * float)) (goal : Node) (P : Node → Prop)
  : Prop :=
  ∀ u, P u → ∃ h, heuristic pow2 positions u goal = Returns h
                  ∧ PrimFloat.eqb h h = true.

(** The conditions under which the heap of [astar] is ordered as [heapq]
    orders it, on the nodes within reach of [start]. *)
Definition heap_ordered (pow2 : float → option float)
    (node_ltb : Node → Node → bool) (adjacency : gmap Node (list Node))
    (positions : gmap Node (float * float)) (start goal : Node) : Prop :=
  orders_totally node_ltb (reachable adjacency start)
  ∧ heuristic_defined pow2 positions goal (reachable adjacency start).

(** [inside] holds every neighbour of its nodes. *)
Definition closed_under (adjacency : gmap Node (list Node))
    (inside : list Node) : bool :=
  forallb (λ u, forallb (λ v, bool_decide (v ∈ inside))
                        (neighbors adjacency u)) inside.

(** [orders_totally] and [heuristic_defined] on the nodes of a list. *)
Definition heap_ordered_on (pow2 : float → option float)
    (ltb : Node → Node → bool) (positions : gmap Node (float * float))
    (goal : Node) (inside : list Node) : bool :=
  forallb (λ a, negb (ltb a a)) inside
  && forallb (λ a, forallb (λ b, forallb
                (λ c, implb (ltb a b && ltb b c) (ltb a c)) inside)
              inside) inside
  && forallb (λ a, forallb (λ b, bool_decide (a = b) || ltb a b || ltb b a)
                           inside) inside
  && forallb (λ u, match heuristic pow2 positions u goal with
                   | Returns h => PrimFloat.eqb h h
                   | _ => false
                   end) inside.

(** Two models of [** 2] agree where the heuristic towards [goal]
    evaluates it: at the coordinate differences between a position and
    the position of [goal]. *)
Definition agree_on_differences (pow2 pow2' : float → option float)
    (positions : gmap Node (float * float)) (goal : Node) : Prop :=
  ∀ u pu pg, positions !! u = Some pu → positions !! goal = Some pg →
    pow2 (PrimFloat.sub pu.1 pg.1) = pow2' (PrimFloat.sub pu.1 pg.1)
    ∧ pow2 (PrimFloat.sub pu.2 pg.2) = pow2' (PrimFloat.sub pu.2 pg.2).

Definition same_square (pow2 pow2' : float → option float) (x : float)
  : bool :=
  match pow2 x, pow2' x with
  | Some a, Some b => PrimFloat.Leibniz.eqb a b
  | None, None => true
  | _, _ => false
  end.

Definition agree_on_differences_check (pow2 pow2' : float → option float)
    (positions : gmap Node (float * float)) (goal : Node) : bool :=
  match positions !! goal with
  | None => true
  | Some pg =>
      forallb (λ e : Node * (float * float),
                 same_square pow2 pow2' (PrimFloat.sub e.2.1 pg.1)
                 && same_square pow2 pow2' (PrimFloat.sub e.2.2 pg.2))
              (map_to_list positions)
  end.

(** Nothing has been popped and [start] alone is waiting, or [start] was
    popped first. *)
Definition starts_at {A : Type} (start : Node) (ord : list Node)
    (waiting only_start : list A) : Prop :=
  (ord = [] ∧ waiting = only_start) ∨ head ord = Some start.

End MoreVocabulary.

(** ** The shape of a graph *)

(** Every edge is listed in both directions. *)
Definition undirected (adj : gmap node (list node)) : Prop :=
  ∀ u v, v ∈ neighbors adj u → u ∈ neighbors adj v.

(** [G] is undirected, its neighbours are keys, no node is its own
    neighbour or is listed twice under a key, and the nodes that have a
    position are the keys. *)
Definition graph_well_formed (G : Graph) : Prop :=
  undirected (adjacency G)
  ∧ (∀ u v, v ∈ neighbors (adjacency G) u → v ∈ dom (adjacency G))
  ∧ (∀ u, u ∉ neighbors (adjacency G) u)
  ∧ (∀ u, NoDup (neighbors (adjacency G) u))
  ∧ dom (positions G) = dom (adjacency G).

Definition graph_well_formed_check (G : Graph) : bool :=
  forallb
    (λ entry : node * list node,
       forallb (λ v, bool_decide (entry.1 ∈ neighbors (adjacency G) v)
                     && bool_decide (v ∈ dom (adjacency G))
                     && bool_decide (v ≠ entry.1))
               entry.2
       && bool_decide (NoDup entry.2))
    (map_to_list (adjacency G))
  && bool_decide (dom (positions G) = dom (adjacency G)).

(** The number of nodes that the names of the reference graphs announce. *)
Definition announced_sizes : list (string * nat) :=
  [ ("UrbanGrid-6x6", 36%nat); ("Ladder-10", 10%nat);
    ("BinaryTree-15", 15%nat); ("HexRing-12", 12%nat);
    ("CampusMap", 10%nat) ].

(** From [s] to [g] on [G], each of [bfs], [dfs] and [astar] returns a
    path that is not empty. *)
Definition all_find_path (G : Graph) (s g : node) : bool :=
  match bfs reference_fuel (adjacency G) s g,
        dfs reference_fuel (adjacency G) s g,
        astar float_pow2 node_ltb reference_fuel (adjacency G) (positions G)
              s g with
  | Returns rb, Returns rd, Returns ra =>
      negb (bool_decide (path rb = [])) && negb (bool_decide (path rd = []))
      && negb (bool_decide (path ra = []))
  | _, _, _ => false
  end.

Definition all_find_path_everywhere (entry : string * Graph) : bool :=
  let keys := (map_to_list (adjacency entry.2)).*1 in
  forallb (λ s, forallb (all_find_path entry.2 s) keys) keys.

(** * Verification *)

(** ** Paths *)

Section PathFacts.

Context {Node : Type} `{Countable Node}.
Implicit Types (adjacency : gmap Node (list Node)) (p : list Node).

Lemma linked_snoc adjacency p u v :
  linked adjacency (p ++ [u]) → edge adjacency u v →
  linked adjacency ((p ++ [u]) ++ [v]).
Proof.
  induction p as [|a [|b p] IH]; simpl.
  - intros _ He. done.
  - intros [Hab _] He. done.
  - intros [Hab Hrest] He. split; [done|]. apply IH; done.
Qed.

Lemma is_path_snoc adjacency s u v p :
  is_path adjacency s u p → edge adjacency u v →
  is_path adjacency s v (p ++ [v]).
Proof.
  intros (Hh & Hl & Hp) He.
  destruct (last_Some p u) as [[q ->] _]; [done|].
  unfold is_path. rewrite last_snoc.
  split_and!; [|done|by apply linked_snoc].
  destruct q; simpl in *; done.
Qed.

Lemma is_path_single adjacency s : is_path adjacency s s [s].
Proof. done. Qed.

Lemma reachable_refl adjacency s : reachable adjacency s s.
Proof. exists [s]. apply is_path_single. Qed.

Lemma reachable_step adjacency s u v :
  reachable adjacency s u → edge adjacency u v → reachable adjacency s v.
Proof. intros [p Hp] He. exists (p ++ [v]). by eapply is_path_snoc. Qed.

(** A set that holds [s] and is closed under edges holds every node
    reachable from [s]. *)
Lemma closed_reachable adjacency (P : Node → Prop) s :
  P s → (∀ u v, P u → edge adjacency u v → P v) →
  ∀ g, reachable adjacency s g → P g.
Proof.
  intros Hs Hclosed g [p (Hh & Hl & Hp)].
  revert s Hs Hh Hp. induction p as [|a p IH]; intros s Hs Hh Hp; [done|].
  simpl in Hh. simplify_eq. destruct p as [|b p].
  - simpl in Hl. by simplify_eq.
  - destruct Hp as [Hab Hp]. apply (IH Hl b); [by eapply Hclosed|done|done].
Qed.

End PathFacts.

(** ** Outcomes and fuel *)

Lemma settled_returns {A : Type} (a : A) : settled (Returns a).
Proof. done. Qed.

Lemma settled_raises {A : Type} (e : exn) : settled (@Raises A e).
Proof. done. Qed.

#[local] Hint Resolve settled_returns settled_raises : core.

(** ** reconstruct_path *)

Section ReconstructFacts.

Context {Node : Type} `{Countable Node}.
Implicit Types (came_from : gmap Node (option Node)) (l acc : list Node).

Lemma back_chain_det came_from cur l1 l2 :
  back_chain came_from cur l1 → back_chain came_from cur l2 → l1 = l2.
Proof.
  intros H1. revert l2. induction H1 as [|c next l Hc _ IH]; intros l2 H2.
  - by inversion H2.
  - inversion H2 as [|c' next' l' Hc' Hl']; simplify_eq. f_equal. by apply IH.
Qed.

(** With enough fuel the loop returns the chain, appended to what was
    collected before. *)
Lemma walk_back_chain fuel came_from cur l acc :
  back_chain came_from cur l → (length l ≤ fuel)%nat →
  walk_back fuel came_from cur acc = Returns (acc ++ l).
Proof.
  intros Hl. revert fuel acc.
  induction Hl as [|c next l Hc _ IH]; intros fuel acc Hfuel.
  - destruct fuel; simpl; by rewrite app_nil_r.
  - destruct fuel as [|fuel]; simpl in *; [lia|].
    rewrite Hc, IH by lia. by rewrite <- app_assoc.
Qed.

(** What the loop returns is a chain. *)
Lemma walk_back_returns fuel came_from cur acc p :
  walk_back fuel came_from cur acc = Returns p →
  ∃ l, back_chain came_from cur l ∧ p = acc ++ l.
Proof.
  revert cur acc. induction fuel as [|fuel IH]; intros [c|] acc Hw;
    simpl in Hw; simplify_eq.
  - exists []. split; [constructor|by rewrite app_nil_r].
  - destruct (came_from !! c) as [next|] eqn:Hc; [|done].
    destruct (IH _ _ Hw) as (l & Hl & ->).
    exists (c :: l). split; [by econstructor|by rewrite <- app_assoc].
  - exists []. split; [constructor|by rewrite app_nil_r].
Qed.

Lemma walk_back_mono fuel fuel' came_from cur acc :
  settled (walk_back fuel came_from cur acc) → (fuel ≤ fuel')%nat →
  walk_back fuel' came_from cur acc = walk_back fuel came_from cur acc.
Proof.
  revert fuel' cur acc. induction fuel as [|fuel IH];
    intros fuel' [c|] acc Hs Hle; simpl in *; try done.
  - by destruct fuel'.
  - destruct fuel' as [|fuel']; [lia|]. simpl.
    destruct (came_from !! c); [|done]. apply IH; [done|lia].
  - by destruct fuel'.
Qed.

Lemma reconstruct_path_mono fuel fuel' came_from start goal :
  settled (reconstruct_path fuel came_from start goal) → (fuel ≤ fuel')%nat →
  reconstruct_path fuel' came_from start goal
  = reconstruct_path fuel came_from start goal.
Proof.
  unfold reconstruct_path. intros Hs Hle.
  rewrite (walk_back_mono fuel fuel'); [done| |done].
  by destruct (walk_back fuel came_from (Some goal) []).
Qed.

(** The chain from [goal] exists: the call returns it reversed when it
    ends at [start], and the empty list otherwise. *)
Lemma reconstruct_path_chain fuel came_from start goal l :
  back_chain came_from (Some goal) l → (length l ≤ fuel)%nat →
  reconstruct_path fuel came_from start goal
  = Returns (if decide (last l = Some start) then reverse l else []).
Proof.
  intros Hl Hfuel. unfold reconstruct_path.
  rewrite (walk_back_chain _ _ _ l) by done. simpl.
  destruct (reverse l) as [|first rest] eqn:Hrev.
  - apply (f_equal reverse) in Hrev. rewrite reverse_involutive in Hrev.
    subst l. by inversion Hl.
  - assert (last l = Some first) as ->.
    { rewrite <- (reverse_involutive l), Hrev, reverse_cons.
      apply last_snoc. }
    repeat case_decide; naive_solver.
Qed.

(** [goal] has no entry: [came_from[current]] raises in the first
    iteration. *)
Lemma reconstruct_path_missing fuel came_from start goal :
  came_from !! goal = None → (0 < fuel)%nat →
  reconstruct_path fuel came_from start goal = Raises KeyError.
Proof.
  intros Hg Hfuel. unfold reconstruct_path.
  destruct fuel as [|fuel]; [lia|]. simpl. by rewrite Hg.
Qed.

(** A returned path that is not empty starts at [start], ends at [goal]
    and is the reversed chain. *)
Lemma reconstruct_path_returns fuel came_from start goal p :
  reconstruct_path fuel came_from start goal = Returns p → p ≠ [] →
  ∃ l, back_chain came_from (Some goal) l ∧ p = reverse l
       ∧ head p = Some start ∧ last p = Some goal.
Proof.
  unfold reconstruct_path. intros Hr Hp.
  destruct (walk_back fuel came_from (Some goal) []) as [q| |] eqn:Hw;
    [|done..].
  apply walk_back_returns in Hw as (l & Hl & ->). simpl in Hr.
  destruct (reverse l) as [|first rest] eqn:Hrev; [by simplify_eq|].
  case_decide; simplify_eq; try done.
  exists l. split_and!; try done.
  inversion Hl; simplify_eq. rewrite <- Hrev, reverse_cons. apply last_snoc.
Qed.

(** The came-from map of a search that has only seen [start]. *)
Lemma reconstruct_path_single fuel (start : Node) :
  (0 < fuel)%nat →
  reconstruct_path fuel {[start := None]} start start = Returns [start].
Proof.
  intros Hfuel. rewrite (reconstruct_path_chain _ _ _ _ [start]).
  - by rewrite decide_True.
  - econstructor; [apply lookup_singleton_eq|constructor].
  - simpl. lia.
Qed.

End ReconstructFacts.

(** ** The came-from map as a forest *)

Section ChainFacts.

Context {Node : Type} `{Countable Node}.
Implicit Types (came_from : gmap Node (option Node)) (l : list Node).

(** Assigning a node that had no entry leaves every chain as it was. *)
Lemma back_chain_insert_fresh came_from nb x cur l :
  came_from !! nb = None → back_chain came_from cur l →
  back_chain (<[nb := x]> came_from) cur l.
Proof.
  intros Hnb. induction 1 as [|c next l Hc _ IH]; [constructor|].
  econstructor; [|done]. rewrite lookup_insert_ne; [done|]. congruence.
Qed.

(** A chain ends at a node whose entry is [None]. *)
Lemma back_chain_last came_from v l :
  back_chain came_from (Some v) l →
  ∃ r, last l = Some r ∧ came_from !! r = Some None.
Proof.
  remember (Some v) as cur eqn:Hcur. intros Hl. revert v Hcur.
  induction Hl as [|c next l Hc Hl IH]; intros v Hcur; [done|].
  destruct next as [u|].
  - destruct (IH u eq_refl) as (r & Hr & Hroot). exists r. split; [|done].
    inversion Hl; simplify_eq. done.
  - inversion Hl; simplify_eq. by eexists.
Qed.

Lemma back_chain_head came_from v l :
  back_chain came_from (Some v) l → head l = Some v.
Proof. by inversion 1. Qed.

(** Reversed, a chain whose links are edges is a path of the graph. *)
Lemma back_chain_linked adjacency came_from v l :
  (∀ a b, came_from !! a = Some (Some b) → edge adjacency b a) →
  back_chain came_from (Some v) l → linked adjacency (reverse l).
Proof.
  intros Hedge. remember (Some v) as cur eqn:Hcur. intros Hl. revert v Hcur.
  induction Hl as [|c next l Hc Hl IH]; intros v Hcur; [done|].
  rewrite reverse_cons. destruct next as [u|].
  - specialize (IH u eq_refl). inversion Hl as [|? ? l' ? ?]; simplify_eq.
    rewrite reverse_cons in *. apply linked_snoc; [done|]. by apply Hedge.
  - inversion Hl; simplify_eq. done.
Qed.

Lemma back_chain_path adjacency came_from start v l :
  (∀ a b, came_from !! a = Some (Some b) → edge adjacency b a) →
  (∀ a, came_from !! a = Some None → a = start) →
  back_chain came_from (Some v) l →
  is_path adjacency start v (reverse l).
Proof.
  intros Hedge Hroot Hl. split_and!.
  - destruct (back_chain_last _ _ _ Hl) as (r & Hr & Hr').
    apply Hroot in Hr' as ->.
    destruct (last_Some l start) as [[q ->] _]; [done|].
    by rewrite reverse_snoc.
  - inversion Hl; simplify_eq. rewrite reverse_cons. apply last_snoc.
  - by eapply back_chain_linked.
Qed.

End ChainFacts.

(** ** The loop shared by bfs and dfs *)

Section FrontierFacts.

Context {Node : Type} `{Countable Node}.

(** The frontier discipline: [push n q] holds [n] and what [q] held. *)
Variable push : Node → list Node → list Node.
Hypothesis push_perm : ∀ n q, push n q ≡ₚ n :: q.

Variable adjacency : gmap Node (list Node).
Variables start goal : Node.

Implicit Types (cf : gmap Node (option Node)) (ord fr ns : list Node).
Implicit Types (st : @search_state Node _ _).

Local Abbreviation discovered := (discovered adjacency start).
Local Abbreviation search_inv := (search_inv adjacency start goal).

Lemma discover_fresh cur cf fr nb :
  cf !! nb = None →
  discover push cur (cf, fr) nb = (<[nb := Some cur]> cf, push nb fr).
Proof. unfold discover. simpl. by intros ->. Qed.

Lemma discover_known cur cf fr nb :
  is_Some (cf !! nb) → discover push cur (cf, fr) nb = (cf, fr).
Proof. unfold discover. simpl. by intros [x ->]. Qed.

Lemma push_middle ord fr nb : ord ++ push nb fr ≡ₚ nb :: (ord ++ fr).
Proof. rewrite push_perm. symmetry. apply Permutation_middle. Qed.

Lemma discovered_fresh cur cf ord fr nb :
  discovered cf ord fr → cur ∈ ord → edge adjacency cur nb →
  cf !! nb = None →
  discovered (<[nb := Some cur]> cf) ord (push nb fr).
Proof.
  intros [Hs Hr He Hc Hn Hd] Hcur Hedge Hnb.
  assert (nb ∉ ord ++ fr) as Hnotin.
  { rewrite <- Hd, Hnb. by intros [? ?]. }
  split.
  - rewrite lookup_insert_ne; [done|]. congruence.
  - intros v. destruct (decide (nb = v)) as [->|Hne].
    + by rewrite lookup_insert_eq.
    + rewrite lookup_insert_ne by done. apply Hr.
  - intros v u. destruct (decide (nb = v)) as [->|Hne].
    + rewrite lookup_insert_eq. by intros [= <-].
    + rewrite lookup_insert_ne by done. apply He.
  - intros v Hv. destruct (decide (nb = v)) as [->|Hne].
    + destruct (Hc cur) as [l Hl].
      { apply Hd. apply elem_of_app. by left. }
      exists (v :: l). econstructor; [apply lookup_insert_eq|].
      by apply back_chain_insert_fresh.
    + rewrite lookup_insert_ne in Hv by done. destruct (Hc v Hv) as [l Hl].
      exists l. by apply back_chain_insert_fresh.
  - rewrite push_middle. by apply NoDup_cons.
  - intros v. rewrite push_middle, elem_of_cons, <- Hd.
    destruct (decide (nb = v)) as [->|Hne].
    + rewrite lookup_insert_eq. naive_solver.
    + rewrite lookup_insert_ne by done. naive_solver.
Qed.

(** The whole [for] loop over the neighbours of [cur]. *)
Lemma discover_all cur ord ns cf fr :
  discovered cf ord fr → cur ∈ ord → (∀ v, v ∈ ns → edge adjacency cur v) →
  let acc := foldl (discover push cur) (cf, fr) ns in
  discovered acc.1 ord acc.2
  ∧ (∀ v, is_Some (cf !! v) → is_Some (acc.1 !! v))
  ∧ (∀ v, v ∈ ns → is_Some (acc.1 !! v)).
Proof.
  intros Hdisc Hcur. revert cf fr Hdisc.
  induction ns as [|nb ns IH]; intros cf fr Hdisc Hns; simpl.
  - split_and!; [done|done|]. intros v Hv. by apply elem_of_nil in Hv.
  - destruct (cf !! nb) as [x|] eqn:Hnb.
    + rewrite discover_known by (by rewrite Hnb).
      destruct (IH cf fr Hdisc) as (H1 & H2 & H3).
      { intros v Hv. apply Hns. by right. }
      split_and!; [done|done|]. intros v [->|Hv]%elem_of_cons; [|by apply H3].
      apply H2. by rewrite Hnb.
    + rewrite discover_fresh by done.
      destruct (IH (<[nb := Some cur]> cf) (push nb fr)) as (H1 & H2 & H3).
      { apply discovered_fresh; [done|done| |done]. apply Hns. by left. }
      { intros v Hv. apply Hns. by right. }
      split_and!; [done| |].
      * intros v Hv. apply H2. destruct (decide (nb = v)) as [->|Hne].
        -- by rewrite lookup_insert_eq.
        -- by rewrite lookup_insert_ne.
      * intros v [->|Hv]%elem_of_cons; [|by apply H3].
        apply H2. by rewrite lookup_insert_eq.
Qed.

(** Popping [cur] moves it from the frontier to the popped nodes. *)
Lemma discovered_pop cf ord cur rest :
  discovered cf ord (cur :: rest) → discovered cf (ord ++ [cur]) rest.
Proof.
  intros [Hs Hr He Hc Hn Hd]. split; try done.
  - by rewrite <- app_assoc.
  - intros v. rewrite <- app_assoc. apply Hd.
Qed.

Lemma search_inv_initial : search_inv (initial_state start).
Proof.
  split; simpl.
  - split; simpl.
    + apply lookup_singleton_eq.
    + intros v Hv. apply lookup_singleton_Some in Hv. naive_solver.
    + intros v u Hv. apply lookup_singleton_Some in Hv. naive_solver.
    + intros v [x Hv]. apply lookup_singleton_Some in Hv as [<- <-].
      exists [start]. econstructor; [apply lookup_singleton_eq|constructor].
    + apply NoDup_singleton.
    + intros v. rewrite list_elem_of_singleton. split.
      * intros [x Hv]. apply lookup_singleton_Some in Hv. naive_solver.
      * intros ->. rewrite lookup_singleton_eq. by eexists.
  - intros u v Hu. by apply elem_of_nil in Hu.
  - apply not_elem_of_nil.
  - done.
Qed.

(** The two ways out of the loop. *)
Lemma search_step_finished st st' :
  search_step push adjacency goal st = (Finished, st') →
  (frontier st = [] ∧ st' = st)
  ∨ (∃ rest, frontier st = goal :: rest
             ∧ st' = mkState rest (came_from st) (count st + 1)
                             (order st ++ [goal])).
Proof.
  unfold search_step. destruct (frontier st) as [|cur rest].
  - intros [= <-]. by left.
  - case_decide; [|done]. intros [= <-]. subst cur. right. by eexists.
Qed.

Lemma search_step_running st st' :
  search_step push adjacency goal st = (Running, st') →
  ∃ cur rest, frontier st = cur :: rest ∧ cur ≠ goal
    ∧ st' = let acc := foldl (discover push cur) (came_from st, rest)
                             (neighbors adjacency cur) in
            mkState acc.2 acc.1 (count st + 1) (order st ++ [cur]).
Proof.
  unfold search_step. destruct (frontier st) as [|cur rest]; [done|].
  case_decide; [done|]. intros [= <-]. by exists cur, rest.
Qed.

(** An iteration that does not leave the loop keeps the invariant. *)
Lemma search_step_inv st st' :
  search_inv st → search_step push adjacency goal st = (Running, st') →
  search_inv st'.
Proof.
  intros [Hdisc Hclosed Hgoal Hcount] Hstep.
  apply search_step_running in Hstep as (cur & rest & Hfr & Hne & ->).
  rewrite Hfr in Hdisc. apply discovered_pop in Hdisc.
  assert (cur ∈ order st ++ [cur]) as Hcur.
  { apply elem_of_app. right. by left. }
  destruct (discover_all cur _ (neighbors adjacency cur) _ _ Hdisc Hcur)
    as (H1 & H2 & H3); [done|].
  split; simpl.
  - done.
  - intros u v [Hu|Hu%list_elem_of_singleton]%elem_of_app Huv.
    + apply H2. by eapply Hclosed.
    + subst u. by apply H3.
  - intros [Hg|Hg%list_elem_of_singleton]%elem_of_app; done.
  - rewrite length_app. simpl. lia.
Qed.

(** What the loop returns was reached from a state that satisfies the
    invariant, by an iteration that leaves the loop. *)
Lemma search_loop_post fuel st st' :
  search_inv st → search_loop push fuel adjacency goal st = Some st' →
  ∃ st0, search_inv st0
         ∧ search_step push adjacency goal st0 = (Finished, st').
Proof.
  revert st. induction fuel as [|fuel IH]; intros st Hinv Hloop; [done|].
  simpl in Hloop.
  destruct (search_step push adjacency goal st) as [[] st1] eqn:Hstep.
  - apply (IH st1); [by eapply search_step_inv|done].
  - simplify_eq. by exists st.
Qed.

(** The same for any property that the iterations keep. *)
Lemma search_loop_post_gen (I : @search_state Node _ _ → Prop) fuel st st' :
  (∀ st1 st2, I st1 → search_step push adjacency goal st1 = (Running, st2) →
              I st2) →
  I st → search_loop push fuel adjacency goal st = Some st' →
  ∃ st0, I st0 ∧ search_step push adjacency goal st0 = (Finished, st').
Proof.
  intros Hkeep. revert st. induction fuel as [|fuel IH]; intros st Hinv Hloop;
    [done|].
  simpl in Hloop.
  destruct (search_step push adjacency goal st) as [[] st1] eqn:Hstep.
  - apply (IH st1); [by eapply Hkeep|done].
  - simplify_eq. by exists st.
Qed.

Lemma search_loop_mono fuel fuel' st st' :
  search_loop push fuel adjacency goal st = Some st' → (fuel ≤ fuel')%nat →
  search_loop push fuel' adjacency goal st = Some st'.
Proof.
  revert fuel' st. induction fuel as [|fuel IH]; intros fuel' st Hl Hle;
    [done|].
  destruct fuel' as [|fuel']; [lia|]. simpl in *.
  destruct (search_step push adjacency goal st) as [[] st1]; [|done].
  apply IH; [done|lia].
Qed.

(** *** Termination *)

Lemma edge_targets u v : edge adjacency u v → v ∈ targets adjacency.
Proof.
  unfold edge, neighbors, targets.
  destruct (adjacency !! u) as [l|] eqn:Hu; simpl.
  - intros Hv. apply list_elem_of_bind. exists (u, l).
    split; [done|]. by apply elem_of_map_to_list.
  - by intros ?%elem_of_nil.
Qed.

(** The popped nodes and the frontier are distinct nodes among [start] and
    the targets of the edges. *)
Lemma discovered_bound cf ord fr :
  discovered cf ord fr →
  (length (ord ++ fr) ≤ S (length (targets adjacency)))%nat.
Proof.
  intros [Hs Hr He Hc Hn Hd].
  change (S (length (targets adjacency)))
    with (length (start :: targets adjacency)).
  apply submseteq_length, NoDup_submseteq; [done|].
  intros v [[u|] Hv]%Hd; apply elem_of_cons.
  - right. eapply edge_targets. by eapply He.
  - left. by apply Hr.
Qed.

Lemma search_loop_terminates fuel st :
  search_inv st →
  (S (length (targets adjacency)) < fuel + length (order st))%nat →
  is_Some (search_loop push fuel adjacency goal st).
Proof.
  revert st. induction fuel as [|fuel IH]; intros st Hinv Hfuel.
  - pose proof (discovered_bound _ _ _ (inv_discovered _ _ _ _ Hinv)) as Hb.
    rewrite length_app in Hb. lia.
  - simpl.
    destruct (search_step push adjacency goal st) as [[] st1] eqn:Hstep;
      [|by eexists].
    apply IH; [by eapply search_step_inv|].
    apply search_step_running in Hstep as (cur & rest & _ & _ & ->).
    simpl. rewrite length_app. simpl. lia.
Qed.

Local Abbreviation loop_fuel := (loop_fuel adjacency).

Lemma search_loop_total fuel :
  (loop_fuel ≤ fuel)%nat →
  ∃ st0 st',
    search_loop push fuel adjacency goal (initial_state start) = Some st'
    ∧ search_inv st0
    ∧ search_step push adjacency goal st0 = (Finished, st').
Proof.
  intros Hfuel.
  destruct (search_loop_terminates fuel (initial_state start)) as [st' Hst'].
  { apply search_inv_initial. }
  { unfold loop_fuel in Hfuel. simpl. lia. }
  destruct (search_loop_post fuel _ st' search_inv_initial Hst')
    as (st0 & Hinv & Hstep).
  by exists st0, st'.
Qed.

(** *** The state the loop ends in *)

(** The loop was left with the goal unseen: the frontier is empty, every
    node with an entry has been expanded, and these are the nodes
    reachable from [start]. *)
Lemma exhausted_reachable st v :
  search_inv st → frontier st = [] →
  is_Some (came_from st !! v) ↔ reachable adjacency start v.
Proof.
  intros [Hdisc Hclosed Hgoal Hcount] Hfr. split.
  - intros Hv. destruct (d_chain _ _ _ _ _ Hdisc v Hv) as [l Hl].
    exists (reverse l).
    eapply back_chain_path; [apply Hdisc|apply Hdisc|done].
  - revert v.
    apply (closed_reachable adjacency (λ v, is_Some (came_from st !! v))).
    + rewrite (d_start _ _ _ _ _ Hdisc). by eexists.
    + intros u w Hu Huw. apply (Hclosed u w); [|done].
      apply (d_dom _ _ _ _ _ Hdisc) in Hu. by rewrite Hfr, app_nil_r in Hu.
Qed.

Lemma discovered_reachable cf ord fr v :
  discovered cf ord fr → is_Some (cf !! v) → reachable adjacency start v.
Proof.
  intros Hdisc Hv. destruct (d_chain _ _ _ _ _ Hdisc v Hv) as [l Hl].
  exists (reverse l). eapply back_chain_path; [apply Hdisc|apply Hdisc|done].
Qed.

(** *** Results shared by bfs and dfs *)

(** A returned path that is not empty is a path of the graph from [start]
    to [goal], and [distance] counts its edges. *)
Lemma frontier_search_path fuel r :
  frontier_search push fuel adjacency start goal = Returns r →
  path r ≠ [] →
  is_path adjacency start goal (path r) ∧ distance r = edges_of (path r).
Proof.
  unfold frontier_search. intros Hr Hp.
  destruct (search_loop push fuel adjacency goal (initial_state start))
    as [st' |] eqn:Hloop; [|done].
  destruct (reconstruct_path fuel (came_from st') start goal)
    as [p| |] eqn:Hrec; [|done..].
  simplify_eq. simpl in *.
  destruct (search_loop_post _ _ _ search_inv_initial Hloop)
    as (st0 & [Hdisc _ _ _] & Hstep).
  assert (came_from st' = came_from st0) as Hcf.
  { by apply search_step_finished in Hstep as [[_ ->]|(rest & _ & ->)]. }
  rewrite Hcf in Hrec.
  destruct (reconstruct_path_returns _ _ _ _ _ Hrec Hp) as (l & Hl & -> & _).
  split.
  - eapply back_chain_path; [apply Hdisc|apply Hdisc|done].
  - unfold path_distance, edges_of. rewrite length_reverse.
    inversion Hl; simplify_eq. simpl. lia.
Qed.

(** The goal can be reached: the call returns, and the path is not empty. *)
Lemma frontier_search_reachable :
  reachable adjacency start goal →
  ∃ n r, (∀ fuel, (n ≤ fuel)%nat →
            frontier_search push fuel adjacency start goal = Returns r)
         ∧ path r ≠ [].
Proof.
  intros Hreach.
  destruct (search_loop_total loop_fuel) as (st0 & st' & Hloop & Hinv & Hstep);
    [done|].
  pose proof Hinv as [Hdisc Hclosed Hgoal Hcount].
  apply search_step_finished in Hstep as [[Hfr ->]|(rest & Hfr & Hst')].
  { exfalso. apply Hgoal. apply (exhausted_reachable st0 goal Hinv Hfr) in Hreach.
    apply (d_dom _ _ _ _ _ Hdisc) in Hreach. by rewrite Hfr, app_nil_r in Hreach. }
  assert (is_Some (came_from st0 !! goal)) as Hg.
  { apply (d_dom _ _ _ _ _ Hdisc). rewrite Hfr. apply elem_of_app. right. by left. }
  destruct (d_chain _ _ _ _ _ Hdisc goal Hg) as [l Hl].
  assert (last l = Some start) as Hlast.
  { destruct (back_chain_last _ _ _ Hl) as (x & Hx & Hroot).
    by apply (d_root _ _ _ _ _ Hdisc) in Hroot as ->. }
  exists (loop_fuel `max` length l)%nat.
  exists (mkResult (reverse l) (path_distance (reverse l)) (count st')
                   (Some (order st'))).
  split.
  - intros fuel Hfuel. unfold frontier_search.
    rewrite (search_loop_mono loop_fuel fuel _ st' Hloop) by lia.
    assert (came_from st' = came_from st0) as -> by by subst st'.
    rewrite (reconstruct_path_chain _ _ _ _ l Hl) by lia.
    by rewrite decide_True.
  - simpl. inversion Hl; simplify_eq. rewrite reverse_cons.
    intros [_ ?]%app_eq_nil. done.
Qed.

(** The goal cannot be reached: [reconstruct_path] is called for a goal
    that has no entry in [came_from], and raises. *)
Lemma frontier_search_unreachable fuel :
  ¬ reachable adjacency start goal → (loop_fuel ≤ fuel)%nat →
  frontier_search push fuel adjacency start goal = Raises KeyError.
Proof.
  intros Hreach Hfuel.
  destruct (search_loop_total fuel Hfuel) as (st0 & st' & Hloop & Hinv & Hstep).
  pose proof Hinv as [Hdisc Hclosed Hgoal Hcount].
  unfold frontier_search. rewrite Hloop.
  assert (came_from st' = came_from st0) as ->.
  { by apply search_step_finished in Hstep as [[_ ->]|(rest & _ & ->)]. }
  rewrite reconstruct_path_missing; [done| |unfold loop_fuel in Hfuel; lia].
  destruct (came_from st0 !! goal) as [x|] eqn:Hg; [|done].
  exfalso. apply Hreach. eapply discovered_reachable; [done|]. by rewrite Hg.
Qed.

(** [visited_count] is the length of [visited_order], and no node occurs
    twice in it. *)
Lemma frontier_search_visited fuel r :
  frontier_search push fuel adjacency start goal = Returns r →
  ∃ vo, visited_order r = Some vo
        ∧ visited_count r = Z.of_nat (length vo) ∧ NoDup vo.
Proof.
  unfold frontier_search. intros Hr.
  destruct (search_loop push fuel adjacency goal (initial_state start))
    as [st' |] eqn:Hloop; [|done].
  destruct (reconstruct_path fuel (came_from st') start goal)
    as [p| |] eqn:Hrec; [|done..].
  simplify_eq. simpl. exists (order st'). split; [done|].
  destruct (search_loop_post _ _ _ search_inv_initial Hloop)
    as (st0 & [Hdisc _ _ Hcount] & Hstep).
  pose proof (d_nodup _ _ _ _ _ Hdisc) as Hnodup.
  apply search_step_finished in Hstep as [[Hfr ->]|(rest & Hfr & ->)].
  - split; [done|]. by rewrite Hfr, app_nil_r in Hnodup.
  - simpl. rewrite length_app. simpl. split; [lia|].
    rewrite Hfr, cons_middle, app_assoc in Hnodup.
    by apply NoDup_app in Hnodup as [? _].
Qed.

(** Over the whole search the popped nodes and the frontier never hold a
    node twice. *)
Lemma search_reaches_inv st :
  search_reaches push adjacency goal (initial_state start) st →
  search_inv st.
Proof.
  induction 1 as [|st1 st2 _ IH Hstep]; [apply search_inv_initial|].
  by eapply search_step_inv.
Qed.

(** Nothing leaves the popped nodes and the frontier: an iteration only
    adds the nodes it discovers. *)
Lemma discover_all_grows cur ns cf fr :
  fr ⊆+ (foldl (discover push cur) (cf, fr) ns).2.
Proof.
  revert cf fr. induction ns as [|nb ns IH]; intros cf fr; simpl; [done|].
  destruct (cf !! nb) as [x|] eqn:Hnb.
  - rewrite discover_known by (by rewrite Hnb). apply IH.
  - rewrite discover_fresh by done. etrans; [|apply IH].
    rewrite push_perm. by apply submseteq_cons.
Qed.

Lemma search_step_grows st st' :
  search_step push adjacency goal st = (Running, st') →
  order st ++ frontier st ⊆+ order st' ++ frontier st'.
Proof.
  intros (cur & rest & -> & _ & ->)%search_step_running. simpl.
  rewrite <- app_assoc. apply submseteq_skips_l. simpl.
  apply submseteq_skip, discover_all_grows.
Qed.

(** More fuel does not change an outcome that was reached. *)
Lemma frontier_search_mono fuel fuel' :
  settled (frontier_search push fuel adjacency start goal) →
  (fuel ≤ fuel')%nat →
  frontier_search push fuel' adjacency start goal
  = frontier_search push fuel adjacency start goal.
Proof.
  unfold frontier_search. intros Hs Hle.
  destruct (search_loop push fuel adjacency goal (initial_state start))
    as [st'|] eqn:Hloop; [|done].
  rewrite (search_loop_mono fuel fuel' _ st' Hloop Hle).
  rewrite (reconstruct_path_mono fuel fuel'); [done| |done].
  by destruct (reconstruct_path fuel (came_from st') start goal).
Qed.

(** [start] and [goal] are the same node. *)
Lemma frontier_search_trivial fuel :
  start = goal → (0 < fuel)%nat →
  frontier_search push fuel adjacency start goal
  = Returns (mkResult [start] 0 1 (Some [start])).
Proof.
  intros <- Hfuel. destruct fuel as [|fuel]; [lia|].
  unfold frontier_search. simpl.
  unfold search_step. simpl. rewrite decide_True by done. simpl.
  by rewrite reconstruct_path_single by lia.
Qed.

End FrontierFacts.

(** ** bfs: the layers of the queue *)

Section BfsFacts.

Context {Node : Type} `{Countable Node}.
Variable adjacency : gmap Node (list Node).
Variables start goal : Node.

Implicit Types (cf : gmap Node (option Node)) (ord fr ns : list Node).
Implicit Types (st : @search_state Node _ _).

Local Abbreviation discovered := (discovered adjacency start).
Local Abbreviation search_inv := (search_inv adjacency start goal).
Local Abbreviation bfs_inv := (bfs_inv adjacency start goal).
Local Abbreviation level_closed := (level_closed adjacency).

Lemma enqueue_perm (n : Node) q : enqueue n q ≡ₚ n :: q.
Proof. unfold enqueue. symmetry. apply Permutation_cons_append. Qed.

Lemma level_det cf v i j : level cf v i → level cf v j → i = j.
Proof.
  intros (l1 & H1 & E1) (l2 & H2 & E2).
  pose proof (back_chain_det _ _ _ _ H1 H2). subst. lia.
Qed.

Lemma level_insert_fresh cf nb x v k :
  cf !! nb = None → level cf v k → level (<[nb := x]> cf) v k.
Proof.
  intros Hnb (l & Hl & Hlen). exists l.
  split; [by apply back_chain_insert_fresh|done].
Qed.

Lemma level_new cf nb cur k :
  cf !! nb = None → level cf cur k →
  level (<[nb := Some cur]> cf) nb (S k).
Proof.
  intros Hnb (l & Hl & Hlen). exists (nb :: l). split; [|simpl; lia].
  econstructor; [apply lookup_insert_eq|by apply back_chain_insert_fresh].
Qed.

Lemma level_exists cf ord fr v :
  discovered cf ord fr → is_Some (cf !! v) → ∃ k, level cf v k.
Proof.
  intros Hdisc Hv. destruct (d_chain _ _ _ _ _ Hdisc v Hv) as [l Hl].
  inversion Hl as [|c next l' Hc Hl']; simplify_eq.
  exists (length l'), (v :: l'). done.
Qed.

(** Assigning a fresh node does not change the level of the others. *)
Lemma level_insert_back cf ord fr nb x v k :
  discovered cf ord fr → cf !! nb = None → is_Some (cf !! v) →
  level (<[nb := x]> cf) v k → level cf v k.
Proof.
  intros Hdisc Hnb Hv Hk.
  destruct (level_exists _ _ _ _ Hdisc Hv) as [k0 Hk0].
  pose proof (level_insert_fresh _ nb x _ _ Hnb Hk0) as Hk0'.
  by rewrite (level_det _ _ _ _ Hk Hk0').
Qed.

(** Every node that has an entry is at depth [k + 1] at most. *)
Lemma layered_below cf ord fr k v :
  layered cf ord fr k → v ∈ ord ++ fr →
  ∃ i, level cf v i ∧ (i ≤ S k)%nat.
Proof.
  intros [(A & B & -> & HA & HB) Hord] [Hv|[Hv|Hv]%elem_of_app]%elem_of_app.
  - destruct (Hord v Hv) as (j & Hj & Hle). exists j. split; [done|lia].
  - exists k. split; [by apply HA|lia].
  - exists (S k). split; [by apply HB|lia].
Qed.

(** One turn of the [for] loop for a node that has no entry yet. *)
Lemma layered_fresh cf ord fr k cur nb :
  cf !! nb = None → level cf cur k → layered cf ord fr k →
  layered (<[nb := Some cur]> cf) ord (enqueue nb fr) k.
Proof.
  intros Hnb Hcur [(A & B & -> & HA & HB) Hord]. split.
  - exists A, (B ++ [nb]). unfold enqueue. rewrite <- app_assoc.
    split_and!; [done| |].
    + intros a Ha. by apply level_insert_fresh, HA.
    + intros b [Hb|Hb%list_elem_of_singleton]%elem_of_app.
      * by apply level_insert_fresh, HB.
      * subst b. by apply level_new.
  - intros u Hu. destruct (Hord u Hu) as (j & Hj & Hle).
    exists j. split; [by apply level_insert_fresh|done].
Qed.

Lemma level_closed_fresh cf ord fr expanded nb x :
  discovered cf ord fr → cf !! nb = None →
  (∀ u, u ∈ expanded → u ∈ ord) →
  level_closed cf expanded → level_closed (<[nb := x]> cf) expanded.
Proof.
  intros Hdisc Hnb Hsub Hclosed u v j Hu Huv Hj.
  assert (is_Some (cf !! u)) as Hdom.
  { apply (d_dom _ _ _ _ _ Hdisc). apply elem_of_app. left. by apply Hsub. }
  apply (level_insert_back _ _ _ _ _ _ _ Hdisc Hnb Hdom) in Hj.
  destruct (Hclosed u v j Hu Huv Hj) as (i & Hi & Hle).
  exists i. split; [by apply level_insert_fresh|done].
Qed.

(** The whole [for] loop over the neighbours of [cur], which is at depth
    [k]. *)
Lemma bfs_discover_all cur k expanded ord ns cf fr :
  discovered cf ord fr → cur ∈ ord → (∀ v, v ∈ ns → edge adjacency cur v) →
  level cf cur k → layered cf ord fr k →
  (∀ u, u ∈ expanded → u ∈ ord) → level_closed cf expanded →
  let acc := foldl (discover enqueue cur) (cf, fr) ns in
  layered acc.1 ord acc.2 k
  ∧ level_closed acc.1 expanded
  ∧ (∀ v i, level cf v i → level acc.1 v i)
  ∧ (∀ v, v ∈ ns → ∃ i, level acc.1 v i ∧ (i ≤ S k)%nat).
Proof.
  intros Hdisc Hcur Hns Hk Hlay Hsub Hclosed. revert cf fr Hdisc Hns Hk Hlay Hclosed.
  induction ns as [|nb ns IH]; intros cf fr Hdisc Hns Hk Hlay Hclosed; simpl.
  - split_and!; [done|done|done|]. intros v Hv. by apply elem_of_nil in Hv.
  - destruct (cf !! nb) as [x|] eqn:Hnb.
    + rewrite (discover_known enqueue) by (by rewrite Hnb).
      destruct (IH cf fr) as (H1 & H2 & H3 & H4); try done.
      { intros v Hv. apply Hns. by right. }
      split_and!; [done|done|done|].
      intros v [->|Hv]%elem_of_cons; [|by apply H4].
      destruct (layered_below cf ord fr k nb Hlay) as (i & Hi & Hle).
      { apply (d_dom _ _ _ _ _ Hdisc). by rewrite Hnb. }
      exists i. split; [by apply H3|done].
    + rewrite (discover_fresh enqueue) by done.
      destruct (IH (<[nb := Some cur]> cf) (enqueue nb fr))
        as (H1 & H2 & H3 & H4).
      { apply (discovered_fresh enqueue enqueue_perm); try done.
        apply Hns. by left. }
      { intros v Hv. apply Hns. by right. }
      { by apply level_insert_fresh. }
      { by apply layered_fresh. }
      { by eapply level_closed_fresh. }
      split_and!; [done|done| |].
      * intros v i Hi. by apply H3, level_insert_fresh.
      * intros v [->|Hv]%elem_of_cons; [|by apply H4].
        exists (S k). split; [|done]. by apply H3, level_new.
Qed.

(** Popping the head of the queue. *)
Lemma layered_pop cf ord cur rest k :
  layered cf ord (cur :: rest) k →
  ∃ kc, level cf cur kc ∧ layered cf (ord ++ [cur]) rest kc
        ∧ (∀ a, a ∈ cur :: rest → ∃ i, level cf a i ∧ (kc ≤ i)%nat).
Proof.
  intros [(A & B & Hfr & HA & HB) Hord]. destruct A as [|a A].
  - simpl in Hfr. subst B. exists (S k). split_and!.
    + apply HB. by left.
    + split.
      * exists rest, []. rewrite app_nil_r. split_and!; [done| |].
        -- intros a Ha. apply HB. by right.
        -- intros b Hb. by apply elem_of_nil in Hb.
      * intros u [Hu|Hu%list_elem_of_singleton]%elem_of_app.
        -- destruct (Hord u Hu) as (j & Hj & Hle). exists j. split; [done|lia].
        -- subst u. exists (S k). split; [|done]. apply HB. by left.
    + intros x Hx. exists (S k). split; [by apply HB|done].
  - simpl in Hfr. simplify_eq. exists k. split_and!.
    + apply HA. by left.
    + split.
      * exists A, B. split_and!; [done| |done].
        intros x Hx. apply HA. by right.
      * intros u [Hu|Hu%list_elem_of_singleton]%elem_of_app.
        -- by apply Hord.
        -- subst u. exists k. split; [|done]. apply HA. by left.
    + intros x Hx. rewrite app_comm_cons in Hx.
      apply elem_of_app in Hx as [Hx|Hx].
      * exists k. split; [|done]. by apply HA.
      * exists (S k). split; [by apply HB|lia].
Qed.

Lemma bfs_inv_initial : bfs_inv (initial_state start).
Proof.
  split_and!.
  - apply search_inv_initial.
  - exists 0%nat. split; simpl.
    + exists [start], []. split_and!; [done| |].
      * intros a ->%list_elem_of_singleton. exists [start]. split; [|done].
        econstructor; [apply lookup_singleton_eq|constructor].
      * intros b Hb. by apply elem_of_nil in Hb.
    + intros u Hu. by apply elem_of_nil in Hu.
  - intros u v j Hu. by apply elem_of_nil in Hu.
Qed.

Lemma bfs_step_inv st st' :
  bfs_inv st → search_step enqueue adjacency goal st = (Running, st') →
  bfs_inv st'.
Proof.
  intros (Hinv & [k Hlay] & Hclosed) Hstep.
  split; [by eapply (search_step_inv enqueue enqueue_perm)|].
  pose proof (inv_discovered _ _ _ _ Hinv) as Hdisc.
  apply search_step_running in Hstep as (cur & rest & Hfr & Hne & ->).
  simpl. rewrite Hfr in Hlay, Hdisc.
  destruct (layered_pop _ _ _ _ _ Hlay) as (kc & Hkc & Hlay' & _).
  apply discovered_pop in Hdisc.
  destruct (bfs_discover_all cur kc (order st) (order st ++ [cur])
              (neighbors adjacency cur) (came_from st) rest)
    as (H1 & H2 & H3 & H4); try done.
  { apply elem_of_app. right. by left. }
  { intros u Hu. apply elem_of_app. by left. }
  split; [by exists kc|].
  intros u v j [Hu|Hu%list_elem_of_singleton]%elem_of_app Huv Hj.
  - by eapply H2.
  - subst u. apply H3 in Hkc. rewrite (level_det _ _ _ _ Hj Hkc).
    by apply H4.
Qed.

(** The goal is at the head of the queue, at depth [kg]: no path from a
    node of depth [j] to the goal has fewer than [kg - j] edges. *)
Lemma bfs_walk st rest kg :
  bfs_inv st → frontier st = goal :: rest → level (came_from st) goal kg →
  ∀ p u j m,
    head p = Some u → last p = Some goal → linked adjacency p →
    level (came_from st) u j → (j ≤ m)%nat →
    (kg ≤ m + (length p - 1))%nat.
Proof.
  intros (Hinv & [k Hlay] & Hclosed) Hfr Hkg.
  pose proof Hinv as [Hdisc Hcl _ _]. rewrite Hfr in Hlay.
  destruct (layered_pop _ _ _ _ _ Hlay) as (kc & Hkc & _ & Hmin).
  rewrite (level_det _ _ _ _ Hkc Hkg) in Hmin. clear kc Hkc.
  induction p as [|a p IH]; intros u j m Hhead Hlast Hlinked Hj Hle; [done|].
  simpl in Hhead. simplify_eq. destruct p as [|v p].
  - simpl in Hlast. simplify_eq.
    pose proof (level_det _ _ _ _ Hkg Hj). simpl. lia.
  - destruct Hlinked as [Huv Hlinked].
    assert (u ∈ order st ++ frontier st) as Hu.
    { apply (d_dom _ _ _ _ _ Hdisc). destruct Hj as (l & Hl & _).
      inversion Hl; simplify_eq. by eexists. }
    apply elem_of_app in Hu as [Hu|Hu].
    + destruct (Hclosed u v j Hu Huv Hj) as (i & Hi & Hi').
      specialize (IH v i (S m) eq_refl Hlast Hlinked Hi).
      simpl in *. lia.
    + rewrite Hfr in Hu. destruct (Hmin u Hu) as (i & Hi & Hi').
      pose proof (level_det _ _ _ _ Hj Hi). simpl. lia.
Qed.

(** No path from [start] to [goal] has fewer edges than the one [bfs]
    returns. *)
Lemma bfs_shortest fuel r p :
  bfs fuel adjacency start goal = Returns r → path r ≠ [] →
  is_path adjacency start goal p → distance r ≤ edges_of p.
Proof.
  unfold bfs, frontier_search. intros Hr Hne (Hhead & Hlast & Hlinked).
  destruct (search_loop enqueue fuel adjacency goal (initial_state start))
    as [st' |] eqn:Hloop; [|done].
  destruct (reconstruct_path fuel (came_from st') start goal)
    as [q| |] eqn:Hrec; [|done..].
  simplify_eq. simpl in *.
  destruct (search_loop_post_gen enqueue adjacency goal bfs_inv fuel _ st'
              bfs_step_inv bfs_inv_initial Hloop) as (st0 & Hinv & Hstep).
  pose proof Hinv as ([Hdisc _ Hgoal _] & _ & _).
  destruct (reconstruct_path_returns _ _ _ _ _ Hrec Hne) as (l & Hl & -> & _).
  inversion Hl as [|c next l' Hc Hl']; simplify_eq.
  apply search_step_finished in Hstep as [[Hfr ->]|(rest & Hfr & ->)].
  - exfalso. apply Hgoal.
    assert (goal ∈ order st0 ++ frontier st0) as Hg.
    { apply (d_dom _ _ _ _ _ Hdisc). by eexists. }
    by rewrite Hfr, app_nil_r in Hg.
  - simpl in *.
    assert (level (came_from st0) goal (length l')) as Hkg.
    { by exists (goal :: l'). }
    assert (level (came_from st0) start 0) as Hks.
    { exists [start]. split; [|done].
      econstructor; [apply Hdisc|constructor]. }
    pose proof (bfs_walk st0 rest _ Hinv Hfr Hkg p start 0%nat 0%nat
                  Hhead Hlast Hlinked Hks (le_n _)) as Hwalk.
    unfold path_distance, edges_of. rewrite length_reverse. simpl.
    destruct p; [done|]. simpl in *. lia.
Qed.

End BfsFacts.

(** ** astar *)

Section AstarFacts.

Context {Node : Type} `{Countable Node}.
Variable pow2 : float → option float.
Variable node_ltb : Node → Node → bool.
Variable adjacency : gmap Node (list Node).
Variable positions : gmap Node (float * float).
Variables start goal : Node.

Implicit Types (st : @astar_state Node _ _) (heap : list (@entry Node)).

Local Abbreviation astar_inv := (astar_inv adjacency start).
Local Abbreviation heappop := (heappop node_ltb).
Local Abbreviation astar_loop := (astar_loop pow2 node_ltb).

(** [heappop] takes one entry out of the heap. *)
Lemma heappop_perm heap e rest :
  heappop heap = Some (e, rest) → heap ≡ₚ e :: rest.
Proof.
  revert e rest. induction heap as [|x heap IH]; intros e rest Hpop; [done|].
  simpl in Hpop. destruct (heappop heap) as [[m rest']|] eqn:Hh.
  - specialize (IH m rest' eq_refl).
    destruct (entry_ltb node_ltb m x); simplify_eq; [|done].
    rewrite IH. apply Permutation_swap.
  - simplify_eq. destruct heap as [|y heap]; [done|].
    simpl in Hh. by destruct (heappop heap) as [[? ?]|]; [destruct entry_ltb|].
Qed.

Lemma heappop_None heap : heappop heap = None → heap = [].
Proof.
  destruct heap as [|x heap]; [done|]. simpl.
  by destruct (heappop heap) as [[? ?]|]; [destruct entry_ltb|].
Qed.

(** *** One turn of the [for] loop *)

Lemma relax_inv cur st nb st' :
  astar_inv (Some cur) st → cur ∈ a_order st → edge adjacency cur nb →
  relax pow2 positions goal cur st nb = Returns st' →
  astar_inv (Some cur) st'
  ∧ a_order st' = a_order st ∧ a_count st' = a_count st
  ∧ (∀ v, is_Some (g_score st !! v) → is_Some (g_score st' !! v))
  ∧ is_Some (g_score st' !! nb)
  ∧ (st' = st ∨ improved st' st).
Proof.
  intros [He Hs Hr Hh Ho Hp Hc] Hcur Hedge. unfold relax.
  destruct (Ho cur Hcur) as [gc Hgc]. rewrite Hgc.
  destruct (improves (g_score st) nb (gc + 1)) eqn:Himp; last first.
  { intros [= <-]. split_and!; try done; [|by left].
    unfold improves in Himp. by destruct (g_score st !! nb). }
  destruct (heuristic pow2 positions nb goal) as [h| |]; simpl; [|done..].
  intros [= <-]. simpl.
  assert (∀ v, is_Some (g_score st !! v) →
               is_Some (<[nb := (gc + 1)%nat]> (g_score st) !! v)) as Hmono.
  { intros v Hv. apply lookup_insert_is_Some.
    destruct (decide (nb = v)); [by left|by right]. }
  split_and!; try done.
  - split; simpl; try done.
    + intros v u. destruct (decide (nb = v)) as [->|Hne].
      * rewrite lookup_insert_eq. by intros [= <-].
      * rewrite lookup_insert_ne by done. apply He.
    + by apply Hmono.
    + intros v [<-|[_ Hv]]%lookup_insert_is_Some.
      * eapply reachable_step; [|done]. apply Hr. by rewrite Hgc.
      * by apply Hr.
    + intros e [He' | ->%list_elem_of_singleton]%elem_of_app.
      * by apply Hmono, Hh.
      * simpl. by rewrite lookup_insert_eq.
    + intros u Hu. by apply Hmono, Ho.
    + intros u [<-|[Hne Hu]]%lookup_insert_is_Some.
      * right. left. eexists. split.
        -- apply elem_of_app. right. by left.
        -- done.
      * destruct (Hp u Hu) as [?|[(e & He' & <-) | [Hu' Hcl]]]; [by left|..].
        -- right. left. exists e. split; [|done]. apply elem_of_app. by left.
        -- right. right. split; [done|]. intros v Hv. by apply Hmono, Hcl.
  - by rewrite lookup_insert_eq.
  - right. unfold improved, improves in *. simpl.
    destruct (g_score st !! nb) as [gn|] eqn:Hnb.
    + right. split; [by rewrite map_size_insert_Some by (by rewrite Hnb)|].
      apply Nat.ltb_lt in Himp. unfold score_sum.
      rewrite (map_fold_delete_L _ _ nb gn (g_score st)) by (done || (intros; lia)).
      rewrite <- insert_delete_eq.
      rewrite map_fold_insert_L; [lia|intros; lia|apply lookup_delete_eq].
    + left. rewrite map_size_insert_None by done. lia.
Qed.

(** [relax] returns when [euclidean] does. *)
Lemma relax_returns cur st nb :
  is_Some (g_score st !! cur) →
  (∃ h, heuristic pow2 positions nb goal = Returns h) →
  ∃ st', relax pow2 positions goal cur st nb = Returns st'.
Proof.
  intros [gc Hgc] [h Hh]. unfold relax. rewrite Hgc, Hh. simpl.
  destruct (improves _ _ _); by eexists.
Qed.

Lemma improved_trans st1 st2 st3 :
  improved st3 st2 → improved st2 st1 → improved st3 st1.
Proof. unfold improved. lia. Qed.

(** *** The whole [for] loop *)

Lemma relax_all cur ns st st' :
  astar_inv (Some cur) st → cur ∈ a_order st →
  (∀ v, v ∈ ns → edge adjacency cur v) →
  for_each (relax pow2 positions goal cur) st ns = Returns st' →
  astar_inv (Some cur) st'
  ∧ a_order st' = a_order st ∧ a_count st' = a_count st
  ∧ (∀ v, is_Some (g_score st !! v) → is_Some (g_score st' !! v))
  ∧ (∀ v, v ∈ ns → is_Some (g_score st' !! v))
  ∧ (st' = st ∨ improved st' st).
Proof.
  revert st. induction ns as [|nb ns IH]; intros st Hinv Hcur Hns; simpl.
  - intros [= <-]. split_and!; try done; [|by left].
    intros v Hv. by apply elem_of_nil in Hv.
  - destruct (relax pow2 positions goal cur st nb) as [st1| |] eqn:Hrelax;
      simpl; [|done..].
    intros Hrest.
    destruct (relax_inv cur st nb st1 Hinv Hcur)
      as (Hinv1 & Ho1 & Hc1 & Hm1 & Hnb1 & Hi1); [apply Hns; by left|done|].
    destruct (IH st1 Hinv1) as (Hinv2 & Ho2 & Hc2 & Hm2 & Hns2 & Hi2).
    { by rewrite Ho1. }
    { intros v Hv. apply Hns. by right. }
    { done. }
    split_and!; try done; try congruence.
    + intros v Hv. by apply Hm2, Hm1.
    + intros v [->|Hv]%elem_of_cons; [by apply Hm2|by apply Hns2].
    + destruct Hi2 as [->|Hi2]; [done|]. right.
      destruct Hi1 as [->|Hi1]; [done|]. by eapply improved_trans.
Qed.

Lemma relax_all_returns cur ns st :
  astar_inv (Some cur) st → cur ∈ a_order st →
  (∀ v, v ∈ ns → edge adjacency cur v) →
  (∀ v, v ∈ ns → ∃ h, heuristic pow2 positions v goal = Returns h) →
  ∃ st', for_each (relax pow2 positions goal cur) st ns = Returns st'.
Proof.
  revert st. induction ns as [|nb ns IH]; intros st Hinv Hcur Hns Hh; simpl;
    [by eexists|].
  destruct (relax_returns cur st nb) as [st1 Hrelax].
  { by apply (ai_order _ _ _ _ Hinv). }
  { apply Hh. by left. }
  rewrite Hrelax. simpl.
  destruct (relax_inv cur st nb st1 Hinv Hcur) as (Hinv1 & Ho1 & _);
    [apply Hns; by left|done|].
  apply IH; [done|by rewrite Ho1| |].
  - intros v Hv. apply Hns. by right.
  - intros v Hv. apply Hh. by right.
Qed.

Lemma astar_inv_initial : astar_inv None (astar_initial start).
Proof.
  split; simpl.
  - intros v u Hv. apply lookup_singleton_Some in Hv. naive_solver.
  - rewrite lookup_singleton_eq. by eexists.
  - intros v [x [<- _]%lookup_singleton_Some]. apply reachable_refl.
  - intros e ->%list_elem_of_singleton. simpl. rewrite lookup_singleton_eq.
    by eexists.
  - intros u Hu. by apply elem_of_nil in Hu.
  - intros u [x [<- _]%lookup_singleton_Some]. right. left.
    eexists. split; [by apply list_elem_of_singleton|done].
  - done.
Qed.

(** Popping [cur] off the heap. *)
Lemma astar_inv_pop st f cur heap' :
  astar_inv None st → heappop (open_heap st) = Some ((f, cur), heap') →
  astar_inv (Some cur)
    (mkAstar heap' (a_came_from st) (g_score st) (a_count st + 1)
             (a_order st ++ [cur])).
Proof.
  intros [He Hs Hr Hh Ho Hp Hc] Hpop. apply heappop_perm in Hpop.
  split; simpl; try done.
  - intros e He'. apply Hh. rewrite Hpop. by right.
  - intros u [Hu| ->%list_elem_of_singleton]%elem_of_app; [by apply Ho|].
    apply (Hh (f, cur)). rewrite Hpop. by left.
  - intros u Hu. destruct (Hp u Hu) as [?|[(e & He' & <-) | [Hu' Hcl]]]; [done|..].
    + rewrite Hpop in He'. apply elem_of_cons in He' as [-> | He']; [by left|].
      right. left. by exists e.
    + right. right. split; [|done]. apply elem_of_app. by left.
  - rewrite length_app. simpl. lia.
Qed.

(** The [for] loop is over: [cur] is expanded. *)
Lemma astar_inv_expanded cur st :
  astar_inv (Some cur) st → cur ∈ a_order st →
  (∀ v, edge adjacency cur v → is_Some (g_score st !! v)) →
  astar_inv None st.
Proof.
  intros [He Hs Hr Hh Ho Hp Hc] Hcur Hcl. split; try done.
  intros u Hu. destruct (Hp u Hu) as [[= ->]|?]; [|by right].
  right. right. done.
Qed.

(** One iteration that does not pop the goal. *)
Lemma astar_iteration st f cur heap' st' :
  astar_inv None st → heappop (open_heap st) = Some ((f, cur), heap') →
  for_each (relax pow2 positions goal cur)
    (mkAstar heap' (a_came_from st) (g_score st) (a_count st + 1)
             (a_order st ++ [cur]))
    (neighbors adjacency cur) = Returns st' →
  astar_inv None st'
  ∧ ((g_score st' = g_score st ∧ open_heap st' = heap')
     ∨ improved st' st).
Proof.
  intros Hinv Hpop Hfold.
  pose proof (astar_inv_pop _ _ _ _ Hinv Hpop) as Hinv1.
  destruct (relax_all cur (neighbors adjacency cur) _ st' Hinv1)
    as (Hinv' & Ho & Hc & Hm & Hns & Hi); simpl; [|done|done|].
  { apply elem_of_app. right. by left. }
  split.
  - apply (astar_inv_expanded cur); [done| |done].
    rewrite Ho. simpl. apply elem_of_app. right. by left.
  - destruct Hi as [->|Hi]; [by left|by right].
Qed.

(** The iteration returns when [euclidean] does at every node within reach
    of [start]. *)
Lemma astar_iteration_returns st f cur heap' :
  (∀ u, reachable adjacency start u →
        ∃ h, heuristic pow2 positions u goal = Returns h) →
  astar_inv None st → heappop (open_heap st) = Some ((f, cur), heap') →
  ∃ st', for_each (relax pow2 positions goal cur)
           (mkAstar heap' (a_came_from st) (g_score st) (a_count st + 1)
                    (a_order st ++ [cur]))
           (neighbors adjacency cur) = Returns st'.
Proof.
  intros Hh Hinv Hpop.
  pose proof (astar_inv_pop _ _ _ _ Hinv Hpop) as Hinv1.
  apply (relax_all_returns cur); [done| |done|].
  - simpl. apply elem_of_app. right. by left.
  - intros v Hv. apply Hh. eapply reachable_step; [|exact Hv].
    apply (ai_reach _ _ _ _ Hinv), (ai_heap _ _ _ _ Hinv (f, cur)).
    rewrite (heappop_perm _ _ _ Hpop). by left.
Qed.

(** *** What a call returns *)

(** A property of the results of both exits of the loop holds of what the
    loop returns. *)
Lemma astar_loop_returns (Q : @SearchResult Node → Prop) rfuel :
  (∀ st, astar_inv None st → open_heap st = [] →
         Q (mkResult [] 0 (a_count st) (Some (a_order st)))) →
  (∀ st f heap' p,
     astar_inv None st →
     heappop (open_heap st) = Some ((f, goal), heap') →
     reconstruct_path rfuel (a_came_from st) start goal = Returns p →
     Q (mkResult p (path_distance p) (a_count st + 1)
                 (Some (a_order st ++ [goal])))) →
  ∀ fuel st r,
    astar_inv None st →
    astar_loop fuel rfuel adjacency positions start goal st = Returns r →
    Q r.
Proof.
  intros Hempty Hgoal. induction fuel as [|fuel IH]; intros st r Hinv Hr;
    [done|].
  simpl in Hr.
  destruct (heappop (open_heap st)) as [[[f cur] heap']|] eqn:Hpop.
  - case_decide as Hcur.
    + subst cur.
      destruct (reconstruct_path rfuel (a_came_from st) start goal)
        as [p| |] eqn:Hrec; [|done..].
      simpl in Hr. simplify_eq. by eapply Hgoal.
    + destruct (for_each (relax pow2 positions goal cur) _ _)
        as [st'| |] eqn:Hfold; simpl in Hr; [|done..].
      destruct (astar_iteration st f cur heap' st' Hinv Hpop Hfold)
        as (Hinv' & _).
      by eapply IH.
  - simplify_eq. apply Hempty; [done|]. by apply heappop_None.
Qed.

(** A returned path that is not empty is a path of the graph from [start]
    to [goal], and [distance] counts its edges. *)
Lemma astar_path fuel r :
  astar pow2 node_ltb fuel adjacency positions start goal = Returns r →
  path r ≠ [] →
  is_path adjacency start goal (path r) ∧ distance r = edges_of (path r).
Proof.
  unfold astar. intros Hr.
  eapply (astar_loop_returns
            (λ r, path r ≠ [] → is_path adjacency start goal (path r)
                                ∧ distance r = edges_of (path r)));
    [| |apply astar_inv_initial|exact Hr]; simpl.
  - done.
  - intros st f heap' p Hinv _ Hrec Hp.
    destruct (reconstruct_path_returns _ _ _ _ _ Hrec Hp)
      as (l & Hl & -> & Hhead & Hlast).
    split.
    + split_and!; [done|done|].
      eapply back_chain_linked; [apply Hinv|done].
    + unfold path_distance, edges_of.
      destruct (reverse l); [done|]. simpl. lia.
Qed.

(** [visited_count] is the length of [visited_order]. *)
Lemma astar_visited fuel r :
  astar pow2 node_ltb fuel adjacency positions start goal = Returns r →
  ∃ vo, visited_order r = Some vo ∧ visited_count r = Z.of_nat (length vo).
Proof.
  unfold astar. intros Hr.
  eapply (astar_loop_returns
            (λ r, ∃ vo, visited_order r = Some vo
                        ∧ visited_count r = Z.of_nat (length vo)));
    [| |apply astar_inv_initial|exact Hr]; simpl.
  - intros st Hinv _. exists (a_order st). split; [done|apply Hinv].
  - intros st f heap' p Hinv _ _. exists (a_order st ++ [goal]).
    split; [done|]. rewrite length_app, (ai_count _ _ _ _ Hinv). simpl. lia.
Qed.

(** [start] and [goal] are the same node. *)
Lemma astar_trivial fuel :
  start = goal → (0 < fuel)%nat →
  astar pow2 node_ltb fuel adjacency positions start goal
  = Returns (mkResult [start] 0 1 (Some [start])).
Proof.
  intros <- Hfuel. destruct fuel as [|fuel]; [lia|].
  unfold astar. simpl. rewrite decide_True by done.
  by rewrite reconstruct_path_single by lia.
Qed.

(** More fuel does not change an outcome that was reached. *)
Lemma astar_loop_mono fuel fuel' rfuel rfuel' st :
  settled (astar_loop fuel rfuel adjacency positions start goal st) →
  (fuel ≤ fuel')%nat → (rfuel ≤ rfuel')%nat →
  astar_loop fuel' rfuel' adjacency positions start goal st
  = astar_loop fuel rfuel adjacency positions start goal st.
Proof.
  revert fuel' st. induction fuel as [|fuel IH]; intros fuel' st Hs Hle Hle';
    [done|].
  destruct fuel' as [|fuel']; [lia|]. simpl in *.
  destruct (heappop (open_heap st)) as [[[f cur] heap']|]; [|done].
  case_decide.
  - rewrite (reconstruct_path_mono rfuel rfuel'); [done| |done].
    by destruct (reconstruct_path rfuel (a_came_from st) start goal).
  - destruct (for_each _ _ _) as [st'| |]; simpl in *; [|done..].
    apply IH; [done|lia|done].
Qed.

Lemma astar_mono fuel fuel' :
  settled (astar pow2 node_ltb fuel adjacency positions start goal) →
  (fuel ≤ fuel')%nat →
  astar pow2 node_ltb fuel' adjacency positions start goal
  = astar pow2 node_ltb fuel adjacency positions start goal.
Proof. intros Hs Hle. by apply astar_loop_mono. Qed.

(** *** The goal cannot be reached: the heap empties *)

Lemma reachable_universe v :
  reachable adjacency start v → v ∈ universe adjacency start.
Proof.
  revert v.
  apply (closed_reachable adjacency (λ v, v ∈ universe adjacency start)).
  - apply elem_of_list_to_set, elem_of_cons. by left.
  - intros u v _ Huv. apply elem_of_list_to_set, elem_of_cons. right.
    by eapply edge_targets.
Qed.

Lemma astar_inv_size e st :
  astar_inv e st →
  (size (g_score st) ≤ size (universe adjacency start))%nat.
Proof.
  intros Hinv. rewrite <- (size_dom (D := gset Node)). apply subseteq_size.
  intros v Hv%elem_of_dom. by apply reachable_universe, Hinv.
Qed.

(** The heap is empty: the popped nodes are the nodes reachable from
    [start]. *)
Lemma astar_exhausted st v :
  astar_inv None st → open_heap st = [] →
  v ∈ a_order st ↔ reachable adjacency start v.
Proof.
  intros Hinv Hheap.
  assert (∀ u, is_Some (g_score st !! u) →
               u ∈ a_order st
               ∧ ∀ w, edge adjacency u w → is_Some (g_score st !! w)) as Hdone.
  { intros u Hu.
    destruct (ai_pending _ _ _ _ Hinv u Hu) as [?|[(e & He & _)|?]]; [done| |done].
    rewrite Hheap in He. by apply elem_of_nil in He. }
  split.
  - intros Hv. by apply Hinv, Hinv.
  - intros Hv. apply Hdone. revert v Hv.
    apply (closed_reachable adjacency (λ v, is_Some (g_score st !! v))).
    + apply Hinv.
    + intros u w Hu Huw. by apply (Hdone u Hu).
Qed.

Lemma astar_exhausts :
  (∀ u, reachable adjacency start u →
        ∃ h, heuristic pow2 positions u goal = Returns h) →
  ¬ reachable adjacency start goal →
  ∀ a b c st,
    astar_inv None st →
    (size (universe adjacency start) - size (g_score st))%nat = a →
    score_sum (g_score st) = b →
    length (open_heap st) = c →
    ∃ n vo,
      (∀ fuel rfuel, (n ≤ fuel)%nat →
         astar_loop fuel rfuel adjacency positions start goal st
         = Returns (mkResult [] 0 (Z.of_nat (length vo)) (Some vo)))
      ∧ (∀ v, v ∈ vo ↔ reachable adjacency start v).
Proof.
  intros Hh Hgoal a. induction a as [a IHa] using lt_wf_ind.
  intros b. induction b as [b IHb] using lt_wf_ind.
  intros c. induction c as [c IHc] using lt_wf_ind.
  intros st Hinv Ha Hb Hc.
  destruct (heappop (open_heap st)) as [[[f cur] heap']|] eqn:Hpop.
  - assert (cur ≠ goal) as Hcur.
    { intros ->. apply Hgoal, (ai_reach _ _ _ _ Hinv).
      apply (ai_heap _ _ _ _ Hinv (f, goal)).
      rewrite (heappop_perm _ _ _ Hpop). by left. }
    destruct (astar_iteration_returns st f cur heap' Hh Hinv Hpop)
      as (st' & Hfold).
    destruct (astar_iteration st f cur heap' st' Hinv Hpop Hfold)
      as (Hinv' & Hprogress).
    assert (∃ n vo,
      (∀ fuel rfuel, (n ≤ fuel)%nat →
         astar_loop fuel rfuel adjacency positions start goal st'
         = Returns (mkResult [] 0 (Z.of_nat (length vo)) (Some vo)))
      ∧ (∀ v, v ∈ vo ↔ reachable adjacency start v)) as (n & vo & Hn & Hvo).
    { pose proof (astar_inv_size _ _ Hinv') as Hsize.
      destruct Hprogress as [[Hg Hh']|[Hlt|[Heq Hlt]]].
      - apply (IHc (length heap')); [|done|by rewrite Hg..|by rewrite Hh'].
        apply heappop_perm, Permutation_length in Hpop. simpl in Hpop. lia.
      - apply (IHa (size (universe adjacency start) - size (g_score st'))%nat
                 ltac:(lia) (score_sum (g_score st'))
                 (length (open_heap st')) st' Hinv' eq_refl eq_refl eq_refl).
      - apply (IHb (score_sum (g_score st')) ltac:(lia)
                 (length (open_heap st')) st' Hinv' ltac:(lia)
                 eq_refl eq_refl). }
    exists (S n), vo. split; [|done].
    intros [|fuel] rfuel Hfuel; [lia|]. simpl.
    rewrite Hpop, decide_False by done. rewrite Hfold. simpl.
    apply Hn. lia.
  - exists 1%nat, (a_order st). split.
    + intros [|fuel] rfuel Hfuel; [lia|]. simpl. rewrite Hpop.
      by rewrite (ai_count _ _ _ _ Hinv).
    + intros v. apply astar_exhausted; [done|by apply heappop_None].
Qed.

(** *** The heuristic *)


Lemma relax_raises cur st nb g_cur e :
  g_score st !! cur = Some g_cur →
  improves (g_score st) nb (g_cur + 1) = true →
  heuristic pow2 positions nb goal = Raises e →
  relax pow2 positions goal cur st nb = Raises e.
Proof. intros Hg Himp Hh. unfold relax. by rewrite Hg, Himp, Hh. Qed.


Lemma heuristic_missing nb :
  positions !! nb = None ∨ positions !! goal = None →
  heuristic pow2 positions nb goal = Returns 0%float.
Proof.
  unfold heuristic. intros [-> | ->]; [done|].
  by destruct (positions !! nb).
Qed.




(** [euclidean] raises nothing but [OverflowError] and [ValueError]. *)
Lemma heuristic_no_KeyError nb :
  heuristic pow2 positions nb goal ≠ Raises KeyError.
Proof.
  unfold heuristic, euclidean, float_pow, math_sqrt.
  destruct (positions !! nb) as [pn|]; [|done].
  destruct (positions !! goal) as [pg|]; [|done].
  destruct (pow2 (PrimFloat.sub pn.1 pg.1)); simpl; [|done].
  destruct (pow2 (PrimFloat.sub pn.2 pg.2)); simpl; [|done].
  by destruct (PrimFloat.ltb _ _).
Qed.

(** Adding [0.0] to a g-score gives the g-score. *)
Lemma add_zero_count n :
  PrimFloat.add (float_of_count n) 0%float = float_of_count n.
Proof.
  apply Prim2SF_inj. rewrite FloatAxioms.add_spec. unfold float_of_count.
  rewrite of_uint63_spec.
  change (Prim2SF 0) with (S754_zero false).
  pose proof (Uint63.to_Z_bounded (of_Z (Z.of_nat n))) as Hb.
  destruct (to_Z (of_Z (Z.of_nat n))) as [|m|m]; [reflexivity| |lia].
  unfold binary_normalize, binary_round, binary_round_aux.
  destruct (shl_align _ _ _) as [mz ez].
  destruct (shr_fexp _ _ _ _ _) as [mrs' e'].
  destruct (shr_fexp _ _ _ _ _) as [mrs'' e''].
  destruct (shr_m mrs''); [reflexivity| |reflexivity].
  destruct (Z.leb _ _); reflexivity.
Qed.

Lemma for_each_ext {A B : Type} (f g : A → B → outcome A) acc l :
  (∀ a x, f a x = g a x) → for_each f acc l = for_each g acc l.
Proof.
  intros Hfg. revert acc. induction l as [|x l IH]; intros acc; simpl; [done|].
  rewrite Hfg. destruct (g acc x); simpl; [apply IH|done..].
Qed.

(** The goal has no position: every heuristic term is [0.0] and the search
    is uniform-cost search. *)
Lemma relax_without_goal_position cur st nb :
  positions !! goal = None →
  relax pow2 positions goal cur st nb = ucs_relax cur st nb.
Proof.
  intros Hg. unfold relax, ucs_relax.
  destruct (g_score st !! cur) as [g_cur|]; [|done].
  rewrite heuristic_missing by by right. simpl. by rewrite add_zero_count.
Qed.

Lemma astar_loop_without_goal_position fuel rfuel st :
  positions !! goal = None →
  astar_loop fuel rfuel adjacency positions start goal st
  = ucs_loop node_ltb fuel rfuel adjacency start goal st.
Proof.
  intros Hg. revert st. induction fuel as [|fuel IH]; intros st; simpl; [done|].
  destruct (heappop (open_heap st)) as [[[f cur] heap']|]; [|done].
  case_decide; [done|].
  rewrite (for_each_ext _ (ucs_relax cur)).
  - destruct (for_each _ _ _); simpl; [apply IH|done..].
  - intros a x. by apply relax_without_goal_position.
Qed.

End AstarFacts.

(** * The claims *)

Section ClaimLemmas.

Context {Node : Type} `{Countable Node}.
Implicit Types (adjacency : gmap Node (list Node)).

Lemma push_top_perm (n : Node) q : push_top n q ≡ₚ n :: q.
Proof. done. Qed.

Lemma linked_lookup adjacency p i (u v : Node) :
  linked adjacency p → p !! i = Some u → p !! S i = Some v →
  v ∈ neighbors adjacency u.
Proof.
  revert i. induction p as [|a [|b p] IH]; intros i Hp Hu Hv; [done|..].
  - by destruct i.
  - destruct Hp as [Hab Hp]. destruct i as [|i].
    + simpl in *. by simplify_eq.
    + by apply (IH i).
Qed.

(** A list of nodes that holds [start], not [goal], and every neighbour of
    its nodes shows that [goal] cannot be reached. *)
Lemma unreachable_outside adjacency (start goal : Node) (inside : list Node) :
  start ∈ inside → goal ∉ inside →
  forallb (λ u, forallb (λ v, bool_decide (v ∈ inside))
                        (neighbors adjacency u)) inside = true →
  ¬ reachable adjacency start goal.
Proof.
  intros Hs Hg Hclosed Hreach. apply Hg. clear Hg. revert goal Hreach.
  apply (closed_reachable adjacency (λ v, v ∈ inside)); [done|].
  intros u v Hu Huv. rewrite forallb_forall in Hclosed.
  apply list_elem_of_In, Hclosed in Hu. rewrite forallb_forall in Hu.
  apply list_elem_of_In, Hu in Huv. by apply bool_decide_eq_true in Huv.
Qed.

(** A list that holds [start] and the neighbours of its nodes holds every
    node within reach of [start]. *)
Lemma reachable_inside adjacency (start : Node) (inside : list Node) :
  start ∈ inside → closed_under adjacency inside = true →
  ∀ v, reachable adjacency start v → v ∈ inside.
Proof.
  intros Hs Hclosed.
  apply (closed_reachable adjacency (λ v, v ∈ inside)); [done|].
  intros u v Hu Huv. unfold closed_under in Hclosed.
  rewrite forallb_forall in Hclosed.
  apply list_elem_of_In, Hclosed in Hu. rewrite forallb_forall in Hu.
  apply list_elem_of_In, Hu in Huv. by apply bool_decide_eq_true in Huv.
Qed.

Lemma heap_ordered_on_sound pow2 (ltb : Node → Node → bool) adjacency
    positions (start goal : Node) (inside : list Node) :
  start ∈ inside → closed_under adjacency inside = true →
  heap_ordered_on pow2 ltb positions goal inside = true →
  heap_ordered pow2 ltb adjacency positions start goal.
Proof.
  intros Hs Hclosed Hcheck.
  pose proof (reachable_inside adjacency start inside Hs Hclosed) as Hin.
  unfold heap_ordered_on in Hcheck.
  apply andb_true_iff in Hcheck as [Hcheck Hheur].
  apply andb_true_iff in Hcheck as [Hcheck Htotal].
  apply andb_true_iff in Hcheck as [Hirr Htrans].
  rewrite forallb_forall in Hirr, Htrans, Htotal, Hheur.
  split; [split_and!|].
  - intros a Ha. apply Hin, list_elem_of_In, Hirr in Ha.
    by apply negb_true_iff in Ha.
  - intros a b c Ha Hb Hc Hab Hbc.
    apply Hin, list_elem_of_In, Htrans in Ha. rewrite forallb_forall in Ha.
    apply Hin, list_elem_of_In, Ha in Hb. rewrite forallb_forall in Hb.
    apply Hin, list_elem_of_In, Hb in Hc.
    by rewrite Hab, Hbc in Hc.
  - intros a b Ha Hb Hne.
    apply Hin, list_elem_of_In, Htotal in Ha. rewrite forallb_forall in Ha.
    apply Hin, list_elem_of_In, Ha in Hb.
    rewrite bool_decide_eq_false_2 in Hb by done. simpl in Hb.
    by apply orb_true_iff in Hb.
  - intros u Hu. apply Hin, list_elem_of_In, Hheur in Hu.
    destruct (heuristic pow2 positions u goal) as [h| |]; [|done..].
    by exists h.
Qed.

End ClaimLemmas.

Section Claims.

Context {Node : Type} `{Countable Node}.
Variable pow2 : float → option float.
Variable node_ltb : Node → Node → bool.
Implicit Types (adjacency : gmap Node (list Node)).
Implicit Types (positions : gmap Node (float * float)).

(** C1.  Path validity.  For every adjacency mapping, every [start] and
    [goal] that are keys of it, and each of [bfs], [dfs] and [astar]: when
    the call returns a result whose path is not empty, the first node of
    the path is [start], the last is [goal], and of every two consecutive
    nodes [u], [v] of the path, [v] is listed among the neighbours of
    [u]. *)
Theorem path_validity adjacency positions (start goal : Node) (fuel : nat)
    (r : SearchResult) :
  start ∈ dom adjacency → goal ∈ dom adjacency →
  bfs fuel adjacency start goal = Returns r
  ∨ dfs fuel adjacency start goal = Returns r
  ∨ astar pow2 node_ltb fuel adjacency positions start goal = Returns r →
  path r ≠ [] →
  head (path r) = Some start
  ∧ last (path r) = Some goal
  ∧ ∀ i u v, path r !! i = Some u → path r !! S i = Some v →
             v ∈ neighbors adjacency u.
Proof.
  intros _ _ Hr Hp.
  assert (is_path adjacency start goal (path r)) as (Hhead & Hlast & Hlinked).
  { destruct Hr as [Hr|[Hr|Hr]].
    - by apply (frontier_search_path enqueue enqueue_perm _ _ _ fuel r).
    - by apply (frontier_search_path push_top push_top_perm _ _ _ fuel r).
    - by apply (astar_path pow2 node_ltb _ positions _ _ fuel r). }
  split_and!; [done|done|]. intros i u v. by apply linked_lookup.
Qed.

(** C2.  BFS optimality.  For every adjacency mapping and every [start]
    and [goal] that are keys of it with [goal] reachable from [start]:
    [bfs] returns (the same result for every fuel above some bound), the
    path is not empty, it is a path of the graph from [start] to [goal]
    with [distance] edges, and no path from [start] to [goal] has fewer
    edges. *)
Theorem bfs_optimality adjacency (start goal : Node) :
  start ∈ dom adjacency → goal ∈ dom adjacency →
  reachable adjacency start goal →
  ∃ n r,
    (∀ fuel, (n ≤ fuel)%nat → bfs fuel adjacency start goal = Returns r)
    ∧ path r ≠ []
    ∧ is_path adjacency start goal (path r)
    ∧ distance r = edges_of (path r)
    ∧ ∀ p, is_path adjacency start goal p → distance r ≤ edges_of p.
Proof.
  intros _ _ Hreach.
  destruct (frontier_search_reachable enqueue enqueue_perm adjacency
              start goal Hreach) as (n & r & Hn & Hp).
  exists n, r. pose proof (Hn n (le_n _)) as Hr.
  destruct (frontier_search_path enqueue enqueue_perm _ _ _ n r Hr Hp)
    as [Hpath Hdist].
  split_and!; [done|done|done|done|].
  intros p. by apply (bfs_shortest adjacency start goal n).
Qed.

(** C5.  Trivial search.  For every adjacency mapping and every node [n]
    that is a key of it, each of [bfs], [dfs] and [astar] from [n] to [n]
    returns the path [[n]] and the distance 0, having popped [n] alone:
    [visited_count] is 1 and [visited_order] is [[n]]. *)
Theorem trivial_search adjacency positions (n : Node) (fuel : nat) :
  n ∈ dom adjacency → (0 < fuel)%nat →
  bfs fuel adjacency n n = Returns (mkResult [n] 0 1 (Some [n]))
  ∧ dfs fuel adjacency n n = Returns (mkResult [n] 0 1 (Some [n]))
  ∧ astar pow2 node_ltb fuel adjacency positions n n
    = Returns (mkResult [n] 0 1 (Some [n])).
Proof.
  intros _ Hfuel. split_and!.
  - by apply frontier_search_trivial.
  - by apply frontier_search_trivial.
  - by apply astar_trivial.
Qed.

(** C6.  Visitation count consistency.  For each of [bfs], [dfs] and
    [astar] and every input, the result that a call returns has a
    [visited_order] whose length is [visited_count]. *)
Theorem visited_count_consistent adjacency positions (start goal : Node)
    (fuel : nat) (r : SearchResult) :
  bfs fuel adjacency start goal = Returns r
  ∨ dfs fuel adjacency start goal = Returns r
  ∨ astar pow2 node_ltb fuel adjacency positions start goal = Returns r →
  ∃ vo, visited_order r = Some vo ∧ visited_count r = Z.of_nat (length vo).
Proof.
  intros [Hr|[Hr|Hr]].
  - destruct (frontier_search_visited enqueue enqueue_perm _ _ _ _ _ Hr)
      as (vo & ? & ? & _). by exists vo.
  - destruct (frontier_search_visited push_top push_top_perm _ _ _ _ _ Hr)
      as (vo & ? & ? & _). by exists vo.
  - by eapply astar_visited.
Qed.

Lemma discovers_once_holds push adjacency (start goal : Node) :
  (∀ n q, push n q ≡ₚ n :: q) → discovers_once push adjacency start goal.
Proof.
  intros Hpush st Hst. split.
  - apply (search_reaches_inv push Hpush) in Hst. apply Hst.
  - intros st'. apply search_step_grows, Hpush.
Qed.

(** C9.  Single discovery in BFS and DFS.  For every adjacency mapping and
    [start], [goal] that are keys of it, in [bfs] and in [dfs]: at every
    iteration of the search the popped nodes and the frontier together hold
    no node twice, and an iteration only adds nodes to them, so that a node
    enters the frontier at most once; and no node occurs twice in the
    [visited_order] of a returned result. *)
Theorem single_discovery adjacency (start goal : Node) :
  start ∈ dom adjacency → goal ∈ dom adjacency →
  discovers_once enqueue adjacency start goal
  ∧ discovers_once push_top adjacency start goal
  ∧ ∀ fuel r,
      bfs fuel adjacency start goal = Returns r
      ∨ dfs fuel adjacency start goal = Returns r →
      ∃ vo, visited_order r = Some vo ∧ NoDup vo.
Proof.
  intros _ _. split_and!.
  - apply discovers_once_holds, enqueue_perm.
  - apply discovers_once_holds, push_top_perm.
  - intros fuel r [Hr|Hr].
    + destruct (frontier_search_visited enqueue enqueue_perm _ _ _ _ _ Hr)
        as (vo & ? & _ & ?). by exists vo.
    + destruct (frontier_search_visited push_top push_top_perm _ _ _ _ _ Hr)
        as (vo & ? & _ & ?). by exists vo.
Qed.

(** X1.  With a goal that cannot be reached from [start], [bfs] and [dfs]
    do not return: with enough fuel for their loop, both raise [KeyError]
    (from [came_from[goal]] in [reconstruct_path]). *)
Lemma search_unreachable_raises adjacency (start goal : Node) (fuel : nat) :
  ¬ reachable adjacency start goal → (loop_fuel adjacency ≤ fuel)%nat →
  bfs fuel adjacency start goal = Raises KeyError
  ∧ dfs fuel adjacency start goal = Raises KeyError.
Proof.
  intros Hgoal Hfuel. split.
  - by apply (frontier_search_unreachable enqueue enqueue_perm).
  - by apply (frontier_search_unreachable push_top push_top_perm).
Qed.

(** C3, as amended.  Disconnected goal in [astar].  For every adjacency
    mapping, positions, [start] and [goal] that are keys of the mapping
    with [goal] not reachable from [start], where the heap entries can be
    ordered (Python's [<] orders the nodes within reach of [start]
    totally, and [euclidean] returns a number that is not a NaN for each
    of them: no [OverflowError] from [** 2]): [astar] returns (the same
    result for every fuel above some bound) the empty path and the
    distance 0; [visited_count] is the length of [visited_order], which
    holds the nodes reachable from [start] and only them, some possibly
    more than once: [visited_count] is at least 1 and at least the size of
    the component of [start]. *)
Theorem astar_disconnected_goal adjacency positions (start goal : Node) :
  start ∈ dom adjacency → goal ∈ dom adjacency →
  ¬ reachable adjacency start goal →
  heap_ordered pow2 node_ltb adjacency positions start goal →
  ∃ n vo,
    (∀ fuel, (n ≤ fuel)%nat →
       astar pow2 node_ltb fuel adjacency positions start goal
       = Returns (mkResult [] 0 (Z.of_nat (length vo)) (Some vo)))
    ∧ 1 ≤ Z.of_nat (length vo)
    ∧ (∀ v, v ∈ vo ↔ reachable adjacency start v)
    ∧ ∀ component : gset Node,
        (∀ v, v ∈ component ↔ reachable adjacency start v) →
        Z.of_nat (size component) ≤ Z.of_nat (length vo).
Proof.
  intros _ _ Hgoal [_ Hh].
  assert (∀ u, reachable adjacency start u →
               ∃ h, heuristic pow2 positions u goal = Returns h) as Hh'.
  { intros u Hu. destruct (Hh u Hu) as (h & Hhu & _). by exists h. }
  destruct (astar_exhausts pow2 node_ltb adjacency positions start goal
              Hh' Hgoal _ _ _ (astar_initial start)
              (astar_inv_initial node_ltb _ _) eq_refl eq_refl eq_refl)
    as (n & vo & Hn & Hvo).
  exists n, vo. split_and!.
  - intros fuel Hfuel. by apply Hn.
  - assert (start ∈ vo) as Hs by apply Hvo, reachable_refl.
    destruct vo; [by apply elem_of_nil in Hs|]. simpl. lia.
  - done.
  - intros component Hc. apply inj_le.
    change (size component) with (length (elements component)).
    apply submseteq_length, NoDup_submseteq; [apply NoDup_elements|].
    intros v Hv%elem_of_elements. by apply Hvo, Hc.
Qed.


End Claims.

(** ** The claims on concrete graphs *)

Import Examples.

Ltac by_compute :=
  match goal with
  | |- ?P => apply (@bool_decide_unpack P _); vm_compute; exact I
  end.

Lemma agree_on_reference_graphs :
  forallb agree_where_consistent get_all_graphs = true.
Proof. vm_compute. reflexivity. Qed.

(** The goals towards which the Euclidean heuristic is consistent with the
    unit edge costs: five of the urban grid, and none of the other
    graphs, each of whose nodes is at the end of an edge that is longer
    than 1 in the plane. *)
Lemma consistent_goals_of_reference_graphs :
  map (λ entry : string * Graph, (entry.1, consistent_goals entry.2))
      get_all_graphs
  = [ ("UrbanGrid-6x6",
       [Coord 0 3; Coord 0 2; Coord 3 0; Coord 2 0; Coord 1 1]);
      ("Ladder-10", []); ("BinaryTree-15", []); ("HexRing-12", []);
      ("CampusMap", []) ].
Proof. vm_compute. reflexivity. Qed.

(** C8.  [astar] against [bfs] on the reference graphs.  On every
    reference graph, towards every goal [g] for which the Euclidean
    heuristic of the graph's positions is consistent with the unit edge
    costs, and from every start [s] ([s] and [g] keys of the adjacency
    mapping), [astar] and [bfs] return and their distances are equal.
    (A graph whose heuristic is consistent towards each of its goals is a
    special case.) *)
Theorem astar_bfs_on_reference_graphs (name : string) (G : Graph)
    (s g : node) (fuel : nat) :
  (name, G) ∈ get_all_graphs →
  s ∈ dom (adjacency G) → g ∈ dom (adjacency G) →
  consistent_towards G g = true →
  (reference_fuel ≤ fuel)%nat →
  ∃ ra rb,
    astar float_pow2 node_ltb fuel (adjacency G) (positions G) s g
    = Returns ra
    ∧ bfs fuel (adjacency G) s g = Returns rb
    ∧ distance ra = distance rb.
Proof.
  intros HG Hs Hg Hcons Hfuel.
  assert (∀ k, k ∈ dom (adjacency G) →
               In k (map_to_list (adjacency G)).*1) as Hkeys.
  { intros k [x Hk]%elem_of_dom. apply list_elem_of_In, list_elem_of_fmap.
    exists (k, x). split; [done|]. by apply elem_of_map_to_list. }
  pose proof agree_on_reference_graphs as Hall.
  rewrite forallb_forall in Hall.
  apply list_elem_of_In in HG. pose proof (Hall _ HG) as Hagree.
  unfold agree_where_consistent in Hagree.
  simpl in Hagree. rewrite forallb_forall in Hagree.
  assert (In g (consistent_goals G)) as Hgoal.
  { apply filter_In. split; [by apply Hkeys|done]. }
  specialize (Hagree g Hgoal). rewrite forallb_forall in Hagree.
  specialize (Hagree s (Hkeys s Hs)). unfold agree_on in Hagree.
  destruct (astar float_pow2 node_ltb reference_fuel (adjacency G)
              (positions G) s g) as [ra| |] eqn:Ha; [|done..].
  destruct (bfs reference_fuel (adjacency G) s g) as [rb| |] eqn:Hb; [|done..].
  apply Z.eqb_eq in Hagree.
  exists ra, rb. split_and!.
  - rewrite <- Ha. apply astar_mono; [by rewrite Ha|done].
  - unfold bfs in *. rewrite <- Hb.
    apply (frontier_search_mono enqueue); [by rewrite Hb|done].
  - done.
Qed.

(** C10.  [astar] may visit a node more than once.  On the graph
    [detour_through], from node 0 to node 5, node 4 is popped with the
    g-score 3, pushed again with the g-score 2 when node 3 is expanded, and
    popped again: [visited_order] holds it twice and [visited_count] is
    larger than the number of distinct nodes visited. *)
Theorem astar_revisits :
  ∃ (adjacency : gmap node (list node)) (positions : gmap node Position)
    (start goal : node) (r : SearchResult) (vo : list node) (n : node),
    start ∈ dom adjacency ∧ goal ∈ dom adjacency
    ∧ (∀ fuel, (10 ≤ fuel)%nat →
         astar float_pow2 node_ltb fuel adjacency positions start goal = Returns r)
    ∧ visited_order r = Some vo
    ∧ (∃ i j, i ≠ j ∧ vo !! i = Some n ∧ vo !! j = Some n)
    ∧ Z.of_nat (size (list_to_set vo : gset node)) < visited_count r.
Proof.
  exists detour_through, detour_through_positions, (Num 0), (Num 5).
  exists (mkResult [Num 0; Num 3; Num 4; Num 6; Num 5] 4 8
            (Some [Num 0; Num 1; Num 2; Num 4; Num 3; Num 4; Num 6; Num 5])).
  exists [Num 0; Num 1; Num 2; Num 4; Num 3; Num 4; Num 6; Num 5], (Num 4).
  split_and!.
  - by_compute.
  - by_compute.
  - intros fuel Hfuel.
    assert (astar float_pow2 node_ltb 10 detour_through detour_through_positions
              (Num 0) (Num 5)
            = Returns (mkResult [Num 0; Num 3; Num 4; Num 6; Num 5] 4 8
                (Some [Num 0; Num 1; Num 2; Num 4; Num 3; Num 4; Num 6; Num 5])))
      as Hten by (vm_compute; reflexivity).
    rewrite <- Hten. apply astar_mono; [by rewrite Hten|done].
  - done.
  - exists 3%nat, 5%nat. done.
  - vm_compute. reflexivity.
Qed.

(** C3, counterexample.  On two triangles without an edge between them,
    [bfs] and [dfs] from A to D raise [KeyError]; and on [detour], from
    node 0 to node 5, which no edge reaches, [astar] pops node 4 twice:
    [visited_count] is 6, and 5 nodes can be reached from node 0. *)
Lemma disconnected_goal_counterexample :
  bfs 10 two_triangles (Name "A") (Name "D") = Raises KeyError
  ∧ dfs 10 two_triangles (Name "A") (Name "D") = Raises KeyError
  ∧ astar float_pow2 node_ltb 10 detour detour_positions (Num 0) (Num 5)
    = Returns (mkResult [] 0 6
                (Some [Num 0; Num 1; Num 2; Num 4; Num 3; Num 4])).
Proof. split_and!; vm_compute; reflexivity. Qed.

(** C4.  The came-from map of a search from A that never reached D:
    [reconstruct_path] raises [KeyError]. *)
Lemma reconstruct_path_unreached_goal :
  reconstruct_path 10 ({[Name "A" := None]} : gmap node (option node))
                   (Name "A") (Name "D")
  = Raises KeyError.
Proof. apply reconstruct_path_missing; [by_compute|lia]. Qed.

(** Towards a goal for which the heuristic is not consistent the two can
    differ: on the urban grid, from (0, 1) to (2, 2), [astar] returns a
    path of 3 edges and [bfs] one of 2, through the shortcut between
    (0, 0) and (2, 2), which is longer than 1 in the plane. *)
Lemma astar_longer_than_bfs :
  ("UrbanGrid-6x6", urban_grid_6x6) ∈ get_all_graphs
  ∧ Coord 0 1 ∈ dom (adjacency urban_grid_6x6)
  ∧ Coord 2 2 ∈ dom (adjacency urban_grid_6x6)
  ∧ astar float_pow2 node_ltb reference_fuel (adjacency urban_grid_6x6)
          (positions urban_grid_6x6) (Coord 0 1) (Coord 2 2)
    = Returns (mkResult [Coord 0 1; Coord 0 2; Coord 1 2; Coord 2 2] 3 6
                (Some [Coord 0 1; Coord 1 1; Coord 0 2; Coord 1 2;
                       Coord 2 1; Coord 2 2]))
  ∧ bfs reference_fuel (adjacency urban_grid_6x6) (Coord 0 1) (Coord 2 2)
    = Returns (mkResult [Coord 0 1; Coord 0 0; Coord 2 2] 2 6
                (Some [Coord 0 1; Coord 0 0; Coord 1 1; Coord 0 2;
                       Coord 1 0; Coord 2 2]))
  ∧ consistent_towards urban_grid_6x6 (Coord 2 2) = false
  ∧ heuristic float_pow2 (positions urban_grid_6x6) (Coord 0 0) (Coord 2 2)
    = Returns 0x1.6a09e667f3bcdp+1%float.
Proof.
  split_and!; [apply list_elem_of_here|by_compute|by_compute|
               vm_compute; reflexivity..].
Qed.

(** ** The scenarios of the spec and the g-scores *)

(** The path graph A - B - C: [bfs] and [dfs] from A to C. *)
Example path_graph_bfs :
  bfs 10 path_graph (Name "A") (Name "C")
  = Returns (mkResult [Name "A"; Name "B"; Name "C"] 2 3
                      (Some [Name "A"; Name "B"; Name "C"])).
Proof. vm_compute. reflexivity. Qed.

Example path_graph_dfs :
  dfs 10 path_graph (Name "A") (Name "C")
  = Returns (mkResult [Name "A"; Name "B"; Name "C"] 2 3
                      (Some [Name "A"; Name "B"; Name "C"])).
Proof. vm_compute. reflexivity. Qed.

(** Two triangles: [astar] from A to D visits A, B and C. *)
Example two_triangles_astar :
  astar float_pow2 node_ltb 10 two_triangles ∅ (Name "A") (Name "D")
  = Returns (mkResult [] 0 3 (Some [Name "A"; Name "B"; Name "C"])).
Proof. vm_compute. reflexivity. Qed.

Example euclidean_3_4 :
  euclidean float_pow2 (0, 0)%float (3, 4)%float = Returns 5%float.
Proof. vm_compute. reflexivity. Qed.

(** Where [** 2] overflows, [euclidean] raises. *)
Example euclidean_overflow :
  euclidean float_pow2 (0x1.4e718d7d7625ap+664, 0)%float (0, 0)%float
  = Raises OverflowError.
Proof. vm_compute. reflexivity. Qed.

(** The g-scores of a search that visits fewer than 200 nodes: adding
    [1.0] to the float of a count gives the float of the next count, and
    [<] on the floats is [<] on the counts. *)
Example g_scores_are_counts :
  forallb (λ n, PrimFloat.Leibniz.eqb
                  (PrimFloat.add (float_of_count n) 1%float)
                  (float_of_count (S n)))
          (seq 0 200) = true
  ∧ forallb (λ a, forallb (λ b, Bool.eqb
                                  (PrimFloat.ltb (float_of_count a)
                                                 (float_of_count b))
                                  (Nat.ltb a b))
                          (seq 0 200))
            (seq 0 200) = true.
Proof. split; vm_compute; reflexivity. Qed.

(** ** The theorems at concrete inputs *)

(** C1 on the path graph A - B - C, for the result of [bfs] from A to C. *)
Lemma path_validity_witness :
  head [Name "A"; Name "B"; Name "C"] = Some (Name "A")
  ∧ last [Name "A"; Name "B"; Name "C"] = Some (Name "C")
  ∧ ∀ i u v, [Name "A"; Name "B"; Name "C"] !! i = Some u →
             [Name "A"; Name "B"; Name "C"] !! S i = Some v →
             v ∈ neighbors path_graph u.
Proof.
  apply (path_validity float_pow2 node_ltb path_graph ∅ (Name "A") (Name "C") 10
           (mkResult [Name "A"; Name "B"; Name "C"] 2 3
                     (Some [Name "A"; Name "B"; Name "C"]))).
  - by_compute.
  - by_compute.
  - left. vm_compute. reflexivity.
  - discriminate.
Defined.

Lemma path_graph_reachable : reachable path_graph (Name "A") (Name "C").
Proof.
  exists [Name "A"; Name "B"; Name "C"]. split_and!; [done|done|].
  simpl. unfold edge. split_and!; [by_compute|by_compute|done].
Qed.

(** C2 on the path graph A - B - C, from A to C. *)
Lemma bfs_optimality_witness :
  ∃ n r,
    (∀ fuel, (n ≤ fuel)%nat →
       bfs fuel path_graph (Name "A") (Name "C") = Returns r)
    ∧ path r ≠ []
    ∧ is_path path_graph (Name "A") (Name "C") (path r)
    ∧ distance r = edges_of (path r)
    ∧ ∀ p, is_path path_graph (Name "A") (Name "C") p →
           distance r ≤ edges_of p.
Proof.
  apply (bfs_optimality path_graph (Name "A") (Name "C")).
  - by_compute.
  - by_compute.
  - exact path_graph_reachable.
Defined.

Lemma two_triangles_unreachable :
  ¬ reachable two_triangles (Name "A") (Name "D").
Proof.
  apply (unreachable_outside _ _ _ [Name "A"; Name "B"; Name "C"]).
  - by_compute.
  - by_compute.
  - vm_compute. reflexivity.
Qed.

(** C3, as amended, on the two triangles, from A to D. *)
Lemma astar_disconnected_goal_witness :
  ∃ n vo,
    (∀ fuel, (n ≤ fuel)%nat →
       astar float_pow2 node_ltb fuel two_triangles ∅ (Name "A") (Name "D")
       = Returns (mkResult [] 0 (Z.of_nat (length vo)) (Some vo)))
    ∧ 1 ≤ Z.of_nat (length vo)
    ∧ (∀ v, v ∈ vo ↔ reachable two_triangles (Name "A") v)
    ∧ ∀ component : gset node,
        (∀ v, v ∈ component ↔ reachable two_triangles (Name "A") v) →
        Z.of_nat (size component) ≤ Z.of_nat (length vo).
Proof.
  apply (astar_disconnected_goal float_pow2 node_ltb two_triangles ∅
           (Name "A") (Name "D")).
  - by_compute.
  - by_compute.
  - exact two_triangles_unreachable.
  - apply (heap_ordered_on_sound _ _ _ _ _ _
             [Name "A"; Name "B"; Name "C"]).
    + by_compute.
    + vm_compute. reflexivity.
    + vm_compute. reflexivity.
Defined.

(** C5 on the path graph, at node A. *)
Lemma trivial_search_witness :
  bfs 1 path_graph (Name "A") (Name "A")
  = Returns (mkResult [Name "A"] 0 1 (Some [Name "A"]))
  ∧ dfs 1 path_graph (Name "A") (Name "A")
    = Returns (mkResult [Name "A"] 0 1 (Some [Name "A"]))
  ∧ astar float_pow2 node_ltb 1 path_graph ∅ (Name "A") (Name "A")
    = Returns (mkResult [Name "A"] 0 1 (Some [Name "A"])).
Proof.
  apply (trivial_search float_pow2 node_ltb path_graph ∅ (Name "A") 1).
  - by_compute.
  - lia.
Defined.

(** C6 for the result of [dfs] on the path graph, from A to C. *)
Lemma visited_count_consistent_witness :
  ∃ vo, Some [Name "A"; Name "B"; Name "C"] = Some vo
        ∧ 3 = Z.of_nat (length vo).
Proof.
  apply (visited_count_consistent float_pow2 node_ltb path_graph ∅
           (Name "A") (Name "C") 10
           (mkResult [Name "A"; Name "B"; Name "C"] 2 3
                     (Some [Name "A"; Name "B"; Name "C"]))).
  right. left. vm_compute. reflexivity.
Defined.

(** C8 on the urban grid, from (5, 5) to (1, 1). *)
Lemma astar_bfs_on_reference_graphs_witness :
  ∃ ra rb,
    astar float_pow2 node_ltb reference_fuel (adjacency urban_grid_6x6)
          (positions urban_grid_6x6) (Coord 5 5) (Coord 1 1) = Returns ra
    ∧ bfs reference_fuel (adjacency urban_grid_6x6) (Coord 5 5) (Coord 1 1)
      = Returns rb
    ∧ distance ra = distance rb.
Proof.
  apply (astar_bfs_on_reference_graphs "UrbanGrid-6x6" urban_grid_6x6
           (Coord 5 5) (Coord 1 1) reference_fuel).
  - apply list_elem_of_here.
  - by_compute.
  - by_compute.
  - vm_compute. reflexivity.
  - lia.
Defined.

(** C9 on the path graph, from A to C. *)
Lemma single_discovery_witness :
  discovers_once enqueue path_graph (Name "A") (Name "C")
  ∧ discovers_once push_top path_graph (Name "A") (Name "C")
  ∧ ∀ fuel r,
      bfs fuel path_graph (Name "A") (Name "C") = Returns r
      ∨ dfs fuel path_graph (Name "A") (Name "C") = Returns r →
      ∃ vo, visited_order r = Some vo ∧ NoDup vo.
Proof.
  apply (single_discovery path_graph (Name "A") (Name "C")).
  - by_compute.
  - by_compute.
Defined.


(** * Further properties of the code *)

(** ** reconstruct_path on any came-from map *)

Section MoreReconstructFacts.

Context {Node : Type} `{Countable Node}.
Implicit Types (came_from : gmap Node (option Node)) (l : list Node).

(** The chain from a node of a chain is the rest of the chain. *)
Lemma back_chain_suffix came_from cur l x :
  back_chain came_from cur l → x ∈ l →
  ∃ l1 l2, l = l1 ++ l2 ∧ back_chain came_from (Some x) l2.
Proof.
  induction 1 as [|c next l Hc Hl IH]; intros Hx; [by apply elem_of_nil in Hx|].
  apply elem_of_cons in Hx as [-> | Hx].
  - exists [], (c :: l). split; [done|]. by econstructor.
  - destruct (IH Hx) as (l1 & l2 & -> & Hl2). by exists (c :: l1), l2.
Qed.

(** No node occurs twice in a chain. *)
Lemma back_chain_NoDup came_from cur l : back_chain came_from cur l → NoDup l.
Proof.
  induction 1 as [|c next l Hc Hl IH]; [constructor|].
  apply NoDup_cons. split; [|done]. intros Hin.
  destruct (back_chain_suffix _ _ _ _ Hl Hin) as (l1 & l2 & -> & Hl2).
  assert (back_chain came_from (Some c) (c :: l1 ++ l2)) as Hfull
    by by econstructor.
  pose proof (back_chain_det _ _ _ _ Hl2 Hfull) as Heq.
  apply (f_equal length) in Heq. simpl in Heq. rewrite length_app in Heq. lia.
Qed.

Lemma reconstruct_path_NoDup fuel came_from start goal p :
  reconstruct_path fuel came_from start goal = Returns p → NoDup p.
Proof.
  intros Hr. destruct p as [|x p]; [constructor|].
  destruct (reconstruct_path_returns _ _ _ _ _ Hr) as (l & Hl & Hp & _);
    [done|].
  rewrite Hp, reverse_Permutation. by eapply back_chain_NoDup.
Qed.

(** X5.  When the came-from map has a chain from [goal] down to an entry
    [None], [reconstruct_path] returns (for every fuel that covers the
    chain) the chain reversed if it ends at [start], and the empty list if
    it ends at another node. *)
Theorem reconstruct_path_of_chain came_from (start goal : Node) l fuel :
  back_chain came_from (Some goal) l → (length l ≤ fuel)%nat →
  (last l = Some start →
   reconstruct_path fuel came_from start goal = Returns (reverse l))
  ∧ (last l ≠ Some start →
     reconstruct_path fuel came_from start goal = Returns []).
Proof.
  intros Hl Hfuel. rewrite (reconstruct_path_chain _ _ _ _ l Hl Hfuel).
  split; intros Hlast; [by rewrite decide_True|by rewrite decide_False].
Qed.

Lemma walk_back_cycle fuel came_from c acc :
  (∀ v x, came_from !! v = Some x →
          ∃ u, x = Some u ∧ is_Some (came_from !! u)) →
  is_Some (came_from !! c) →
  walk_back fuel came_from (Some c) acc = OutOfFuel.
Proof.
  intros Hclosed. revert c acc.
  induction fuel as [|fuel IH]; intros c acc [x Hc]; simpl; [done|].
  rewrite Hc. destruct (Hclosed c x Hc) as (u & -> & Hu). by apply IH.
Qed.

(** X6.  On a came-from map without end (every entry names a node that
    has an entry itself, so the map holds a cycle), [reconstruct_path] from
    a goal that has an entry never leaves its loop: no fuel is enough. *)
Theorem reconstruct_path_cycle came_from (start goal : Node) :
  (∀ v x, came_from !! v = Some x →
          ∃ u, x = Some u ∧ is_Some (came_from !! u)) →
  is_Some (came_from !! goal) →
  ∀ fuel, reconstruct_path fuel came_from start goal = OutOfFuel.
Proof.
  intros Hclosed Hgoal fuel. unfold reconstruct_path.
  by rewrite walk_back_cycle.
Qed.

End MoreReconstructFacts.

(** ** More on the loop shared by bfs and dfs *)

Section MoreFrontierFacts.

Context {Node : Type} `{Countable Node}.
Variable push : Node → list Node → list Node.
Hypothesis push_perm : ∀ n q, push n q ≡ₚ n :: q.
Variable adjacency : gmap Node (list Node).
Variables start goal : Node.

Implicit Types (cf : gmap Node (option Node)) (ord fr ns : list Node).
Implicit Types (st : @search_state Node _ _).

Local Abbreviation search_inv := (search_inv adjacency start goal).

(** The state that the loop of a search ends in, with the invariant of
    the state it was left from. *)
Lemma search_loop_final (I : @search_state Node _ _ → Prop) fuel st' :
  I (initial_state start) →
  (∀ st1 st2, search_inv st1 → I st1 →
     search_step push adjacency goal st1 = (Running, st2) → I st2) →
  search_loop push fuel adjacency goal (initial_state start) = Some st' →
  ∃ st0, search_inv st0 ∧ I st0
    ∧ came_from st' = came_from st0
    ∧ (∀ v, v ∈ order st0 → v ∈ order st')
    ∧ (is_Some (came_from st0 !! goal) → goal ∈ order st')
    ∧ (∀ v, v ∈ order st' →
            v ∈ order st0 ∨ (v = goal ∧ is_Some (came_from st0 !! goal))).
Proof.
  intros Hinit Hkeep Hloop.
  destruct (search_loop_post_gen push adjacency goal
              (λ st, search_inv st ∧ I st) fuel (initial_state start) st')
    as (st0 & [Hinv HI] & Hstep).
  - intros st1 st2 [Hinv1 HI1] Hstep. split.
    + by eapply (search_step_inv push push_perm).
    + by eapply Hkeep.
  - split; [apply search_inv_initial|done].
  - done.
  - exists st0. split_and!; [done|done|..].
    + by apply search_step_finished in Hstep as [[_ ->]|(rest & _ & ->)].
    + apply search_step_finished in Hstep as [[_ ->]|(rest & _ & ->)];
        [done|]. simpl. intros v Hv. apply elem_of_app. by left.
    + intros Hg.
      apply search_step_finished in Hstep as [[Hfr ->]|(rest & _ & ->)].
      * apply (d_dom _ _ _ _ _ (inv_discovered _ _ _ _ Hinv)) in Hg.
        by rewrite Hfr, app_nil_r in Hg.
      * simpl. apply elem_of_app. right. by left.
    + apply search_step_finished in Hstep as [[_ ->]|(rest & Hfr & ->)];
        [by left|]. simpl.
      intros v [Hv | ->%list_elem_of_singleton]%elem_of_app; [by left|].
      right. split; [done|].
      apply (d_dom _ _ _ _ _ (inv_discovered _ _ _ _ Hinv)).
      rewrite Hfr. apply elem_of_app. right. by left.
Qed.

Lemma discover_all_parents cur ord ns cf fr :
  parents_popped cf ord → cur ∈ ord →
  parents_popped (foldl (discover push cur) (cf, fr) ns).1 ord.
Proof.
  intros Hp Hcur. revert cf fr Hp.
  induction ns as [|nb ns IH]; intros cf fr Hp; simpl; [done|].
  destruct (cf !! nb) as [x|] eqn:Hnb.
  - rewrite discover_known by (by rewrite Hnb). by apply IH.
  - rewrite discover_fresh by done. apply IH. intros v u.
    destruct (decide (nb = v)) as [-> | Hne].
    + rewrite lookup_insert_eq. by intros [= <-].
    + rewrite lookup_insert_ne by done. apply Hp.
Qed.

Lemma search_step_parents st st' :
  parents_popped (came_from st) (order st) →
  search_step push adjacency goal st = (Running, st') →
  parents_popped (came_from st') (order st').
Proof.
  intros Hp (cur & rest & _ & _ & ->)%search_step_running. simpl.
  apply discover_all_parents.
  - intros v u Hv. apply elem_of_app. left. by eapply Hp.
  - apply elem_of_app. right. by left.
Qed.

Lemma back_chain_parents cf ord v l x :
  parents_popped cf ord → back_chain cf (Some v) l → x ∈ l →
  x = v ∨ x ∈ ord.
Proof.
  intros Hp. remember (Some v) as cur eqn:Hcur. intros Hl. revert v Hcur.
  induction Hl as [|c next l Hc Hl IH]; intros v Hcur Hx;
    [by apply elem_of_nil in Hx|].
  simplify_eq. apply elem_of_cons in Hx as [-> | Hx]; [by left|]. right.
  destruct next as [u|]; [|inversion Hl; simplify_eq; by apply elem_of_nil in Hx].
  destruct (IH u eq_refl Hx) as [-> | Hord]; [by eapply Hp|done].
Qed.

(** What a call of [bfs] or [dfs] returns: a path that is not empty and
    repeats no node, whose nodes were all popped; and only nodes that can
    be reached from [start] were popped. *)
Lemma frontier_search_result fuel r :
  frontier_search push fuel adjacency start goal = Returns r →
  path r ≠ [] ∧ NoDup (path r)
  ∧ ∃ vo, visited_order r = Some vo
          ∧ (∀ v, v ∈ path r → v ∈ vo)
          ∧ (∀ v, v ∈ vo → reachable adjacency start v).
Proof.
  unfold frontier_search. intros Hr.
  destruct (search_loop push fuel adjacency goal (initial_state start))
    as [st'|] eqn:Hloop; [|done].
  destruct (reconstruct_path fuel (came_from st') start goal)
    as [p| |] eqn:Hrec; [|done..].
  simplify_eq. simpl.
  destruct (search_loop_final
              (λ st, parents_popped (came_from st) (order st)) fuel st')
    as (st0 & Hinv & Hparents & Hcf & Hsub & Hgoal & Hback); [| |done|].
  { intros v u Hv. simpl in Hv. apply lookup_singleton_Some in Hv.
    naive_solver. }
  { intros st1 st2 _. apply search_step_parents. }
  pose proof (inv_discovered _ _ _ _ Hinv) as Hdisc.
  rewrite Hcf in Hrec. pose proof (reconstruct_path_NoDup _ _ _ _ _ Hrec) as Hnodup.
  unfold reconstruct_path in Hrec.
  destruct (walk_back fuel (came_from st0) (Some goal) []) as [q| |] eqn:Hw;
    [|done..].
  apply walk_back_returns in Hw as (l & Hl & ->). simpl in Hrec.
  destruct (back_chain_last _ _ _ Hl) as (x & Hlast & Hroot).
  apply (d_root _ _ _ _ _ Hdisc) in Hroot as ->.
  destruct (last_Some l start) as [[l0 Hl0] _]; [done|].
  rewrite Hl0, reverse_snoc, decide_True in Hrec by done.
  simplify_eq.
  assert (is_Some (came_from st0 !! goal)) as Hg.
  { inversion Hl; simplify_eq; by eexists. }
  split_and!; [done|done|].
  - exists (order st'). split_and!; [done| |].
    + intros v Hv. rewrite <- reverse_snoc, elem_of_reverse in Hv.
      destruct (back_chain_parents _ _ _ _ _ Hparents Hl Hv) as [-> | Hord].
      * by apply Hgoal.
      * by apply Hsub.
    + intros v Hv. eapply discovered_reachable; [done|].
      destruct (Hback v Hv) as [Hord | [-> _]]; [|done].
      apply (d_dom _ _ _ _ _ Hdisc). apply elem_of_app. by left.
Qed.

(** The first node popped is [start], and the search stops when it pops
    [goal]: a search that returns has popped [goal] last. *)
Lemma frontier_search_order fuel r :
  frontier_search push fuel adjacency start goal = Returns r →
  ∃ vo, visited_order r = Some vo
        ∧ head vo = Some start ∧ last vo = Some goal.
Proof.
  unfold frontier_search. intros Hr.
  destruct (search_loop push fuel adjacency goal (initial_state start))
    as [st'|] eqn:Hloop; [|done].
  destruct (reconstruct_path fuel (came_from st') start goal)
    as [p| |] eqn:Hrec; [|done..].
  simplify_eq. simpl. exists (order st'). split; [done|].
  destruct (search_loop_post_gen push adjacency goal
              (λ st, search_inv st
                     ∧ starts_at start (order st) (frontier st) [start])
              fuel (initial_state start) st')
    as (st0 & [Hinv Hst] & Hstep).
  - intros st1 st2 [Hinv1 Hst1] Hstep. split.
    + by eapply (search_step_inv push push_perm).
    + apply search_step_running in Hstep as (cur & rest & Hfr & Hne & ->).
      simpl. right. destruct Hst1 as [[Ho Hf] | Hh].
      * rewrite Ho. rewrite Hfr in Hf. by simplify_eq.
      * by destruct (order st1).
  - split; [apply search_inv_initial|by left].
  - done.
  - apply search_step_finished in Hstep as [[Hfr ->] | (rest & Hfr & ->)].
    + exfalso. destruct fuel as [|fuel]; [done|].
      destruct (came_from st0 !! goal) as [x|] eqn:Hg.
      * apply (inv_goal _ _ _ _ Hinv).
        assert (goal ∈ order st0 ++ frontier st0) as Hin.
        { apply (d_dom _ _ _ _ _ (inv_discovered _ _ _ _ Hinv)).
          by eexists. }
        by rewrite Hfr, app_nil_r in Hin.
      * rewrite reconstruct_path_missing in Hrec; [done|done|lia].
    + simpl. split; [|by rewrite last_snoc].
      destruct Hst as [[Ho Hf] | Hh].
      * rewrite Ho. rewrite Hfr in Hf. by simplify_eq.
      * by destruct (order st0).
Qed.

End MoreFrontierFacts.

(** ** bfs: the order of the visits *)

Section MoreBfsFacts.

Context {Node : Type} `{Countable Node}.
Variable adjacency : gmap Node (list Node).
Variables start goal : Node.

Implicit Types (cf : gmap Node (option Node)) (ord fr : list Node).
Implicit Types (st : @search_state Node _ _).

Local Abbreviation bfs_inv := (bfs_inv adjacency start goal).

(** Popping the head of the queue keeps the popped nodes in the order of
    their depth. *)
Lemma by_level_pop cf ord cur rest k :
  layered cf ord (cur :: rest) k → by_level cf ord →
  by_level cf (ord ++ [cur]).
Proof.
  intros Hlay Hord i j u v a b Hij Hu Hv Ha Hb.
  destruct (layered_pop _ _ _ _ _ Hlay) as (kc & Hkc & [_ Hbelow] & _).
  destruct (decide (j < length ord)%nat) as [Hj | Hj].
  - rewrite lookup_app_l in Hu, Hv by lia. by eapply (Hord i j).
  - pose proof (lookup_lt_Some _ _ _ Hv) as Hlen.
    rewrite length_app in Hlen. simpl in Hlen.
    assert (j = length ord) as -> by lia.
    rewrite lookup_app_r, Nat.sub_diag in Hv by lia. simpl in Hv.
    simplify_eq. rewrite (level_det _ _ _ _ Hb Hkc).
    destruct (Hbelow u) as (a' & Ha' & Hle);
      [by eapply list_elem_of_lookup_2|].
    by rewrite (level_det _ _ _ _ Ha Ha').
Qed.

Lemma by_level_mono cf cf' ord :
  (∀ v i, level cf v i → level cf' v i) →
  (∀ u, u ∈ ord → ∃ k, level cf u k) →
  by_level cf ord → by_level cf' ord.
Proof.
  intros Hup Hlev Hord i j u v a b Hij Hu Hv Ha Hb.
  destruct (Hlev u) as [a0 Ha0]; [by eapply list_elem_of_lookup_2|].
  destruct (Hlev v) as [b0 Hb0]; [by eapply list_elem_of_lookup_2|].
  rewrite (level_det _ _ _ _ Ha (Hup _ _ Ha0)),
          (level_det _ _ _ _ Hb (Hup _ _ Hb0)).
  by eapply (Hord i j u v).
Qed.

Lemma bfs_step_by_level st st' :
  bfs_inv st → by_level (came_from st) (order st) →
  search_step enqueue adjacency goal st = (Running, st') →
  by_level (came_from st') (order st').
Proof.
  intros (Hinv & [k Hlay] & Hclosed) Hord Hstep.
  pose proof (inv_discovered _ _ _ _ Hinv) as Hdisc.
  apply search_step_running in Hstep as (cur & rest & Hfr & Hne & ->).
  simpl. rewrite Hfr in Hlay, Hdisc.
  pose proof (by_level_pop _ _ _ _ _ Hlay Hord) as Hord'.
  destruct (layered_pop _ _ _ _ _ Hlay) as (kc & Hkc & Hlay' & _).
  apply discovered_pop in Hdisc.
  destruct (bfs_discover_all adjacency start cur kc (order st)
              (order st ++ [cur]) (neighbors adjacency cur)
              (came_from st) rest)
    as (H1 & H2 & H3 & H4); try done.
  { apply elem_of_app. right. by left. }
  { intros u Hu. apply elem_of_app. by left. }
  apply (by_level_mono (came_from st)); [done| |done].
  intros u Hu. destruct (lay_order _ _ _ _ Hlay' u Hu) as (j & Hj & _).
  by exists j.
Qed.

(** No path from a node of depth [j] to a node of depth [b] has fewer
    than [b - j] edges. *)
Lemma bfs_far_walk st v b :
  bfs_inv st → level (came_from st) v b →
  ∀ p u j m,
    head p = Some u → last p = Some v → linked adjacency p →
    level (came_from st) u j → (j ≤ m)%nat →
    (b ≤ m + (length p - 1))%nat.
Proof.
  intros (Hinv & [k Hlay] & Hclosed) Hb.
  pose proof Hinv as [Hdisc _ _ _].
  assert (∀ x i, level (came_from st) x i → x ∈ order st ++ frontier st)
    as Hdom.
  { intros x i (l & Hl & _). apply (d_dom _ _ _ _ _ Hdisc).
    inversion Hl; simplify_eq. by eexists. }
  assert (b ≤ S k)%nat as Hbk.
  { destruct (layered_below _ _ _ _ v Hlay (Hdom _ _ Hb)) as (i & Hi & Hle).
    by rewrite (level_det _ _ _ _ Hb Hi). }
  destruct Hlay as [(A & B & HAB & HA & HB) _].
  induction p as [|a p IH]; intros u j m Hhead Hlast Hlinked Hj Hle; [done|].
  simpl in Hhead. simplify_eq. destruct p as [|w p].
  - simpl in Hlast. simplify_eq.
    pose proof (level_det _ _ _ _ Hb Hj). simpl. lia.
  - destruct Hlinked as [Huw Hlinked].
    pose proof (Hdom _ _ Hj) as Hu. apply elem_of_app in Hu as [Hu|Hu].
    + destruct (Hclosed u w j Hu Huw Hj) as (i & Hi & Hi').
      specialize (IH w i (S m) eq_refl Hlast Hlinked Hi).
      simpl in *. lia.
    + rewrite HAB in Hu. apply elem_of_app in Hu as [Hu|Hu].
      * pose proof (level_det _ _ _ _ Hj (HA _ Hu)). simpl. lia.
      * pose proof (level_det _ _ _ _ Hj (HB _ Hu)). simpl. lia.
Qed.

(** [bfs] pops the nodes in the order of their distance from [start]. *)
Lemma bfs_order_nearest_first fuel r :
  bfs fuel adjacency start goal = Returns r →
  ∃ vo, visited_order r = Some vo
    ∧ ∀ i j u v q,
        (i ≤ j)%nat → vo !! i = Some u → vo !! j = Some v →
        is_path adjacency start v q →
        ∃ p, is_path adjacency start u p ∧ edges_of p ≤ edges_of q.
Proof.
  unfold bfs, frontier_search. intros Hr.
  destruct (search_loop enqueue fuel adjacency goal (initial_state start))
    as [st'|] eqn:Hloop; [|done].
  destruct (reconstruct_path fuel (came_from st') start goal)
    as [p0| |] eqn:Hrec; [|done..].
  simplify_eq. simpl. exists (order st'). split; [done|].
  destruct (search_loop_post_gen enqueue adjacency goal
              (λ st, bfs_inv st ∧ by_level (came_from st) (order st))
              fuel (initial_state start) st')
    as (st0 & [Hinv Hord] & Hstep).
  - intros st1 st2 [Hinv1 Hord1] Hstep.
    split; [by eapply bfs_step_inv|by eapply bfs_step_by_level].
  - split; [apply bfs_inv_initial|]. by intros i j u v a b _ Hu.
  - done.
  - pose proof Hinv as (Hsinv & [k Hlay] & Hclosed).
    pose proof (inv_discovered _ _ _ _ Hsinv) as Hdisc.
    assert (by_level (came_from st0) (order st')
            ∧ ∀ x, x ∈ order st' → x ∈ order st0 ++ frontier st0)
      as (Hord' & Hsub).
    { apply search_step_finished in Hstep as [[Hfr ->] | (rest & Hfr & ->)].
      - split; [done|]. intros x Hx. apply elem_of_app. by left.
      - simpl. rewrite Hfr in Hlay. split; [by eapply by_level_pop|].
        intros x Hx. rewrite Hfr.
        apply elem_of_app in Hx as [Hx | ->%list_elem_of_singleton];
          apply elem_of_app; [by left|right; by left]. }
    intros i j u v q Hij Hu Hv Hq.
    assert (∀ x, x ∈ order st' → ∃ a, level (came_from st0) x a) as Hlev.
    { intros x Hx.
      apply (level_exists adjacency start _ (order st0) (frontier st0));
        [done|].
      apply (d_dom _ _ _ _ _ Hdisc). by apply Hsub. }
    destruct (Hlev u) as [a Ha]; [by eapply list_elem_of_lookup_2|].
    destruct (Hlev v) as [b Hb]; [by eapply list_elem_of_lookup_2|].
    pose proof (Hord' i j u v a b Hij Hu Hv Ha Hb) as Hab.
    destruct Hq as (Hhead & Hlast & Hlinked).
    assert (level (came_from st0) start 0) as Hks.
    { exists [start]. split; [|done].
      econstructor; [apply Hdisc|constructor]. }
    pose proof (bfs_far_walk st0 v b Hinv Hb q start 0%nat 0%nat
                  Hhead Hlast Hlinked Hks (le_n _)) as Hwalk.
    destruct Ha as (l & Hl & Hlen).
    exists (reverse l). split.
    + apply (back_chain_path adjacency (came_from st0)); [apply Hdisc..|done].
    + unfold edges_of. rewrite length_reverse.
      destruct q; [done|]. simpl in *. lia.
Qed.

End MoreBfsFacts.

(** ** More on astar: the came-from tree *)

Section MoreAstarFacts.

Context {Node : Type} `{Countable Node}.
Variable pow2 : float → option float.
Variable node_ltb : Node → Node → bool.
Variable adjacency : gmap Node (list Node).
Variable positions : gmap Node (float * float).
Variables start goal : Node.

Implicit Types (st : @astar_state Node _ _).

Local Abbreviation astar_inv := (astar_inv adjacency start).
Local Abbreviation astar_tree := (astar_tree start goal).
Local Abbreviation heappop := (heappop node_ltb).
Local Abbreviation astar_loop := (astar_loop pow2 node_ltb).

Lemma astar_tree_initial : astar_tree (astar_initial start).
Proof.
  split; simpl.
  - apply lookup_singleton_eq.
  - apply lookup_singleton_eq.
  - intros v Hv. apply lookup_singleton_Some in Hv. naive_solver.
  - intros v. rewrite !lookup_singleton_is_Some. done.
  - intros v u Hv. apply lookup_singleton_Some in Hv. naive_solver.
  - intros v u Hv. apply lookup_singleton_Some in Hv. naive_solver.
  - apply not_elem_of_nil.
Qed.

(** One turn of the [for] loop keeps the tree. *)
Lemma relax_tree cur st nb st' :
  astar_tree st → cur ∈ a_order st →
  relax pow2 positions goal cur st nb = Returns st' →
  astar_tree st' ∧ a_order st' = a_order st.
Proof.
  intros [Hsc Hsg Hroot Hdom Hdown Hpar Hgoal] Hcur. unfold relax.
  destruct (g_score st !! cur) as [gc|] eqn:Hgc; [|done].
  destruct (improves (g_score st) nb (gc + 1)) eqn:Himp; last first.
  { by intros [= <-]. }
  destruct (heuristic pow2 positions nb goal) as [h| |]; simpl; [|done..].
  intros [= <-]. simpl. split; [|done].
  assert (nb ≠ start) as Hns.
  { intros ->. unfold improves in Himp. rewrite Hsg in Himp.
    by apply Nat.ltb_lt in Himp; lia. }
  assert (nb ≠ cur) as Hnc.
  { intros ->. unfold improves in Himp. rewrite Hgc in Himp.
    apply Nat.ltb_lt in Himp. lia. }
  split; simpl.
  - by rewrite lookup_insert_ne.
  - by rewrite lookup_insert_ne.
  - intros v. destruct (decide (nb = v)) as [-> | Hne].
    + by rewrite lookup_insert_eq.
    + rewrite lookup_insert_ne by done. apply Hroot.
  - intros v. rewrite !lookup_insert_is_Some. by rewrite Hdom.
  - intros v u. destruct (decide (nb = v)) as [-> | Hne].
    + rewrite lookup_insert_eq. intros [= <-].
      exists (gc + 1)%nat, gc. rewrite lookup_insert_eq.
      rewrite lookup_insert_ne by done. split_and!; [done|done|lia].
    + rewrite lookup_insert_ne by done. intros Hv.
      destruct (Hdown v u Hv) as (gv & gu & Hgv & Hgu & Hlt).
      rewrite (lookup_insert_ne _ nb v) by done.
      destruct (decide (nb = u)) as [-> | Hnu].
      * exists gv, (gc + 1)%nat. rewrite lookup_insert_eq.
        unfold improves in Himp. rewrite Hgu in Himp.
        apply Nat.ltb_lt in Himp. split_and!; [done|done|lia].
      * exists gv, gu. by rewrite lookup_insert_ne.
  - intros v u. destruct (decide (nb = v)) as [-> | Hne].
    + rewrite lookup_insert_eq. by intros [= <-].
    + rewrite lookup_insert_ne by done. apply Hpar.
  - done.
Qed.

Lemma relax_all_tree cur ns st st' :
  astar_tree st → cur ∈ a_order st →
  for_each (relax pow2 positions goal cur) st ns = Returns st' →
  astar_tree st' ∧ a_order st' = a_order st.
Proof.
  revert st. induction ns as [|nb ns IH]; intros st Htree Hcur; simpl.
  - by intros [= <-].
  - destruct (relax pow2 positions goal cur st nb) as [st1| |] eqn:Hrelax;
      simpl; [|done..].
    destruct (relax_tree cur st nb st1 Htree Hcur Hrelax) as [Htree1 Ho1].
    intros Hrest. destruct (IH st1 Htree1) as [Htree' Ho']; [by rewrite Ho1|done|].
    split; [done|congruence].
Qed.

(** One iteration that does not pop the goal keeps the tree. *)
Lemma astar_iteration_tree st cur heap' st' :
  astar_tree st → cur ≠ goal →
  for_each (relax pow2 positions goal cur)
    (mkAstar heap' (a_came_from st) (g_score st) (a_count st + 1)
             (a_order st ++ [cur]))
    (neighbors adjacency cur) = Returns st' →
  astar_tree st'.
Proof.
  intros [Hsc Hsg Hroot Hdom Hdown Hpar Hgoal] Hcur Hfold.
  eapply (relax_all_tree cur); [| |exact Hfold]; simpl.
  - split; simpl; try done.
    + intros v u Hv. apply elem_of_app. left. by eapply Hpar.
    + intros [Hg | Hg%list_elem_of_singleton]%elem_of_app; done.
  - apply elem_of_app. right. by left.
Qed.

(** Every node with a g-score has a chain down to [start], no longer
    than its g-score. *)
Lemma astar_tree_chain st v gv :
  astar_tree st → g_score st !! v = Some gv →
  ∃ l, back_chain (a_came_from st) (Some v) l
       ∧ last l = Some start ∧ (length l ≤ S gv)%nat.
Proof.
  intros Htree. revert v. induction gv as [gv IH] using lt_wf_ind.
  intros v Hgv.
  assert (is_Some (a_came_from st !! v)) as [x Hx].
  { apply (at_dom _ _ _ Htree). by eexists. }
  destruct x as [u|].
  - destruct (at_down _ _ _ Htree v u Hx) as (gv' & gu & Hgv' & Hgu & Hlt).
    simplify_eq. destruct (IH gu Hlt u Hgu) as (l & Hl & Hlast & Hlen).
    exists (v :: l). split_and!; [by econstructor| |simpl; lia].
    inversion Hl; simplify_eq. done.
  - apply (at_root _ _ _ Htree) in Hx as Hv. subst v.
    exists [start]. split_and!; [|done|simpl; lia].
    econstructor; [done|constructor].
Qed.

(** The goal can be reached: the loop pops it, and [reconstruct_path]
    returns the chain of the goal. *)
Lemma astar_finds :
  (∀ u, reachable adjacency start u →
        ∃ h, heuristic pow2 positions u goal = Returns h) →
  reachable adjacency start goal →
  ∀ a b c st,
    astar_inv None st → astar_tree st →
    (size (universe adjacency start) - size (g_score st))%nat = a →
    score_sum (g_score st) = b →
    length (open_heap st) = c →
    ∃ n r,
      (∀ fuel rfuel, (n ≤ fuel)%nat → (n ≤ rfuel)%nat →
         astar_loop fuel rfuel adjacency positions start goal st = Returns r)
      ∧ path r ≠ []
      ∧ ∃ vo, visited_order r = Some vo ∧ ∀ v, v ∈ path r → v ∈ vo.
Proof.
  intros Hheur Hgoal a. induction a as [a IHa] using lt_wf_ind.
  intros b. induction b as [b IHb] using lt_wf_ind.
  intros c. induction c as [c IHc] using lt_wf_ind.
  intros st Hinv Htree Ha Hb Hc.
  destruct (heappop (open_heap st)) as [[[f cur] heap']|] eqn:Hpop.
  - destruct (decide (cur = goal)) as [-> | Hcur].
    + assert (is_Some (g_score st !! goal)) as [gg Hgg].
      { apply (ai_heap _ _ _ _ Hinv (f, goal)).
        rewrite (heappop_perm _ _ _ _ Hpop). by left. }
      destruct (astar_tree_chain st goal gg Htree Hgg) as (l & Hl & Hlast & _).
      exists (1 `max` length l)%nat. eexists. split_and!.
      * intros [|fuel] rfuel Hfuel Hrfuel; [lia|]. simpl.
        rewrite Hpop, decide_True by done.
        rewrite (reconstruct_path_chain _ _ _ _ l Hl) by lia.
        rewrite decide_True by done. simpl. reflexivity.
      * simpl. inversion Hl; simplify_eq. rewrite reverse_cons.
        intros [_ ?]%app_eq_nil. done.
      * simpl. eexists. split; [done|]. intros v Hv.
        rewrite elem_of_reverse in Hv.
        destruct (back_chain_parents _ _ _ _ _ (at_parents _ _ _ Htree) Hl Hv)
          as [-> | Hord]; apply elem_of_app; [right; by left|by left].
    + destruct (astar_iteration_returns pow2 node_ltb adjacency positions
                  start goal st f cur heap' Hheur Hinv Hpop) as (st' & Hfold).
      destruct (astar_iteration pow2 node_ltb adjacency positions start goal
                  st f cur heap' st' Hinv Hpop Hfold)
        as (Hinv' & Hprogress).
      pose proof (astar_iteration_tree st cur heap' st' Htree Hcur Hfold)
        as Htree'.
      assert (∃ n r,
        (∀ fuel rfuel, (n ≤ fuel)%nat → (n ≤ rfuel)%nat →
           astar_loop fuel rfuel adjacency positions start goal st'
           = Returns r)
        ∧ path r ≠ []
        ∧ ∃ vo, visited_order r = Some vo ∧ ∀ v, v ∈ path r → v ∈ vo)
        as (n & r & Hn & Hr).
      { pose proof (astar_inv_size adjacency start _ _ Hinv') as Hsize.
        destruct Hprogress as [[Hg Hh]|[Hlt|[Heq Hlt]]].
        - apply (IHc (length heap')); [|done|done|by rewrite Hg..|by rewrite Hh].
          apply heappop_perm, Permutation_length in Hpop. simpl in Hpop. lia.
        - apply (IHa (size (universe adjacency start)
                      - size (g_score st'))%nat
                   ltac:(lia) (score_sum (g_score st'))
                   (length (open_heap st')) st' Hinv' Htree'
                   eq_refl eq_refl eq_refl).
        - apply (IHb (score_sum (g_score st')) ltac:(lia)
                   (length (open_heap st')) st' Hinv' Htree' ltac:(lia)
                   eq_refl eq_refl). }
      exists (S n), r. split; [|done].
      intros [|fuel] rfuel Hfuel Hrfuel; [lia|]. simpl.
      rewrite Hpop, decide_False by done. rewrite Hfold. simpl.
      apply Hn; lia.
  - exfalso. apply (at_goal _ _ _ Htree).
    apply (astar_exhausted adjacency start st goal Hinv); [|done].
    by apply (heappop_None node_ltb).
Qed.

(** The nodes of a returned path were all popped. *)
Lemma astar_loop_path_visited fuel rfuel st r :
  astar_inv None st → astar_tree st →
  astar_loop fuel rfuel adjacency positions start goal st = Returns r →
  ∃ vo, visited_order r = Some vo ∧ ∀ v, v ∈ path r → v ∈ vo.
Proof.
  revert st. induction fuel as [|fuel IH]; intros st Hinv Htree Hr; [done|].
  simpl in Hr.
  destruct (heappop (open_heap st)) as [[[f cur] heap']|] eqn:Hpop.
  - case_decide as Hcur.
    + subst cur.
      destruct (reconstruct_path rfuel (a_came_from st) start goal)
        as [p| |] eqn:Hrec; [|done..].
      simpl in Hr. simplify_eq. simpl. eexists. split; [done|].
      intros v Hv. destruct p as [|x p]; [by apply elem_of_nil in Hv|].
      destruct (reconstruct_path_returns _ _ _ _ _ Hrec) as (l & Hl & Hp & _);
        [done|].
      rewrite Hp, elem_of_reverse in Hv.
      destruct (back_chain_parents _ _ _ _ _ (at_parents _ _ _ Htree) Hl Hv)
        as [-> | Hord]; apply elem_of_app; [right; by left|by left].
    + destruct (for_each (relax pow2 positions goal cur) _ _)
        as [st'| |] eqn:Hfold; simpl in Hr; [|done..].
      destruct (astar_iteration pow2 node_ltb adjacency positions start goal
                  st f cur heap' st' Hinv Hpop Hfold) as (Hinv' & _).
      apply (IH st'); [done| |done].
      by apply (astar_iteration_tree st cur heap' st').
  - simplify_eq. simpl. eexists. split; [done|].
    intros v Hv. by apply elem_of_nil in Hv.
Qed.

(** The [for] loop of [astar] leaves [visited_order] as it is. *)
Lemma relax_keeps_order cur st nb st' :
  relax pow2 positions goal cur st nb = Returns st' → a_order st' = a_order st.
Proof.
  unfold relax. destruct (g_score st !! cur); [|done].
  destruct (improves _ _ _); [|by intros [= <-]].
  destruct (heuristic pow2 positions nb goal); simpl; [|done..].
  by intros [= <-].
Qed.

Lemma relax_all_keeps_order cur ns st st' :
  for_each (relax pow2 positions goal cur) st ns = Returns st' →
  a_order st' = a_order st.
Proof.
  revert st. induction ns as [|nb ns IH]; intros st; simpl.
  - by intros [= <-].
  - destruct (relax pow2 positions goal cur st nb) as [st1| |] eqn:Hrelax;
      simpl; [|done..].
    intros Hrest. rewrite (IH _ Hrest). by eapply relax_keeps_order.
Qed.

(** The first node popped is [start], and a path is returned when [goal]
    is popped, which ends the search. *)
Lemma astar_loop_order fuel rfuel st r :
  starts_at start (a_order st) (open_heap st) [(0%float, start)] →
  astar_loop fuel rfuel adjacency positions start goal st = Returns r →
  ∃ vo, visited_order r = Some vo
        ∧ head vo = Some start ∧ (path r ≠ [] → last vo = Some goal).
Proof.
  revert st. induction fuel as [|fuel IH]; intros st Hst Hr; [done|].
  simpl in Hr.
  assert (∀ f cur heap', heappop (open_heap st) = Some ((f, cur), heap') →
            head (a_order st ++ [cur]) = Some start) as Hhead.
  { intros f cur heap' Hpop. destruct Hst as [[Ho Hh] | Hh].
    - rewrite Ho. rewrite Hh in Hpop. simpl in Hpop. by simplify_eq.
    - by destruct (a_order st). }
  destruct (heappop (open_heap st)) as [[[f cur] heap']|] eqn:Hpop.
  - specialize (Hhead f cur heap' eq_refl). case_decide as Hcur.
    + subst cur.
      destruct (reconstruct_path rfuel (a_came_from st) start goal)
        as [p| |] eqn:Hrec; [|done..].
      simpl in Hr. simplify_eq. simpl. eexists. split; [done|].
      split; [done|]. intros _. by rewrite last_snoc.
    + destruct (for_each (relax pow2 positions goal cur)
                  (mkAstar heap' (a_came_from st) (g_score st)
                           (a_count st + 1) (a_order st ++ [cur]))
                  (neighbors adjacency cur)) as [st1| |] eqn:Hrelax;
        simpl in Hr; [|done..].
      apply (IH st1); [|done]. right.
      by rewrite (relax_all_keeps_order _ _ _ _ Hrelax).
  - simplify_eq. simpl. eexists. split; [done|]. split; [|done].
    destruct Hst as [[Ho Hh] | Hh]; [|done]. by rewrite Hh in Hpop.
Qed.

(** [astar] returns, whether the goal can be reached or not. *)
Lemma astar_terminates :
  (∀ u, reachable adjacency start u →
        ∃ h, heuristic pow2 positions u goal = Returns h) →
  ∀ a b c st,
    astar_inv None st → astar_tree st →
    (size (universe adjacency start) - size (g_score st))%nat = a →
    score_sum (g_score st) = b →
    length (open_heap st) = c →
    ∃ n r,
      ∀ fuel rfuel, (n ≤ fuel)%nat → (n ≤ rfuel)%nat →
        astar_loop fuel rfuel adjacency positions start goal st = Returns r.
Proof.
  intros Hheur a. induction a as [a IHa] using lt_wf_ind.
  intros b. induction b as [b IHb] using lt_wf_ind.
  intros c. induction c as [c IHc] using lt_wf_ind.
  intros st Hinv Htree Ha Hb Hc.
  destruct (heappop (open_heap st)) as [[[f cur] heap']|] eqn:Hpop.
  - destruct (decide (cur = goal)) as [-> | Hcur].
    + assert (is_Some (g_score st !! goal)) as [gg Hgg].
      { apply (ai_heap _ _ _ _ Hinv (f, goal)).
        rewrite (heappop_perm _ _ _ _ Hpop). by left. }
      destruct (astar_tree_chain st goal gg Htree Hgg) as (l & Hl & Hlast & _).
      exists (1 `max` length l)%nat. eexists.
      intros [|fuel] rfuel Hfuel Hrfuel; [lia|]. simpl.
      rewrite Hpop, decide_True by done.
      rewrite (reconstruct_path_chain _ _ _ _ l Hl) by lia.
      rewrite decide_True by done. simpl. reflexivity.
    + destruct (astar_iteration_returns pow2 node_ltb adjacency positions
                  start goal st f cur heap' Hheur Hinv Hpop) as (st' & Hfold).
      destruct (astar_iteration pow2 node_ltb adjacency positions start goal
                  st f cur heap' st' Hinv Hpop Hfold)
        as (Hinv' & Hprogress).
      pose proof (astar_iteration_tree st cur heap' st' Htree Hcur Hfold)
        as Htree'.
      assert (∃ n r,
        ∀ fuel rfuel, (n ≤ fuel)%nat → (n ≤ rfuel)%nat →
          astar_loop fuel rfuel adjacency positions start goal st'
          = Returns r)
        as (n & r & Hn).
      { pose proof (astar_inv_size adjacency start _ _ Hinv') as Hsize.
        destruct Hprogress as [[Hg Hh]|[Hlt|[Heq Hlt]]].
        - apply (IHc (length heap')); [|done|done|by rewrite Hg..|by rewrite Hh].
          apply heappop_perm, Permutation_length in Hpop. simpl in Hpop. lia.
        - apply (IHa (size (universe adjacency start)
                      - size (g_score st'))%nat
                   ltac:(lia) (score_sum (g_score st'))
                   (length (open_heap st')) st' Hinv' Htree'
                   eq_refl eq_refl eq_refl).
        - apply (IHb (score_sum (g_score st')) ltac:(lia)
                   (length (open_heap st')) st' Hinv' Htree' ltac:(lia)
                   eq_refl eq_refl). }
      exists (S n), r.
      intros [|fuel] rfuel Hfuel Hrfuel; [lia|]. simpl.
      rewrite Hpop, decide_False by done. rewrite Hfold. simpl.
      apply Hn; lia.
  - exists 1%nat. eexists.
    intros [|fuel] rfuel Hfuel Hrfuel; [lia|]. simpl. by rewrite Hpop.
Qed.

(** [astar] does not raise [KeyError]: [g_score[current]] and the
    [came_from[current]] of [reconstruct_path] are always defined. *)
Lemma walk_back_no_raise fuel (cf : gmap Node (option Node)) cur l acc e :
  back_chain cf cur l → walk_back fuel cf cur acc ≠ Raises e.
Proof.
  intros Hl. revert fuel acc.
  induction Hl as [|c next l Hc Hl IH]; intros fuel acc; [by destruct fuel|].
  destruct fuel as [|fuel]; simpl; [done|]. rewrite Hc. apply IH.
Qed.

Lemma relax_all_no_KeyError cur ns st :
  astar_inv (Some cur) st → cur ∈ a_order st →
  (∀ v, v ∈ ns → edge adjacency cur v) →
  for_each (relax pow2 positions goal cur) st ns ≠ Raises KeyError.
Proof.
  revert st. induction ns as [|nb ns IH]; intros st Hinv Hcur Hns; simpl;
    [done|].
  destruct (relax pow2 positions goal cur st nb) as [st1|e|] eqn:Hrelax;
    simpl; [| |done].
  - destruct (relax_inv pow2 adjacency positions start goal cur st nb st1
                Hinv Hcur) as (Hinv1 & Ho1 & _); [apply Hns; by left|done|].
    apply IH; [done|by rewrite Ho1|].
    intros v Hv. apply Hns. by right.
  - intros [= ->]. unfold relax in Hrelax.
    destruct (ai_order _ _ _ _ Hinv cur Hcur) as [gc Hgc].
    rewrite Hgc in Hrelax.
    destruct (improves _ _ _); [|done].
    pose proof (heuristic_no_KeyError pow2 positions goal nb) as Hno.
    destruct (heuristic pow2 positions nb goal); simpl in Hrelax; congruence.
Qed.

Lemma astar_loop_no_KeyError fuel rfuel st :
  astar_inv None st → astar_tree st →
  astar_loop fuel rfuel adjacency positions start goal st ≠ Raises KeyError.
Proof.
  revert st. induction fuel as [|fuel IH]; intros st Hinv Htree; [done|].
  simpl.
  destruct (heappop (open_heap st)) as [[[f cur] heap']|] eqn:Hpop; [|done].
  case_decide as Hcur.
  - subst cur.
    assert (is_Some (g_score st !! goal)) as [gg Hgg].
    { apply (ai_heap _ _ _ _ Hinv (f, goal)).
      rewrite (heappop_perm _ _ _ _ Hpop). by left. }
    destruct (astar_tree_chain st goal gg Htree Hgg) as (l & Hl & _).
    unfold reconstruct_path.
    pose proof (λ e, walk_back_no_raise rfuel _ _ _ [] e Hl) as Hw.
    destruct (walk_back rfuel (a_came_from st) (Some goal) [])
      as [p|e|]; simpl; [|by destruct (Hw e)|done].
    destruct (reverse p); simpl; [done|]. by case_decide.
  - destruct (for_each (relax pow2 positions goal cur) _ _)
      as [st'|e|] eqn:Hfold; simpl; [| |done].
    + destruct (astar_iteration pow2 node_ltb adjacency positions start goal
                  st f cur heap' st' Hinv Hpop Hfold) as (Hinv' & _).
      apply IH; [done|]. by apply (astar_iteration_tree st cur heap' st').
    + intros [= ->]. revert Hfold.
      apply relax_all_no_KeyError; [|simpl|done].
      * by apply (astar_inv_pop node_ltb adjacency start st f cur heap').
      * apply elem_of_app. right. by left.
Qed.

(** When the goal can be reached, the path of a returned result is not
    empty. *)
Lemma astar_loop_reachable_path fuel rfuel st r :
  reachable adjacency start goal → astar_inv None st → astar_tree st →
  astar_loop fuel rfuel adjacency positions start goal st = Returns r →
  path r ≠ [].
Proof.
  intros Hreach. revert st.
  induction fuel as [|fuel IH]; intros st Hinv Htree Hr; [done|].
  simpl in Hr.
  destruct (heappop (open_heap st)) as [[[f cur] heap']|] eqn:Hpop.
  - case_decide as Hcur.
    + subst cur.
      destruct (reconstruct_path rfuel (a_came_from st) start goal)
        as [p| |] eqn:Hrec; [|done..].
      simpl in Hr. simplify_eq. simpl.
      assert (is_Some (g_score st !! goal)) as [gg Hgg].
      { apply (ai_heap _ _ _ _ Hinv (f, goal)).
        rewrite (heappop_perm _ _ _ _ Hpop). by left. }
      destruct (astar_tree_chain st goal gg Htree Hgg) as (l & Hl & Hlast & _).
      pose proof (reconstruct_path_mono rfuel (rfuel `max` length l)
                    (a_came_from st) start goal) as Hmono.
      rewrite Hrec in Hmono.
      rewrite (reconstruct_path_chain _ _ _ _ l Hl) in Hmono by lia.
      rewrite decide_True in Hmono by done.
      specialize (Hmono ltac:(done) ltac:(lia)). simplify_eq.
      inversion Hl; simplify_eq. rewrite reverse_cons.
      intros [_ ?]%app_eq_nil. done.
    + destruct (for_each (relax pow2 positions goal cur) _ _)
        as [st'| |] eqn:Hfold; simpl in Hr; [|done..].
      destruct (astar_iteration pow2 node_ltb adjacency positions start goal
                  st f cur heap' st' Hinv Hpop Hfold) as (Hinv' & _).
      apply (IH st'); [done| |done].
      by apply (astar_iteration_tree st cur heap' st').
  - exfalso. apply (at_goal _ _ _ Htree).
    apply (astar_exhausted adjacency start st goal Hinv); [|done].
    by apply (heappop_None node_ltb).
Qed.

End MoreAstarFacts.

(** ** astar and the squares *)

Section SquareFacts.

Context {Node : Type} `{Countable Node}.
Variables pow2 pow2' : float → option float.
Variable node_ltb : Node → Node → bool.
Variable adjacency : gmap Node (list Node).
Variable positions : gmap Node (float * float).
Variables start goal : Node.

Hypothesis agree : agree_on_differences pow2 pow2' positions goal.

Lemma heuristic_agree nb :
  heuristic pow2 positions nb goal = heuristic pow2' positions nb goal.
Proof.
  unfold heuristic.
  destruct (positions !! nb) as [pn|] eqn:Hn; [|done].
  destruct (positions !! goal) as [pg|] eqn:Hg; [|done].
  destruct (agree nb pn pg Hn Hg) as [Hx Hy].
  unfold euclidean, float_pow. by rewrite Hx, Hy.
Qed.

Lemma relax_agree cur st nb :
  relax pow2 positions goal cur st nb = relax pow2' positions goal cur st nb.
Proof. unfold relax. by rewrite heuristic_agree. Qed.

Lemma astar_loop_agree fuel rfuel st :
  astar_loop pow2 node_ltb fuel rfuel adjacency positions start goal st
  = astar_loop pow2' node_ltb fuel rfuel adjacency positions start goal st.
Proof.
  revert st. induction fuel as [|fuel IH]; intros st; simpl; [done|].
  destruct (heappop node_ltb (open_heap st)) as [[[f cur] heap']|]; [|done].
  case_decide; [done|].
  rewrite (for_each_ext _ (relax pow2' positions goal cur)).
  - destruct (for_each _ _ _); simpl; [apply IH|done..].
  - intros a x. apply relax_agree.
Qed.

End SquareFacts.

Lemma same_square_sound (pow2 pow2' : float → option float) x :
  same_square pow2 pow2' x = true → pow2 x = pow2' x.
Proof.
  unfold same_square. destruct (pow2 x), (pow2' x); try done.
  by intros ->%FloatAxioms.Leibniz.eqb_spec.
Qed.

Lemma agree_on_differences_check_sound {Node : Type} `{Countable Node}
    (pow2 pow2' : float → option float)
    (positions : gmap Node (float * float)) (goal : Node) :
  agree_on_differences_check pow2 pow2' positions goal = true →
  agree_on_differences pow2 pow2' positions goal.
Proof.
  unfold agree_on_differences_check. intros Hcheck u pu pg Hu Hg.
  rewrite Hg in Hcheck. rewrite forallb_forall in Hcheck.
  assert (In (u, pu) (map_to_list positions)) as Hin
    by by apply list_elem_of_In, elem_of_map_to_list.
  apply Hcheck in Hin. simpl in Hin.
  apply andb_true_iff in Hin as [Hx Hy].
  by split; apply same_square_sound.
Qed.

(** ** Properties of the three searches *)

Section MoreSearchProperties.

Context {Node : Type} `{Countable Node}.
Variable pow2 : float → option float.
Variable node_ltb : Node → Node → bool.
Implicit Types (adjacency : gmap Node (list Node)).
Implicit Types (positions : gmap Node (float * float)).

(** X2.  [bfs] and [dfs] never return an empty path: whenever one of them
    returns, the path is not empty and is a path of the graph from [start]
    to [goal]. *)
Theorem bfs_dfs_never_return_empty adjacency (start goal : Node)
    (fuel : nat) (r : SearchResult) :
  bfs fuel adjacency start goal = Returns r
  ∨ dfs fuel adjacency start goal = Returns r →
  path r ≠ [] ∧ is_path adjacency start goal (path r).
Proof.
  intros [Hr | Hr].
  - destruct (frontier_search_result enqueue enqueue_perm _ _ _ _ _ Hr)
      as (Hp & _). split; [done|].
    by apply (frontier_search_path enqueue enqueue_perm _ _ _ fuel r).
  - destruct (frontier_search_result push_top push_top_perm _ _ _ _ _ Hr)
      as (Hp & _). split; [done|].
    by apply (frontier_search_path push_top push_top_perm _ _ _ fuel r).
Qed.

(** X3.  [dfs] finds a path if one exists: when [goal] can be reached from
    [start], [dfs] returns (the same result for every fuel above some
    bound) a path that is not empty, is a path of the graph from [start]
    to [goal], and has [distance] edges. *)
Theorem dfs_finds_path adjacency (start goal : Node) :
  reachable adjacency start goal →
  ∃ n r,
    (∀ fuel, (n ≤ fuel)%nat → dfs fuel adjacency start goal = Returns r)
    ∧ path r ≠ []
    ∧ is_path adjacency start goal (path r)
    ∧ distance r = edges_of (path r).
Proof.
  intros Hreach.
  destruct (frontier_search_reachable push_top push_top_perm adjacency
              start goal Hreach) as (n & r & Hn & Hp).
  exists n, r. pose proof (Hn n (le_n _)) as Hr.
  destruct (frontier_search_path push_top push_top_perm _ _ _ n r Hr Hp).
  done.
Qed.

(** X4.  [astar] finds a path if one exists: when [goal] can be reached
    from [start] and the heap entries can be ordered (Python's [<] orders
    the nodes within reach of [start] totally, and [euclidean] returns a
    number that is not a NaN for each of them: no [OverflowError]),
    [astar] returns (the same result for every fuel above some bound) a
    path that is not empty, is a path of the graph from [start] to [goal],
    and has [distance] edges. *)
Theorem astar_finds_path adjacency positions (start goal : Node) :
  reachable adjacency start goal →
  heap_ordered pow2 node_ltb adjacency positions start goal →
  ∃ n r,
    (∀ fuel, (n ≤ fuel)%nat →
       astar pow2 node_ltb fuel adjacency positions start goal = Returns r)
    ∧ path r ≠ []
    ∧ is_path adjacency start goal (path r)
    ∧ distance r = edges_of (path r).
Proof.
  intros Hreach [_ Hh].
  assert (∀ u, reachable adjacency start u →
               ∃ h, heuristic pow2 positions u goal = Returns h) as Hh'.
  { intros u Hu. destruct (Hh u Hu) as (h & Hhu & _). by exists h. }
  destruct (astar_finds pow2 node_ltb adjacency positions start goal
              Hh' Hreach _ _ _ (astar_initial start)
              (astar_inv_initial node_ltb _ _)
              (astar_tree_initial node_ltb _ _) eq_refl eq_refl eq_refl)
    as (n & r & Hn & Hp & _).
  exists n, r.
  assert (astar pow2 node_ltb n adjacency positions start goal = Returns r)
    as Hr by by apply Hn.
  destruct (astar_path pow2 node_ltb adjacency positions start goal n r Hr Hp).
  split_and!; try done. intros fuel Hfuel. by apply Hn.
Qed.

(** X7.  No node occurs twice in a path that [bfs], [dfs] or [astar]
    returns. *)
Theorem returned_paths_are_simple adjacency positions (start goal : Node)
    (fuel : nat) (r : SearchResult) :
  bfs fuel adjacency start goal = Returns r
  ∨ dfs fuel adjacency start goal = Returns r
  ∨ astar pow2 node_ltb fuel adjacency positions start goal = Returns r →
  NoDup (path r).
Proof.
  intros [Hr | [Hr | Hr]].
  - by destruct (frontier_search_result enqueue enqueue_perm _ _ _ _ _ Hr)
      as (_ & ? & _).
  - by destruct (frontier_search_result push_top push_top_perm _ _ _ _ _ Hr)
      as (_ & ? & _).
  - unfold astar in Hr.
    eapply (astar_loop_returns pow2 node_ltb adjacency positions start goal
              (λ r, NoDup (path r)));
      [| |apply (astar_inv_initial node_ltb)|exact Hr]; simpl.
    + intros. constructor.
    + intros st f heap' p _ _ Hrec. by eapply reconstruct_path_NoDup.
Qed.

(** X8.  [bfs], [dfs] and [astar] visit only nodes that can be reached
    from [start]: every node of the [visited_order] of a returned result
    is the end of a path of the graph from [start]. *)
Theorem visited_nodes_are_reachable adjacency positions (start goal : Node)
    (fuel : nat) (r : SearchResult) :
  bfs fuel adjacency start goal = Returns r
  ∨ dfs fuel adjacency start goal = Returns r
  ∨ astar pow2 node_ltb fuel adjacency positions start goal = Returns r →
  ∃ vo, visited_order r = Some vo
        ∧ ∀ v, v ∈ vo → reachable adjacency start v.
Proof.
  intros [Hr | [Hr | Hr]].
  - destruct (frontier_search_result enqueue enqueue_perm _ _ _ _ _ Hr)
      as (_ & _ & vo & ? & _ & ?). by exists vo.
  - destruct (frontier_search_result push_top push_top_perm _ _ _ _ _ Hr)
      as (_ & _ & vo & ? & _ & ?). by exists vo.
  - unfold astar in Hr.
    eapply (astar_loop_returns pow2 node_ltb adjacency positions start goal
              (λ r, ∃ vo, visited_order r = Some vo
                          ∧ ∀ v, v ∈ vo → reachable adjacency start v));
      [| |apply (astar_inv_initial node_ltb)|exact Hr]; simpl.
    + intros st Hinv _. eexists. split; [done|].
      intros v Hv. by apply Hinv, Hinv.
    + intros st f heap' p Hinv Hpop _. eexists. split; [done|].
      intros v [Hv | ->%list_elem_of_singleton]%elem_of_app.
      * by apply Hinv, Hinv.
      * apply (ai_reach _ _ _ _ Hinv), (ai_heap _ _ _ _ Hinv (f, goal)).
        rewrite (heappop_perm _ _ _ _ Hpop). by left.
Qed.

(** X9.  Every node of a path that [bfs], [dfs] or [astar] returns is in
    the [visited_order] of the result: the path runs through popped nodes
    only. *)
Theorem path_within_visited_order adjacency positions (start goal : Node)
    (fuel : nat) (r : SearchResult) :
  bfs fuel adjacency start goal = Returns r
  ∨ dfs fuel adjacency start goal = Returns r
  ∨ astar pow2 node_ltb fuel adjacency positions start goal = Returns r →
  ∃ vo, visited_order r = Some vo ∧ ∀ v, v ∈ path r → v ∈ vo.
Proof.
  intros [Hr | [Hr | Hr]].
  - destruct (frontier_search_result enqueue enqueue_perm _ _ _ _ _ Hr)
      as (_ & _ & vo & ? & ? & _). by exists vo.
  - destruct (frontier_search_result push_top push_top_perm _ _ _ _ _ Hr)
      as (_ & _ & vo & ? & ? & _). by exists vo.
  - eapply (astar_loop_path_visited pow2 node_ltb adjacency positions start goal);
      [apply (astar_inv_initial node_ltb)|apply (astar_tree_initial node_ltb)|exact Hr].
Qed.

(** X10.  When the goal has no entry in [positions], [astar] is
    uniform-cost search, whatever positions the other nodes have: every
    heuristic term is [0.0] and the frontier is ordered by the g-score
    alone. *)
Theorem astar_without_goal_position adjacency positions (start goal : Node)
    (fuel : nat) :
  positions !! goal = None →
  astar pow2 node_ltb fuel adjacency positions start goal
  = uniform_cost_search node_ltb fuel adjacency start goal.
Proof. intros Hg. by apply astar_loop_without_goal_position. Qed.

Lemma astar_reachable_path adjacency positions (start goal : Node)
    (fuel : nat) (r : SearchResult) :
  reachable adjacency start goal →
  astar pow2 node_ltb fuel adjacency positions start goal = Returns r →
  path r ≠ [].
Proof.
  intros Hreach Hr.
  by apply (astar_loop_reachable_path pow2 node_ltb adjacency positions
              start goal fuel fuel (astar_initial start) r Hreach
              (astar_inv_initial node_ltb _ _)
              (astar_tree_initial node_ltb _ _)).
Qed.

(** X16.  [bfs] is never longer than the others: on the same graph, start
    and goal, the [distance] that [bfs] returns is at most the [distance]
    that [dfs] returns and at most the one that [astar] returns, whatever
    the positions. *)
Theorem bfs_never_longer adjacency positions (start goal : Node)
    (fuel fuel' : nat) (rb r : SearchResult) :
  bfs fuel adjacency start goal = Returns rb →
  dfs fuel' adjacency start goal = Returns r
  ∨ astar pow2 node_ltb fuel' adjacency positions start goal = Returns r →
  distance rb ≤ distance r.
Proof.
  intros Hb Hr.
  destruct (frontier_search_result enqueue enqueue_perm _ _ _ _ _ Hb)
    as (Hpb & _).
  assert (reachable adjacency start goal) as Hreach.
  { exists (path rb).
    by apply (frontier_search_path enqueue enqueue_perm _ _ _ fuel rb). }
  assert (is_path adjacency start goal (path r)
          ∧ distance r = edges_of (path r)) as [Hpath ->].
  { destruct Hr as [Hr | Hr].
    - destruct (frontier_search_result push_top push_top_perm _ _ _ _ _ Hr)
        as (Hp & _).
      by apply (frontier_search_path push_top push_top_perm _ _ _ fuel' r).
    - apply (astar_path pow2 node_ltb adjacency positions start goal fuel' r);
        [done|]. by eapply astar_reachable_path. }
  by apply (bfs_shortest adjacency start goal fuel).
Qed.

(** X17.  The first node of [visited_order] is [start]; and when a path is
    returned, the last one is [goal]: each search stops when it pops the
    goal. *)
Theorem visited_order_ends adjacency positions (start goal : Node)
    (fuel : nat) (r : SearchResult) :
  bfs fuel adjacency start goal = Returns r
  ∨ dfs fuel adjacency start goal = Returns r
  ∨ astar pow2 node_ltb fuel adjacency positions start goal = Returns r →
  ∃ vo, visited_order r = Some vo
        ∧ head vo = Some start ∧ (path r ≠ [] → last vo = Some goal).
Proof.
  intros [Hr | [Hr | Hr]].
  - destruct (frontier_search_order enqueue enqueue_perm _ _ _ _ _ Hr)
      as (vo & ? & ? & ?). by exists vo.
  - destruct (frontier_search_order push_top push_top_perm _ _ _ _ _ Hr)
      as (vo & ? & ? & ?). by exists vo.
  - eapply (astar_loop_order pow2 node_ltb adjacency positions start goal);
      [|exact Hr]. by left.
Qed.

(** X18.  [bfs] visits the nodes nearest first: of two nodes of
    [visited_order], the one that comes first is not farther from [start]
    than the other (for every path from [start] to the later one there is
    a path from [start] to the earlier one with no more edges). *)
Theorem bfs_visits_nearest_first adjacency (start goal : Node) (fuel : nat)
    (r : SearchResult) :
  bfs fuel adjacency start goal = Returns r →
  ∃ vo, visited_order r = Some vo
    ∧ ∀ i j u v q,
        (i ≤ j)%nat → vo !! i = Some u → vo !! j = Some v →
        is_path adjacency start v q →
        ∃ p, is_path adjacency start u p ∧ edges_of p ≤ edges_of q.
Proof. apply bfs_order_nearest_first. Qed.

(** X19.  On a graph whose neighbours are keys, searched from a key, [bfs]
    and [dfs] pop no more nodes than the graph has: [visited_count] is at
    most [len(adjacency)] (which [astar] can exceed, since it pops a node
    again when its g-score has improved). *)
Theorem bfs_dfs_visit_count_bound adjacency (start goal : Node)
    (fuel : nat) (r : SearchResult) :
  start ∈ dom adjacency →
  (∀ u v, v ∈ neighbors adjacency u → v ∈ dom adjacency) →
  bfs fuel adjacency start goal = Returns r
  ∨ dfs fuel adjacency start goal = Returns r →
  visited_count r ≤ Z.of_nat (size (dom adjacency)).
Proof.
  intros Hs Hkeys Hr.
  assert (∃ vo, visited_count r = Z.of_nat (length vo) ∧ NoDup vo
                ∧ ∀ v, v ∈ vo → reachable adjacency start v)
    as (vo & -> & Hnd & Hreach).
  { destruct Hr as [Hr | Hr].
    - destruct (frontier_search_visited enqueue enqueue_perm _ _ _ _ _ Hr)
        as (vo & Hvo & Hc & Hnd).
      destruct (frontier_search_result enqueue enqueue_perm _ _ _ _ _ Hr)
        as (_ & _ & vo' & Hvo' & _ & Hreach).
      exists vo. rewrite Hvo in Hvo'. by simplify_eq.
    - destruct (frontier_search_visited push_top push_top_perm _ _ _ _ _ Hr)
        as (vo & Hvo & Hc & Hnd).
      destruct (frontier_search_result push_top push_top_perm _ _ _ _ _ Hr)
        as (_ & _ & vo' & Hvo' & _ & Hreach).
      exists vo. rewrite Hvo in Hvo'. by simplify_eq. }
  apply inj_le.
  change (size (dom adjacency)) with (length (elements (dom adjacency))).
  apply submseteq_length, NoDup_submseteq; [done|].
  intros v Hv. apply elem_of_elements. apply Hreach in Hv. revert v Hv.
  apply (closed_reachable adjacency (λ v, v ∈ dom adjacency)); [done|].
  intros u w _ Huw. by eapply Hkeys.
Qed.

(** X20.  The empty path of [astar] means that there is no path: a result
    of [astar] has the empty path exactly when [goal] cannot be reached
    from [start]. *)
Theorem astar_empty_path_iff_unreachable adjacency positions
    (start goal : Node) (fuel : nat) (r : SearchResult) :
  astar pow2 node_ltb fuel adjacency positions start goal = Returns r →
  path r = [] ↔ ¬ reachable adjacency start goal.
Proof.
  intros Hr. split.
  - intros Hp Hreach. by apply (astar_reachable_path _ _ _ _ _ _ Hreach Hr).
  - intros Hgoal. destruct (path r) as [|x p] eqn:Hp; [done|].
    exfalso. apply Hgoal. exists (path r).
    apply (astar_path pow2 node_ltb adjacency positions start goal fuel r);
      [done|by rewrite Hp].
Qed.

(** X21.  [astar] returns whenever the heap entries can be ordered:
    on every graph, from every start to every goal (keys or not, the goal
    within reach or not), when Python's [<] orders the nodes within reach
    of [start] totally and [euclidean] returns a number that is not a NaN
    for each of them (no [OverflowError] from [** 2]), [astar] returns a
    result, the same for every fuel above some bound. *)
Theorem astar_always_returns adjacency positions (start goal : Node) :
  heap_ordered pow2 node_ltb adjacency positions start goal →
  ∃ n r,
    ∀ fuel, (n ≤ fuel)%nat →
      astar pow2 node_ltb fuel adjacency positions start goal = Returns r.
Proof.
  intros [_ Hh].
  assert (∀ u, reachable adjacency start u →
               ∃ h, heuristic pow2 positions u goal = Returns h) as Hh'.
  { intros u Hu. destruct (Hh u Hu) as (h & Hhu & _). by exists h. }
  destruct (astar_terminates pow2 node_ltb adjacency positions start goal
              Hh' _ _ _ (astar_initial start)
              (astar_inv_initial node_ltb _ _)
              (astar_tree_initial node_ltb _ _) eq_refl eq_refl eq_refl)
    as (n & r & Hn).
  exists n, r. intros fuel Hfuel. by apply Hn.
Qed.

(** X25.  [astar] depends on [** 2] only through the squares of the
    coordinate differences between the position of a node and the
    position of the goal: with two models of [** 2] that agree on those
    differences, [astar] has the same outcome. *)
Theorem astar_depends_on_squares (pow2' : float → option float)
    adjacency positions (start goal : Node) (fuel : nat) :
  agree_on_differences pow2 pow2' positions goal →
  astar pow2 node_ltb fuel adjacency positions start goal
  = astar pow2' node_ltb fuel adjacency positions start goal.
Proof. intros Hagree. by apply astar_loop_agree. Qed.

(** X23.  [astar] never raises [KeyError], whatever the graph, the
    positions and the order of the heap: [g_score[current]] and the
    [came_from[current]] of [reconstruct_path] are defined whenever they
    are evaluated, and [positions] is only read under its [in] tests.
    (An exception of [astar] comes from [euclidean] or from the
    comparisons of [heapq].) *)
Theorem astar_never_raises_KeyError adjacency positions (start goal : Node)
    (fuel : nat) :
  astar pow2 node_ltb fuel adjacency positions start goal ≠ Raises KeyError.
Proof.
  apply (astar_loop_no_KeyError pow2 node_ltb adjacency positions start goal).
  - apply (astar_inv_initial node_ltb).
  - apply (astar_tree_initial node_ltb).
Qed.

(** X22.  [bfs] and [dfs] raise for no other reason: when one of them
    raises, [goal] cannot be reached from [start]. *)
Theorem bfs_dfs_raise_only_when_unreachable adjacency (start goal : Node)
    (fuel : nat) (e : exn) :
  bfs fuel adjacency start goal = Raises e
  ∨ dfs fuel adjacency start goal = Raises e →
  ¬ reachable adjacency start goal.
Proof.
  intros He Hreach.
  assert (∀ push, (∀ n q, push n q ≡ₚ n :: q) →
            frontier_search push fuel adjacency start goal ≠ Raises e)
    as Hno.
  { intros push Hpush Hraise.
    destruct (frontier_search_reachable push Hpush adjacency start goal
                Hreach) as (n & r & Hn & _).
    specialize (Hn (n `max` fuel)%nat ltac:(lia)).
    rewrite (frontier_search_mono push adjacency start goal fuel) in Hn;
      [|by rewrite Hraise|lia].
    congruence. }
  destruct He as [He | He].
  - by apply (Hno enqueue enqueue_perm).
  - by apply (Hno push_top push_top_perm).
Qed.

End MoreSearchProperties.

(** ** Building graphs *)

Section GraphFacts.

Implicit Types (adj : gmap node (list node)) (a b u v : node).

Lemma neighbors_append_neighbor adj a b u :
  neighbors (append_neighbor adj a b) u
  = if decide (u = a) then neighbors adj a ++ [b] else neighbors adj u.
Proof.
  unfold neighbors, append_neighbor. case_decide as Hu.
  - subst u. by rewrite lookup_insert_eq.
  - by rewrite lookup_insert_ne.
Qed.

Lemma neighbors_add_undirected_edge adj a b u :
  neighbors (add_undirected_edge adj a b) u
  = neighbors adj u ++ (if decide (u = a) then [b] else [])
                    ++ (if decide (u = b) then [a] else []).
Proof.
  unfold add_undirected_edge. rewrite !neighbors_append_neighbor.
  repeat case_decide; simplify_eq; by rewrite <- ?app_assoc, ?app_nil_r.
Qed.

Lemma dom_append_neighbor adj a b :
  dom (append_neighbor adj a b) = {[a]} ∪ dom adj.
Proof. unfold append_neighbor. apply dom_insert_L. Qed.

(** X11.  [_add_undirected_edge(adj, a, b)] appends [b] to the list of [a]
    and then [a] to the list of [b], creating the keys that are missing; it
    leaves every other list as it was and merges no duplicate: an edge
    added twice is listed twice, and a loop from [a] to [a] lists [a]
    twice. *)
Theorem add_undirected_edge_spec adj a b :
  (∀ u, neighbors (add_undirected_edge adj a b) u
        = neighbors adj u ++ (if decide (u = a) then [b] else [])
                          ++ (if decide (u = b) then [a] else []))
  ∧ dom (add_undirected_edge adj a b) = {[a; b]} ∪ dom adj.
Proof.
  split; [intros u; apply neighbors_add_undirected_edge|].
  unfold add_undirected_edge. rewrite !dom_append_neighbor. set_solver.
Qed.

Lemma neighbors_add_edges adj (edges : list (node * node)) u v :
  v ∈ neighbors (add_edges adj edges) u
  ↔ v ∈ neighbors adj u ∨ (u, v) ∈ edges ∨ (v, u) ∈ edges.
Proof.
  unfold add_edges. revert adj.
  induction edges as [|[a b] edges IH]; intros adj; simpl.
  - rewrite !elem_of_nil. tauto.
  - rewrite IH, neighbors_add_undirected_edge, !elem_of_app, !elem_of_cons.
    destruct (decide (u = a)), (decide (u = b));
      rewrite ?list_elem_of_singleton, ?elem_of_nil; naive_solver.
Qed.

(** X12.  A graph built by adding the edges of a list one after the other
    lists [v] under [u] exactly when it did before or the list holds the
    pair in one of the two directions; so the edges added to an undirected
    graph (the empty one, at first) leave it undirected. *)
Theorem add_edges_spec adj (edges : list (node * node)) :
  (∀ u v, v ∈ neighbors (add_edges adj edges) u
          ↔ v ∈ neighbors adj u ∨ (u, v) ∈ edges ∨ (v, u) ∈ edges)
  ∧ (undirected adj → undirected (add_edges adj edges))
  ∧ undirected (add_edges ∅ edges).
Proof.
  split_and!.
  - intros u v. apply neighbors_add_edges.
  - intros Hadj u v. rewrite !neighbors_add_edges.
    intros [Hv | [Hv | Hv]]; [left; by apply Hadj|right; by right|right; by left].
  - intros u v. rewrite !neighbors_add_edges.
    unfold neighbors. rewrite !lookup_empty. simpl. rewrite !elem_of_nil.
    tauto.
Qed.

(** [list.remove(x)] takes one occurrence out. *)
Lemma list_remove_absent (x : node) l : x ∉ l → list_remove x l = l.
Proof.
  induction l as [|y l IH]; [done|]. intros Hx. simpl.
  apply not_elem_of_cons in Hx as [Hxy Hx]. rewrite decide_False by done.
  by rewrite IH.
Qed.

Lemma list_remove_present (x : node) l :
  x ∈ l → l ≡ₚ x :: list_remove x l.
Proof.
  induction l as [|y l IH]; [by intros ?%elem_of_nil|]. simpl.
  destruct (decide (y = x)) as [-> | Hne]; [done|].
  intros [-> | Hx]%elem_of_cons; [done|].
  etrans; [|apply Permutation_swap]. apply Permutation_skip. by apply IH.
Qed.

Lemma list_remove_NoDup (x : node) l v :
  NoDup l → v ∈ list_remove x l ↔ v ∈ l ∧ v ≠ x.
Proof.
  intros Hl. destruct (decide (x ∈ l)) as [Hx | Hx].
  - pose proof (list_remove_present x l Hx) as Hperm.
    remember (list_remove x l) as rest eqn:Hrest. clear Hrest.
    rewrite Hperm in Hl. apply NoDup_cons in Hl as [Hnot _].
    rewrite Hperm, elem_of_cons. naive_solver.
  - rewrite list_remove_absent by done. naive_solver.
Qed.

Lemma list_remove_keeps_NoDup (x : node) l :
  NoDup l → NoDup (list_remove x l).
Proof.
  intros Hl. destruct (decide (x ∈ l)) as [Hx | Hx].
  - pose proof (list_remove_present x l Hx) as Hperm.
    remember (list_remove x l) as rest eqn:Hrest. clear Hrest.
    rewrite Hperm in Hl. by apply NoDup_cons in Hl as [_ ?].
  - by rewrite list_remove_absent.
Qed.

Lemma neighbors_remove_neighbor adj a b u :
  neighbors (remove_neighbor adj a b) u
  = if decide (u = a) then list_remove b (neighbors adj a)
    else neighbors adj u.
Proof.
  unfold remove_neighbor, neighbors.
  destruct (adj !! a) as [l|] eqn:Ha; simpl.
  - case_decide as Hb.
    + case_decide as Hu; [subst u; by rewrite lookup_insert_eq|].
      by rewrite lookup_insert_ne.
    + case_decide as Hu; [|done]. subst u. rewrite Ha. simpl.
      by rewrite list_remove_absent.
  - case_decide as Hu; [|done]. subst u. by rewrite Ha.
Qed.

Lemma dom_remove_neighbor adj a b : dom (remove_neighbor adj a b) = dom adj.
Proof.
  unfold remove_neighbor. destruct (adj !! a) as [l|] eqn:Ha; [|done].
  case_decide; [|done]. rewrite dom_insert_L.
  assert (a ∈ dom adj) by (apply elem_of_dom; by eexists). set_solver.
Qed.

(** X13.  Blocking the street between [a] and [b] (the two guarded
    [remove] of [urban_grid_6x6]) never fails and keeps every key, also a
    key whose list becomes empty; when the lists of [a] and [b] hold no
    node twice, the edge is gone in both directions and every other edge
    stays. *)
Theorem block_street_spec adj a b :
  NoDup (neighbors adj a) → NoDup (neighbors adj b) →
  dom (remove_neighbor (remove_neighbor adj a b) b a) = dom adj
  ∧ ∀ u v, v ∈ neighbors (remove_neighbor (remove_neighbor adj a b) b a) u
           ↔ v ∈ neighbors adj u
             ∧ ¬ (u = a ∧ v = b) ∧ ¬ (u = b ∧ v = a).
Proof.
  intros Ha Hb. split; [by rewrite !dom_remove_neighbor|].
  intros u v. rewrite !neighbors_remove_neighbor.
  repeat case_decide; simplify_eq;
    rewrite ?list_remove_NoDup by (try apply list_remove_keeps_NoDup; done);
    naive_solver.
Qed.

End GraphFacts.

(** ** The reference graphs *)

Lemma graph_well_formed_sound (G : Graph) :
  graph_well_formed_check G = true → graph_well_formed G.
Proof.
  unfold graph_well_formed_check. intros [Hentries Hpos]%andb_true_iff.
  apply bool_decide_eq_true in Hpos. rewrite forallb_forall in Hentries.
  assert (∀ u ns, adjacency G !! u = Some ns →
            NoDup ns
            ∧ ∀ v, v ∈ ns → u ∈ neighbors (adjacency G) v
                            ∧ v ∈ dom (adjacency G) ∧ v ≠ u) as Hentry.
  { intros u ns Hu.
    assert (In (u, ns) (map_to_list (adjacency G))) as Hin
      by by apply list_elem_of_In, elem_of_map_to_list.
    apply Hentries in Hin. simpl in Hin.
    apply andb_true_iff in Hin as [Hns Hnd]. apply bool_decide_eq_true in Hnd.
    split; [done|]. intros v Hv. rewrite forallb_forall in Hns.
    apply list_elem_of_In, Hns in Hv.
    apply andb_true_iff in Hv as [[H1 H2]%andb_true_iff H3].
    by apply bool_decide_eq_true in H1, H2, H3. }
  assert (∀ u v, v ∈ neighbors (adjacency G) u →
            u ∈ neighbors (adjacency G) v
            ∧ v ∈ dom (adjacency G) ∧ v ≠ u) as Hedge.
  { intros u v. unfold neighbors at 1.
    destruct (adjacency G !! u) as [ns|] eqn:Hu; simpl.
    - intros Hv. by apply (Hentry u ns Hu).
    - by intros ?%elem_of_nil. }
  split_and!.
  - intros u v Hv. by apply Hedge.
  - intros u v Hv. by apply Hedge in Hv as (_ & ? & _).
  - intros u Hu. by apply Hedge in Hu as (_ & _ & ?).
  - intros u. unfold neighbors.
    destruct (adjacency G !! u) as [ns|] eqn:Hu; simpl.
    + by apply (Hentry u ns Hu).
    + constructor.
  - done.
Qed.

Lemma reference_graphs_check :
  forallb (λ entry : string * Graph,
             graph_well_formed_check entry.2
             && bool_decide ((entry.1, size (adjacency entry.2))
                             ∈ announced_sizes))
          get_all_graphs = true.
Proof. vm_compute. reflexivity. Qed.

Lemma reference_graphs_all_find_path :
  forallb all_find_path_everywhere get_all_graphs = true.
Proof. vm_compute. reflexivity. Qed.

(** X14.  Every graph of [get_all_graphs] is undirected, lists only keys
    as neighbours, has no loop and no edge listed twice, gives a position
    to each of its nodes and to nothing else, and has the number of nodes
    that its name announces (what [list_graphs] prints). *)
Theorem reference_graphs_well_formed (name : string) (G : Graph) :
  (name, G) ∈ get_all_graphs →
  graph_well_formed G ∧ (name, size (adjacency G)) ∈ announced_sizes.
Proof.
  intros HG. pose proof reference_graphs_check as Hall.
  rewrite forallb_forall in Hall.
  apply list_elem_of_In, Hall in HG. simpl in HG.
  apply andb_true_iff in HG as [Hwf Hsize].
  split; [by apply graph_well_formed_sound|by apply bool_decide_eq_true in Hsize].
Qed.

(** X15.  Every reference graph is connected, and on it the searches
    always succeed: for every two keys [s] and [g] of a graph of
    [get_all_graphs], [g] can be reached from [s] and each of [bfs], [dfs]
    and [astar] returns a path that is not empty (the [KeyError] of [bfs]
    and [dfs] on a goal out of reach cannot occur on these graphs). *)
Theorem reference_graphs_searches_succeed (name : string) (G : Graph)
    (s g : node) (fuel : nat) :
  (name, G) ∈ get_all_graphs →
  s ∈ dom (adjacency G) → g ∈ dom (adjacency G) →
  (reference_fuel ≤ fuel)%nat →
  reachable (adjacency G) s g
  ∧ ∃ rb rd ra,
      bfs fuel (adjacency G) s g = Returns rb
      ∧ dfs fuel (adjacency G) s g = Returns rd
      ∧ astar float_pow2 node_ltb fuel (adjacency G) (positions G) s g = Returns ra
      ∧ path rb ≠ [] ∧ path rd ≠ [] ∧ path ra ≠ [].
Proof.
  intros HG Hs Hg Hfuel.
  assert (∀ k, k ∈ dom (adjacency G) →
               In k (map_to_list (adjacency G)).*1) as Hkeys.
  { intros k [x Hk]%elem_of_dom. apply list_elem_of_In, list_elem_of_fmap.
    exists (k, x). split; [done|]. by apply elem_of_map_to_list. }
  pose proof reference_graphs_all_find_path as Hall.
  rewrite forallb_forall in Hall.
  apply list_elem_of_In in HG. pose proof (Hall _ HG) as Hfind.
  unfold all_find_path_everywhere in Hfind. simpl in Hfind.
  rewrite forallb_forall in Hfind.
  specialize (Hfind s (Hkeys s Hs)). rewrite forallb_forall in Hfind.
  specialize (Hfind g (Hkeys g Hg)). unfold all_find_path in Hfind.
  destruct (bfs reference_fuel (adjacency G) s g) as [rb| |] eqn:Hb; [|done..].
  destruct (dfs reference_fuel (adjacency G) s g) as [rd| |] eqn:Hd; [|done..].
  destruct (astar float_pow2 node_ltb reference_fuel (adjacency G) (positions G) s g)
    as [ra| |] eqn:Ha; [|done..].
  apply andb_true_iff in Hfind as [[Hpb Hpd]%andb_true_iff Hpa].
  apply negb_true_iff, bool_decide_eq_false in Hpb, Hpd, Hpa.
  split.
  - exists (path rb).
    by apply (frontier_search_path enqueue enqueue_perm _ _ _
                reference_fuel rb).
  - exists rb, rd, ra. split_and!; try done.
    + unfold bfs in *. rewrite <- Hb.
      apply (frontier_search_mono enqueue); [by rewrite Hb|done].
    + unfold dfs in *. rewrite <- Hd.
      apply (frontier_search_mono push_top); [by rewrite Hd|done].
    + rewrite <- Ha. apply astar_mono; [by rewrite Ha|done].
Qed.

(** ** euclidean on integer coordinates *)

Lemma in_integers_upto (bound k : Z) :
  - bound ≤ k ≤ bound → In k (integers_upto bound).
Proof.
  intros Hk. apply list_elem_of_In, elem_of_seqZ. lia.
Qed.

Lemma exact_on_integers_check_sound pow2 bound :
  exact_on_integers_check pow2 bound = true → exact_on_integers pow2 bound.
Proof.
  unfold exact_on_integers_check. rewrite forallb_forall.
  intros Hcheck k Hk. apply in_integers_upto, Hcheck in Hk.
  unfold square_exact in Hk.
  destruct (pow2 (float_of_Z k)) as [y|]; [|done].
  by apply FloatAxioms.Leibniz.eqb_spec in Hk as ->.
Qed.

Lemma integer_differences_check_sound bound a b :
  integer_differences_check bound = true →
  - bound ≤ a ≤ bound → - bound ≤ b ≤ bound →
  PrimFloat.sub (float_of_Z a) (float_of_Z b) = float_of_Z (a - b).
Proof.
  unfold integer_differences_check. rewrite forallb_forall.
  intros Hcheck Ha Hb. apply in_integers_upto, Hcheck in Ha.
  rewrite forallb_forall in Ha. apply in_integers_upto, Ha in Hb.
  by apply FloatAxioms.Leibniz.eqb_spec in Hb.
Qed.

Lemma integer_distance_check_sound bound dx dy :
  integer_distance_check bound = true →
  - bound ≤ dx ≤ bound → - bound ≤ dy ≤ bound →
  distance_bracketed dx dy = true.
Proof.
  unfold integer_distance_check. rewrite forallb_forall.
  intros Hcheck Hx Hy. apply in_integers_upto, Hcheck in Hx.
  rewrite forallb_forall in Hx. by apply in_integers_upto, Hx in Hy.
Qed.

Lemma distance_bracketed_spec dx dy :
  distance_bracketed dx dy = true →
  PrimFloat.ltb (PrimFloat.add (float_of_Z (dx * dx)) (float_of_Z (dy * dy)))
                0%float = false
  ∧ PrimFloat.leb
      (float_of_Z (Z.sqrt (dx * dx + dy * dy)))
      (PrimFloat.sqrt (PrimFloat.add (float_of_Z (dx * dx))
                                     (float_of_Z (dy * dy)))) = true
  ∧ PrimFloat.leb
      (PrimFloat.sqrt (PrimFloat.add (float_of_Z (dx * dx))
                                     (float_of_Z (dy * dy))))
      (float_of_Z (Z.sqrt_up (dx * dx + dy * dy))) = true
  ∧ ∀ k, 0 ≤ k → k * k = dx * dx + dy * dy →
         PrimFloat.sqrt (PrimFloat.add (float_of_Z (dx * dx))
                                       (float_of_Z (dy * dy)))
         = float_of_Z k.
Proof.
  unfold distance_bracketed. cbv zeta. intros Hb.
  apply andb_true_iff in Hb as [Hb Hsquare].
  apply andb_true_iff in Hb as [Hb Hup].
  apply andb_true_iff in Hb as [Hpos Hlow].
  apply negb_true_iff in Hpos.
  split_and!; [done|done|done|].
  intros k Hk Hkk.
  assert (Z.sqrt (dx * dx + dy * dy) = k) as Hroot.
  { rewrite <- Hkk. by apply Z.sqrt_square. }
  rewrite Hroot, Hkk, Z.eqb_refl in Hsquare.
  by apply FloatAxioms.Leibniz.eqb_spec in Hsquare.
Qed.

Lemma integer_differences : integer_differences_check 50 = true.
Proof. vm_compute. reflexivity. Qed.

Lemma integer_distances : integer_distance_check 100 = true.
Proof. vm_compute. reflexivity. Qed.

Lemma float_pow2_exact_check : exact_on_integers_check float_pow2 100 = true.
Proof. vm_compute. reflexivity. Qed.

Lemma float_pow2_exact : exact_on_integers float_pow2 100.
Proof. apply exact_on_integers_check_sound, float_pow2_exact_check. Qed.

(** X24.  [euclidean] is the Euclidean distance.  On integer coordinates
    up to 50 in absolute value, where [** 2] is exact, [euclidean]
    returns; its value lies between the integer square roots, rounded down
    and up, of the squared distance [(x1 - x2)^2 + (y1 - y2)^2], and where
    the distance is an integer it is that integer (3, 4 gives 5.0). *)
Theorem euclidean_of_integers (pow2 : float → option float)
    (x1 y1 x2 y2 : Z) :
  exact_on_integers pow2 100 →
  - 50 ≤ x1 ≤ 50 → - 50 ≤ y1 ≤ 50 → - 50 ≤ x2 ≤ 50 → - 50 ≤ y2 ≤ 50 →
  ∃ h,
    euclidean pow2 (float_of_Z x1, float_of_Z y1)
                   (float_of_Z x2, float_of_Z y2) = Returns h
    ∧ PrimFloat.leb
        (float_of_Z (Z.sqrt ((x1 - x2) * (x1 - x2) + (y1 - y2) * (y1 - y2))))
        h = true
    ∧ PrimFloat.leb
        h
        (float_of_Z
           (Z.sqrt_up ((x1 - x2) * (x1 - x2) + (y1 - y2) * (y1 - y2))))
      = true
    ∧ ∀ k, 0 ≤ k → k * k = (x1 - x2) * (x1 - x2) + (y1 - y2) * (y1 - y2) →
           h = float_of_Z k.
Proof.
  intros Hexact Hx1 Hy1 Hx2 Hy2.
  destruct (distance_bracketed_spec (x1 - x2) (y1 - y2))
    as (Hpos & Hlow & Hup & Hsq).
  { apply (integer_distance_check_sound 100);
      [exact integer_distances|lia|lia]. }
  eexists. split; [|split_and!; [exact Hlow|exact Hup|exact Hsq]].
  unfold euclidean, float_pow, math_sqrt.
  change ((float_of_Z x1, float_of_Z y1).1) with (float_of_Z x1).
  change ((float_of_Z x1, float_of_Z y1).2) with (float_of_Z y1).
  change ((float_of_Z x2, float_of_Z y2).1) with (float_of_Z x2).
  change ((float_of_Z x2, float_of_Z y2).2) with (float_of_Z y2).
  rewrite (integer_differences_check_sound 50 x1 x2 integer_differences),
          (integer_differences_check_sound 50 y1 y2 integer_differences)
    by done.
  rewrite (Hexact (x1 - x2)), (Hexact (y1 - y2)) by lia.
  unfold mbind, outcome_bind. by rewrite Hpos.
Qed.

(** ** The further properties at concrete inputs *)

(** X1 on the two triangles, from A to D. *)
Lemma search_unreachable_raises_witness :
  bfs 20 two_triangles (Name "A") (Name "D") = Raises KeyError
  ∧ dfs 20 two_triangles (Name "A") (Name "D") = Raises KeyError.
Proof.
  apply (search_unreachable_raises two_triangles
           (Name "A") (Name "D") 20).
  - exact two_triangles_unreachable.
  - by_compute.
Defined.

(** X2 for the result of [bfs] on the path graph, from A to C. *)
Lemma bfs_dfs_never_return_empty_witness :
  [Name "A"; Name "B"; Name "C"] ≠ []
  ∧ is_path path_graph (Name "A") (Name "C")
            [Name "A"; Name "B"; Name "C"].
Proof.
  apply (bfs_dfs_never_return_empty path_graph (Name "A") (Name "C") 10
           (mkResult [Name "A"; Name "B"; Name "C"] 2 3
                     (Some [Name "A"; Name "B"; Name "C"]))).
  left. vm_compute. reflexivity.
Defined.

(** X3 on the path graph, from A to C. *)
Lemma dfs_finds_path_witness :
  ∃ n r,
    (∀ fuel, (n ≤ fuel)%nat →
       dfs fuel path_graph (Name "A") (Name "C") = Returns r)
    ∧ path r ≠ []
    ∧ is_path path_graph (Name "A") (Name "C") (path r)
    ∧ distance r = edges_of (path r).
Proof.
  apply (dfs_finds_path path_graph (Name "A") (Name "C")).
  exact path_graph_reachable.
Defined.

Lemma detour_through_reachable :
  reachable detour_through (Num 0) (Num 5).
Proof.
  exists [Num 0; Num 3; Num 4; Num 6; Num 5]. split_and!; [done|done|].
  simpl. unfold edge. split_and!; first [by_compute | done].
Qed.

Lemma detour_through_heap_ordered :
  heap_ordered float_pow2 node_ltb detour_through detour_through_positions
               (Num 0) (Num 5).
Proof.
  apply (heap_ordered_on_sound _ _ _ _ _ _
           [Num 0; Num 1; Num 2; Num 3; Num 4; Num 5; Num 6]).
  - by_compute.
  - vm_compute. reflexivity.
  - vm_compute. reflexivity.
Qed.

(** X4 on [detour_through], whose positions mislead the search, from node
    0 to node 5. *)
Lemma astar_finds_path_witness :
  ∃ n r,
    (∀ fuel, (n ≤ fuel)%nat →
       astar float_pow2 node_ltb fuel detour_through detour_through_positions
             (Num 0) (Num 5) = Returns r)
    ∧ path r ≠ []
    ∧ is_path detour_through (Num 0) (Num 5) (path r)
    ∧ distance r = edges_of (path r).
Proof.
  apply (astar_finds_path float_pow2 node_ltb detour_through
           detour_through_positions (Num 0) (Num 5)).
  - exact detour_through_reachable.
  - exact detour_through_heap_ordered.
Defined.

(** X21 on [detour_through], from node 0 to node 5. *)
Lemma astar_always_returns_witness :
  ∃ n r,
    ∀ fuel, (n ≤ fuel)%nat →
      astar float_pow2 node_ltb fuel detour_through detour_through_positions
            (Num 0) (Num 5) = Returns r.
Proof.
  apply (astar_always_returns float_pow2 node_ltb detour_through
           detour_through_positions (Num 0) (Num 5)).
  exact detour_through_heap_ordered.
Defined.

(** X5 on the came-from map of a search of the path graph from A: the
    chain from C is C, B, A. *)
Lemma reconstruct_path_of_chain_witness :
  (last [Name "C"; Name "B"; Name "A"] = Some (Name "A") →
   reconstruct_path 5
     ({[Name "A" := None; Name "B" := Some (Name "A");
        Name "C" := Some (Name "B")]} : gmap node (option node))
     (Name "A") (Name "C")
   = Returns (reverse [Name "C"; Name "B"; Name "A"]))
  ∧ (last [Name "C"; Name "B"; Name "A"] ≠ Some (Name "A") →
     reconstruct_path 5
       ({[Name "A" := None; Name "B" := Some (Name "A");
          Name "C" := Some (Name "B")]} : gmap node (option node))
       (Name "A") (Name "C")
     = Returns []).
Proof.
  apply (reconstruct_path_of_chain
           ({[Name "A" := None; Name "B" := Some (Name "A");
              Name "C" := Some (Name "B")]} : gmap node (option node))
           (Name "A") (Name "C") [Name "C"; Name "B"; Name "A"] 5).
  - apply (back_chain_step _ _ (Some (Name "B"))); [by_compute|].
    apply (back_chain_step _ _ (Some (Name "A"))); [by_compute|].
    apply (back_chain_step _ _ None); [by_compute|].
    apply back_chain_end.
  - simpl. lia.
Defined.

(** X6 on a came-from map in which A and B name each other. *)
Lemma reconstruct_path_cycle_witness :
  reconstruct_path 1000
    ({[Name "A" := Some (Name "B"); Name "B" := Some (Name "A")]}
       : gmap node (option node))
    (Name "A") (Name "B")
  = OutOfFuel.
Proof.
  apply (reconstruct_path_cycle
           ({[Name "A" := Some (Name "B"); Name "B" := Some (Name "A")]}
              : gmap node (option node))
           (Name "A") (Name "B")).
  - intros v x Hv.
    apply lookup_insert_Some in Hv as [[<- <-] | [_ Hv]].
    + exists (Name "B"). split; [done|]. by_compute.
    + apply lookup_singleton_Some in Hv as [<- <-].
      exists (Name "A"). split; [done|]. by_compute.
  - by_compute.
Defined.

(** X7 for the result of [astar] on the path graph, from A to C. *)
Lemma returned_paths_are_simple_witness :
  NoDup [Name "A"; Name "B"; Name "C"].
Proof.
  apply (returned_paths_are_simple float_pow2 node_ltb path_graph ∅
           (Name "A") (Name "C") 10
           (mkResult [Name "A"; Name "B"; Name "C"] 2 3
                     (Some [Name "A"; Name "B"; Name "C"]))).
  right. right. vm_compute. reflexivity.
Defined.

(** X8 for the result of [astar] on the two triangles, from A to D. *)
Lemma visited_nodes_are_reachable_witness :
  ∃ vo, Some [Name "A"; Name "B"; Name "C"] = Some vo
        ∧ ∀ v, v ∈ vo → reachable two_triangles (Name "A") v.
Proof.
  apply (visited_nodes_are_reachable float_pow2 node_ltb two_triangles ∅
           (Name "A") (Name "D") 10
           (mkResult [] 0 3 (Some [Name "A"; Name "B"; Name "C"]))).
  right. right. vm_compute. reflexivity.
Defined.

(** X9 for the result of [bfs] on the urban grid, from (0, 1) to (2, 2). *)
Lemma path_within_visited_order_witness :
  ∃ vo, Some [Coord 0 1; Coord 0 0; Coord 1 1; Coord 0 2; Coord 1 0;
              Coord 2 2] = Some vo
        ∧ ∀ v, v ∈ [Coord 0 1; Coord 0 0; Coord 2 2] → v ∈ vo.
Proof.
  apply (path_within_visited_order float_pow2 node_ltb (adjacency urban_grid_6x6) ∅
           (Coord 0 1) (Coord 2 2) reference_fuel
           (mkResult [Coord 0 1; Coord 0 0; Coord 2 2] 2 6
              (Some [Coord 0 1; Coord 0 0; Coord 1 1; Coord 0 2;
                     Coord 1 0; Coord 2 2]))).
  left. vm_compute. reflexivity.
Defined.

(** X10 on [detour_through], with the positions of all nodes but the goal
    5. *)
Lemma astar_without_goal_position_witness :
  astar float_pow2 node_ltb 20 detour_through
        (delete (Num 5) detour_through_positions) (Num 0) (Num 5)
  = uniform_cost_search node_ltb 20 detour_through (Num 0) (Num 5).
Proof.
  apply (astar_without_goal_position float_pow2 node_ltb detour_through
           (delete (Num 5) detour_through_positions) (Num 0) (Num 5) 20).
  apply lookup_delete_eq.
Defined.

(** X13 on the path graph: blocking the street between A and B. *)
Lemma block_street_spec_witness :
  dom (remove_neighbor (remove_neighbor path_graph (Name "A") (Name "B"))
                       (Name "B") (Name "A"))
  = dom path_graph
  ∧ ∀ u v,
      v ∈ neighbors
            (remove_neighbor (remove_neighbor path_graph (Name "A") (Name "B"))
                             (Name "B") (Name "A")) u
      ↔ v ∈ neighbors path_graph u
        ∧ ¬ (u = Name "A" ∧ v = Name "B") ∧ ¬ (u = Name "B" ∧ v = Name "A").
Proof.
  apply (block_street_spec path_graph (Name "A") (Name "B")).
  - by_compute.
  - by_compute.
Defined.

(** X14 on the hex ring. *)
Lemma reference_graphs_well_formed_witness :
  graph_well_formed hex_ring_12
  ∧ ("HexRing-12", size (adjacency hex_ring_12)) ∈ announced_sizes.
Proof.
  apply (reference_graphs_well_formed "HexRing-12" hex_ring_12).
  do 3 apply list_elem_of_further. apply list_elem_of_here.
Defined.

(** X15 on the urban grid, from corner to corner. *)
Lemma reference_graphs_searches_succeed_witness :
  reachable (adjacency urban_grid_6x6) (Coord 0 0) (Coord 5 5)
  ∧ ∃ rb rd ra,
      bfs 100 (adjacency urban_grid_6x6) (Coord 0 0) (Coord 5 5) = Returns rb
      ∧ dfs 100 (adjacency urban_grid_6x6) (Coord 0 0) (Coord 5 5)
        = Returns rd
      ∧ astar float_pow2 node_ltb 100 (adjacency urban_grid_6x6)
              (positions urban_grid_6x6) (Coord 0 0) (Coord 5 5) = Returns ra
      ∧ path rb ≠ [] ∧ path rd ≠ [] ∧ path ra ≠ [].
Proof.
  apply (reference_graphs_searches_succeed "UrbanGrid-6x6" urban_grid_6x6
           (Coord 0 0) (Coord 5 5) 100).
  - apply list_elem_of_here.
  - by_compute.
  - by_compute.
  - by_compute.
Defined.

(** X16 on the urban grid, from (0, 1) to (2, 2), for the results of
    [bfs] and of [astar]. *)
Lemma bfs_never_longer_witness :
  distance (mkResult [Coord 0 1; Coord 0 0; Coord 2 2] 2 6
              (Some [Coord 0 1; Coord 0 0; Coord 1 1; Coord 0 2;
                     Coord 1 0; Coord 2 2]))
  ≤ distance (mkResult [Coord 0 1; Coord 0 2; Coord 1 2; Coord 2 2] 3 6
                (Some [Coord 0 1; Coord 1 1; Coord 0 2; Coord 1 2;
                       Coord 2 1; Coord 2 2])).
Proof.
  apply (bfs_never_longer float_pow2 node_ltb (adjacency urban_grid_6x6)
           (positions urban_grid_6x6) (Coord 0 1) (Coord 2 2)
           reference_fuel reference_fuel).
  - vm_compute. reflexivity.
  - right. vm_compute. reflexivity.
Defined.

(** X17 for the result of [dfs] on the path graph, from A to C. *)
Lemma visited_order_ends_witness :
  ∃ vo, Some [Name "A"; Name "B"; Name "C"] = Some vo
        ∧ head vo = Some (Name "A")
        ∧ ([Name "A"; Name "B"; Name "C"] ≠ [] → last vo = Some (Name "C")).
Proof.
  apply (visited_order_ends float_pow2 node_ltb path_graph ∅ (Name "A") (Name "C") 10
           (mkResult [Name "A"; Name "B"; Name "C"] 2 3
                     (Some [Name "A"; Name "B"; Name "C"]))).
  right. left. vm_compute. reflexivity.
Defined.

(** X18 for the result of [bfs] on the urban grid, from (0, 1) to
    (2, 2). *)
Lemma bfs_visits_nearest_first_witness :
  ∃ vo, Some [Coord 0 1; Coord 0 0; Coord 1 1; Coord 0 2; Coord 1 0;
              Coord 2 2] = Some vo
    ∧ ∀ i j u v q,
        (i ≤ j)%nat → vo !! i = Some u → vo !! j = Some v →
        is_path (adjacency urban_grid_6x6) (Coord 0 1) v q →
        ∃ p, is_path (adjacency urban_grid_6x6) (Coord 0 1) u p
             ∧ edges_of p ≤ edges_of q.
Proof.
  apply (bfs_visits_nearest_first (adjacency urban_grid_6x6)
           (Coord 0 1) (Coord 2 2) reference_fuel
           (mkResult [Coord 0 1; Coord 0 0; Coord 2 2] 2 6
              (Some [Coord 0 1; Coord 0 0; Coord 1 1; Coord 0 2;
                     Coord 1 0; Coord 2 2]))).
  vm_compute. reflexivity.
Defined.

Lemma ladder_10_neighbors_are_keys u v :
  v ∈ neighbors (adjacency ladder_10) u → v ∈ dom (adjacency ladder_10).
Proof.
  assert (graph_well_formed_check ladder_10 = true) as Hcheck
    by (vm_compute; reflexivity).
  apply graph_well_formed_sound in Hcheck as (_ & Hkeys & _). apply Hkeys.
Qed.

(** X19 for the result of [dfs] on the ladder, from L0 to L1: 2 nodes
    popped, of 10. *)
Lemma bfs_dfs_visit_count_bound_witness :
  visited_count (mkResult [Name "L0"; Name "L1"] 1 2
                          (Some [Name "L0"; Name "L1"]))
  ≤ Z.of_nat (size (dom (adjacency ladder_10))).
Proof.
  apply (bfs_dfs_visit_count_bound (adjacency ladder_10)
           (Name "L0") (Name "L1") reference_fuel).
  - by_compute.
  - exact ladder_10_neighbors_are_keys.
  - right. vm_compute. reflexivity.
Defined.

(** X20 for the result of [astar] on the two triangles, from A to D. *)
Lemma astar_empty_path_iff_unreachable_witness :
  path (mkResult [] 0 3 (Some [Name "A"; Name "B"; Name "C"])) = []
  ↔ ¬ reachable two_triangles (Name "A") (Name "D").
Proof.
  apply (astar_empty_path_iff_unreachable float_pow2 node_ltb two_triangles ∅
           (Name "A") (Name "D") 10).
  vm_compute. reflexivity.
Defined.

(** X22 for [bfs] on the two triangles, from A to D. *)
Lemma bfs_dfs_raise_only_when_unreachable_witness :
  bfs 10 two_triangles (Name "A") (Name "D") = Raises KeyError
  ∧ ¬ reachable two_triangles (Name "A") (Name "D").
Proof.
  split; [vm_compute; reflexivity|].
  apply (bfs_dfs_raise_only_when_unreachable two_triangles
           (Name "A") (Name "D") 10 KeyError).
  left. vm_compute. reflexivity.
Defined.

(** X24 at the coordinates (0, 0) and (3, 4). *)
Lemma euclidean_of_integers_witness :
  ∃ h,
    euclidean float_pow2 (float_of_Z 0, float_of_Z 0)
                         (float_of_Z 3, float_of_Z 4) = Returns h
    ∧ PrimFloat.leb
        (float_of_Z (Z.sqrt ((0 - 3) * (0 - 3) + (0 - 4) * (0 - 4)))) h
      = true
    ∧ PrimFloat.leb
        h (float_of_Z (Z.sqrt_up ((0 - 3) * (0 - 3) + (0 - 4) * (0 - 4))))
      = true
    ∧ ∀ k, 0 ≤ k → k * k = (0 - 3) * (0 - 3) + (0 - 4) * (0 - 4) →
           h = float_of_Z k.
Proof.
  apply (euclidean_of_integers float_pow2 0 0 3 4).
  - exact float_pow2_exact.
  - lia.
  - lia.
  - lia.
  - lia.
Defined.

(** X25 on [detour_through], whose coordinates are integers: [** 2] and
    the product without the test for overflow. *)
Lemma astar_depends_on_squares_witness :
  astar float_pow2 node_ltb 20 detour_through detour_through_positions
        (Num 0) (Num 5)
  = astar (λ x, Some (PrimFloat.mul x x)) node_ltb 20 detour_through
          detour_through_positions (Num 0) (Num 5).
Proof.
  apply (astar_depends_on_squares float_pow2 node_ltb
           (λ x, Some (PrimFloat.mul x x)) detour_through
           detour_through_positions (Num 0) (Num 5) 20).
  apply agree_on_differences_check_sound. vm_compute. reflexivity.
Defined.
